(** * enjoi-browser: from JSON Schema to Joi rules

    A shallow embedding of the translator the package exports (the function
    assigned to [module.exports]) and the properties its specification
    states about it.

    The JavaScript is embedded as it is written: schema nodes are JavaScript
    values living in a store of objects and arrays (so that a node reached
    through two [$ref]s is one object, and a write to it is seen by both),
    every function of the closure is a computation in a small monad that
    threads the store, collects the [console.warn] output and propagates
    thrown errors, and the recursion through [resolve] is bounded by a fuel
    argument that stands for the JavaScript call stack.

    Joi itself is a dependency: a rule is the tree of builder calls made on it. *)

From Stdlib Require Import String Ascii List ZArith QArith_base Lia Bool DecimalString.
From stdpp Require Import base list strings.
Import ListNotations.
Local Open Scope string_scope.
Local Open Scope list_scope.
Local Set Warnings "-register-all".

(** ** JavaScript values *)

(** Numbers: only their kind and whether they are zero is ever inspected. *)
Inductive double :=
| NaN
| Infinity (negative : bool)
| Finite (q : Q).

Definition is_zero (n : double) : bool :=
  match n with
  | Finite q => Qeq_bool q (0 # 1)
  | _ => false
  end.

Definition of_nat (n : nat) : double := Finite (inject_Z (Z.of_nat n)).

Abbreviation loc := nat.

Inductive value :=
| VUndef
| VNull
| VBool (b : bool)
| VNum (n : double)
| VStr (s : string)
| VRef (l : loc).

(** An object is the list of its own enumerable properties in the order
    [Object.keys] lists them; an array is the list of its elements.
    Inherited members ([toString], [__proto__], ...) are not modelled. *)
Inductive cell :=
| Object (props : list (string * value))
| Array (elems : list value).

Abbreviation heap := (list cell).

(** [if (v)], [v && ...], [v || ...], [!v] *)
Definition truthy (v : value) : bool :=
  match v with
  | VUndef | VNull => false
  | VBool b => b
  | VNum NaN => false
  | VNum n => negb (is_zero n)
  | VStr s => negb (String.eqb s "")
  | VRef _ => true
  end.

(** [v === 'literal'] *)
Definition is_str (v : value) (s : string) : bool :=
  match v with
  | VStr s' => String.eqb s' s
  | _ => false
  end.

(** [v === true], [v === false] *)
Definition is_bool (v : value) (b : bool) : bool :=
  match v with
  | VBool b' => Bool.eqb b' b
  | _ => false
  end.

(** lodash [isNumber], [isUndefined], [isObject] *)
Definition isNumber (v : value) : bool :=
  match v with VNum _ => true | _ => false end.

Definition isUndefined (v : value) : bool :=
  match v with VUndef => true | _ => false end.

Definition isObject (v : value) : bool :=
  match v with VRef _ => true | _ => false end.

(** [typeof v === 'object'] *)
Definition typeof_object (v : value) : bool :=
  match v with VRef _ | VNull => true | _ => false end.

(** ** Strings *)

Definition string_of_nat (n : nat) : string :=
  NilZero.string_of_uint (Nat.to_uint n).

(** [s.indexOf(t)], [None] for -1 *)
Definition indexOf (s t : string) : option nat := String.index 0 t s.

(** [s.substr(from)] *)
Definition substr_from (s : string) (from : nat) : string :=
  String.substring from (String.length s - from) s.

(** [s.split('/')] *)
Fixpoint split_acc (sep : ascii) (s : string) (acc : string) : list string :=
  match s with
  | EmptyString => [String.rev acc]
  | String c s' =>
      if Ascii.eqb c sep then String.rev acc :: split_acc sep s' EmptyString
      else split_acc sep s' (String c acc)
  end.

Definition split (sep : ascii) (s : string) : list string :=
  split_acc sep s EmptyString.

(** A canonical array index: the decimal form of an integer below [2^32 - 1].
    [Object.keys] lists such keys first, in ascending order. *)
Definition array_index (k : string) : option N :=
  match NilZero.uint_of_string k with
  | Some u =>
      let n := N.of_uint u in
      if String.eqb (NilZero.string_of_uint (N.to_uint n)) k && (n <? 4294967295)%N
      then Some n else None
  | None => None
  end.

(** ** Property maps *)

Section Props.
Context {A : Type}.
Implicit Type ps : list (string * A).

Fixpoint assoc (k : string) ps : option A :=
  match ps with
  | [] => None
  | (k', a) :: ps' => if String.eqb k' k then Some a else assoc k ps'
  end.

Definition has_key (k : string) ps : bool :=
  match assoc k ps with Some _ => true | None => false end.

Fixpoint replace (k : string) (a : A) ps : list (string * A) :=
  match ps with
  | [] => []
  | (k', a') :: ps' =>
      if String.eqb k' k then (k', a) :: ps' else (k', a') :: replace k a ps'
  end.

(** where a new integer-like key [n] goes: before the first key that is
    not an index or is a larger one *)
Fixpoint insert_index (n : N) (k : string) (a : A) ps : list (string * A) :=
  match ps with
  | [] => [(k, a)]
  | (k', a') :: ps' =>
      match array_index k' with
      | Some n' =>
          if (n <? n')%N then (k, a) :: ps
          else (k', a') :: insert_index n k a ps'
      | None => (k, a) :: ps
      end
  end.

(** Defining the own property [k] of [o] with the value [a], as an object
    literal and [JSON.parse] do: an own key keeps its place and gets the
    new value, a new key goes where [Object.keys] will list it. *)
Definition define (k : string) (a : A) ps : list (string * A) :=
  if has_key k ps then replace k a ps
  else match array_index k with
       | Some n => insert_index n k a ps
       | None => ps ++ [(k, a)]
       end.

(** The assignment [o[k] = a] on the properties of an object [o] that
    inherits from [Object.prototype]. An own key gets the new value, and a
    new key is defined, but for one: the key ["__proto__"], when [o] has
    no own property of that name, is the accessor [o] inherits; the
    assignment runs its setter, which may replace the prototype of [o] and
    adds no own property. The prototype itself is not modelled: the
    objects the translator assigns to are the two it fills key by key
    (the merged properties, the collected rules), and nothing is read from
    them but their own keys. After an assignment of [null] to
    ["__proto__"] such an object inherits no accessor any more, and a
    second assignment to ["__proto__"] would define an own property:
    this last case is not modelled. *)
Definition put (k : string) (a : A) ps : list (string * A) :=
  if has_key k ps then replace k a ps
  else if String.eqb k "__proto__" then ps
  else define k a ps.
End Props.

(** the own enumerable properties [Object.keys] and [Object.assign] see in
    a value: the properties of an object, the elements of an array under
    their indices, the characters of a string under theirs *)
Definition indexed (vs : list value) : list (string * value) :=
  imap (fun i v => (string_of_nat i, v)) vs.

Fixpoint chars (s : string) : list value :=
  match s with
  | EmptyString => []
  | String c s' => VStr (String c EmptyString) :: chars s'
  end.

Definition cell_at (h : heap) (l : loc) : cell :=
  match h !! l with
  | Some c => c
  | None => Object []
  end.

Definition own_props (h : heap) (v : value) : list (string * value) :=
  match v with
  | VRef l =>
      match cell_at h l with
      | Object ps => ps
      | Array vs => indexed vs
      end
  | VStr s => indexed (chars s)
  | _ => []
  end.

(** [isArray(v)], giving the elements *)
Definition elements (h : heap) (v : value) : option (list value) :=
  match v with
  | VRef l =>
      match cell_at h l with
      | Array vs => Some vs
      | Object _ => None
      end
  | _ => None
  end.

Definition isArray (h : heap) (v : value) : bool :=
  match elements h v with Some _ => true | None => false end.

(** [v[k]] for a [v] that is neither [undefined] nor [null], where [k] is
    an own property of [v] or no property of [v] at all. The members [v]
    inherits from its prototype are not looked up: none of the names the
    translator reads ([type], [properties], [items], [minLength], ...) is
    such a member, and where it reads a name taken from the schema
    ([fragment[paths[i]]] and [subSchemas[id]] in [resolveref]) the
    statements are for names that are own or absent ([own_or_absent]
    below). *)
Definition lookup_prop (h : heap) (v : value) (k : string) : value :=
  match v with
  | VRef l =>
      match cell_at h l with
      | Object ps => default VUndef (assoc k ps)
      | Array vs =>
          if String.eqb k "length" then VNum (of_nat (length vs))
          else default VUndef (assoc k (indexed vs))
      end
  | VStr s =>
      if String.eqb k "length" then VNum (of_nat (String.length s))
      else default VUndef (assoc k (indexed (chars s)))
  | _ => VUndef
  end.

(** [JSON.stringify(v)] throws on a cyclic structure and only then: the
    walk keeps the objects it is inside of and fails on meeting one again.
    A walk is never deeper than the store has objects. *)
Fixpoint stringify_aux (fuel : nat) (h : heap) (inside : list loc) (v : value) : bool :=
  match fuel with
  | O => false
  | S fuel' =>
      match v with
      | VRef l =>
          if bool_decide (l ∈ inside) then false
          else forallb (fun kv => stringify_aux fuel' h (l :: inside) kv.2)
                       (own_props h v)
      | _ => true
      end
  end.

Definition stringifiable (h : heap) (v : value) : bool :=
  stringify_aux (S (length h)) h [] v.

(** ** Joi rules

    A rule is the record of the builder calls that made it: a constructor
    of the [Joi] object followed by the chained calls, innermost first.
    What Joi checks about the arguments of a call is not modelled: a call
    Joi refuses ([min] of a negative number, [try] of no rule, [regex] of
    a pattern [new RegExp] rejects, ...) throws in the program and is one
    more call in the rule here. The statements about rules are therefore
    about the calls the translator makes, in the runs that return a
    rule. *)
Module Joi.

Inductive method :=
| strict (isStrict : bool)
| required
| forbidden
| valid (v : value)
| allow (v : value)
| description (v : value)
| label (v : value)
| default (v : value)
| unknown (b : bool)
| min (v : value)
| max (v : value)
| unique
| integer
| greater (v : value)
| less (v : value)
| multiple (v : value)
| email
| hostname
| ip (version : String.string)
| uri
| base64
| regex (source : value).

Inductive rule :=
| any
| boolean
| number
| string
| date
| binary
| array
| object (schemas : option (list (String.string * rule)))
| alternatives (schemas : option (list rule))
| try (r : rule) (schemas : list rule)
| when (r : rule) (condition : rule) (then_ otherwise : rule)
| items (r : rule) (schemas : list rule)
| ordered (r : rule) (schemas : list rule)
| pattern (r : rule) (source : String.string) (schema : rule)
| call (r : rule) (m : method).

(** The presence flag of a rule: [required()] and [forbidden()] set it,
    every other chained call keeps it, a fresh rule is optional. *)
Inductive presence := Optional | Required | Forbidden.

Fixpoint presence_of (r : rule) : presence :=
  match r with
  | call _ required => Required
  | call _ forbidden => Forbidden
  | call r' _ => presence_of r'
  | try r' _ => presence_of r'
  | when r' _ _ _ => presence_of r'
  | items r' _ => presence_of r'
  | ordered r' _ => presence_of r'
  | pattern r' _ _ => presence_of r'
  | _ => Optional
  end.

(** The [strict] setting of a rule: the last [strict(b)] chained on it. *)
Fixpoint strict_of (r : rule) : option bool :=
  match r with
  | call _ (strict b) => Some b
  | call r' _ => strict_of r'
  | try r' _ => strict_of r'
  | when r' _ _ _ => strict_of r'
  | items r' _ => strict_of r'
  | ordered r' _ => strict_of r'
  | pattern r' _ _ => strict_of r'
  | _ => None
  end.

End Joi.

Abbreviation rule := Joi.rule.
Notation "r .( m )" := (Joi.call r m) (at level 1, left associativity, format "r .( m )").

(** ** Failures *)

(** What the code can throw: a failed [assert] of hoek, with its message
    and the value spliced into it when that is not a string; a
    [TypeError] of the runtime (a property of [undefined] or [null] is read,
    a missing method is called, [JSON.stringify] meets a cycle); the
    validation error of the entry point. What Joi and [new RegExp] throw
    on arguments they refuse is not among them, and a call stack that runs
    out is the outcome [Timeout] below, not an error. *)
Inductive error :=
| AssertionError (message : string) (spliced : option value)
| TypeError
| ValidationError.

Definition expected_anyOf := "Expected anyOf to be an array.".
Definition expected_allOf := "Expected allOf to be an array.".
Definition expected_not := "Expected Not to be an array.".
Definition expected_allOf_item := "Expected allOf item to be an array or object.".
Definition could_not_resolve := "Could not resolve type: ".
Definition can_not_find (ref : string) := "Can not find schema reference: " +:+ ref +:+ ".".

(** ** Computations *)

Inductive outcome (A : Type) :=
| Ok (a : A)
| Throw (e : error)
| Timeout.
Arguments Ok {A} a.
Arguments Throw {A} e.
Arguments Timeout {A}.

(** A computation runs in a store and gives an outcome, the store it
    leaves (also when it throws) and the nodes it warned about. *)
Definition M (A : Type) := heap -> outcome A * heap * list value.

Definition ret {A} (a : A) : M A := fun h => (Ok a, h, []).

Definition bind {A B} (m : M A) (f : A -> M B) : M B :=
  fun h =>
    match m h with
    | (Ok a, h1, w1) =>
        match f a h1 with
        | (o, h2, w2) => (o, h2, w1 ++ w2)
        end
    | (Throw e, h1, w1) => (Throw e, h1, w1)
    | (Timeout, h1, w1) => (Timeout, h1, w1)
    end.

Notation "x <- m ;; k" := (bind m (fun x => k))
  (at level 100, m at next level, right associativity).
Notation "m ;;; k" := (bind m (fun _ => k))
  (at level 100, right associativity).

Definition throw {A} (e : error) : M A := fun h => (Throw e, h, []).

Definition timeout {A} : M A := fun h => (Timeout, h, []).

(** [assert(condition, message)] *)
Definition assert (condition : bool) (e : error) : M unit :=
  if condition then ret tt else throw e.

(** reading the store *)
Definition read {A} (f : heap -> A) : M A := fun h => (Ok (f h), h, []).

(** [v.k], [v[k]] *)
Definition get (v : value) (k : string) : M value :=
  match v with
  | VUndef | VNull => throw TypeError
  | _ => read (fun h => lookup_prop h v k)
  end.

(** [v.k = a] in strict mode, on an object *)
Definition set (v : value) (k : string) (a : value) : M unit :=
  fun h =>
    match v with
    | VRef l =>
        match h !! l with
        | Some (Object ps) => (Ok tt, <[l := Object (put k a ps)]> h, [])
        | _ => (Throw TypeError, h, [])
        end
    | _ => (Throw TypeError, h, [])
    end.

(** an object or array literal *)
Definition alloc (c : cell) : M value :=
  fun h => (Ok (VRef (length h)), h ++ [c], []).

(** [console.warn(..., JSON.stringify(current))] *)
Definition warn (current : value) : M unit :=
  fun h =>
    if stringifiable h current then (Ok tt, h, [current])
    else (Throw TypeError, h, []).

Fixpoint mapM {A B} (f : A -> M B) (l : list A) : M (list B) :=
  match l with
  | [] => ret []
  | a :: l' => b <- f a ;; bs <- mapM f l' ;; ret (b :: bs)
  end.

(** a loop [for (x of l) acc = body(acc, x)] *)
Fixpoint foldM {A B} (f : B -> A -> M B) (l : list A) (acc : B) : M B :=
  match l with
  | [] => ret acc
  | a :: l' => acc' <- f acc a ;; foldM f l' acc'
  end.

(** ** The translator *)

(** The options as [Joi.validate(options, optionsSchema)] returns them:
    [strictMode] has its default applied. [types] maps a type name to a rule
    the caller has built; [types[type]] is taken as a function of [type],
    [None] when the entry is missing. [refineType] is a function of the
    caller; it is taken to be pure. *)
Record options := {
  subSchemas : value;
  types : option (heap -> value -> option rule);
  refineType : option (heap -> value -> value -> value);
  strictMode : bool
}.

(** [v === w] *)
Definition strict_equal (v w : value) : bool :=
  match v, w with
  | VUndef, VUndef | VNull, VNull => true
  | VBool a, VBool b => Bool.eqb a b
  | VNum (Finite p), VNum (Finite q) => Qeq_bool p q
  | VNum (Infinity a), VNum (Infinity b) => Bool.eqb a b
  | VStr s, VStr t => String.eqb s t
  | VRef l, VRef m => Nat.eqb l m
  | _, _ => false
  end.

(** the argument of [a.concat(v)] as the elements it adds to [a] *)
Definition concat_arg (h : heap) (v : value) : list value :=
  match elements h v with
  | Some vs => vs
  | None => [v]
  end.

(** [!!~required.indexOf(key)]: [required] is truthy; an array is searched
    with [===], a string for a substring, anything else has no [indexOf] *)
Definition indexOf_found (required : value) (key : string) : M bool :=
  match required with
  | VStr s => ret (bool_decide (is_Some (indexOf s key)))
  | VRef _ =>
      vs <- read (fun h => elements h required) ;;
      match vs with
      | Some vs => ret (existsb (fun v => is_str v key) vs)
      | None => throw TypeError
      end
  | _ => throw TypeError
  end.

Section Translate.

(** the arguments of [module.exports], after validation *)
Variable schema : value.
Variable opts : options.

(** *** The reference resolver *)

(** [for (let i = 1; i < paths.length && fragment; i++)], on the segments
    from the second on *)
Fixpoint walk (paths : list string) (fragment : value) : M value :=
  match paths with
  | [] => ret fragment
  | p :: paths' =>
      if truthy fragment then
        fragment' <- (if typeof_object fragment then get fragment p
                      else ret (VBool false)) ;;
        walk paths' fragment'
      else ret fragment
  end.

(** [subSchemas[id] || subSchemas[id.substr(0, id.length - 1)]], or
    [undefined] when the lookup is skipped *)
Definition lookup_registry (id : string) : M value :=
  if truthy (VStr id) && truthy (subSchemas opts) then
    byId <- get (subSchemas opts) id ;;
    if truthy byId then ret byId
    else get (subSchemas opts) (String.substring 0 (String.length id - 1) id)
  else ret VUndef.

(** [resolveref(value)]; only a string has [substr] *)
Definition resolveref (ref : value) : M value :=
  match ref with
  | VStr s =>
      let n := match indexOf s "#" with Some i => i + 1 | None => 0 end in
      let id := String.substring 0 n s in
      let path := substr_from s n in
      found <- lookup_registry id ;;
      let refschema := if truthy found then found else schema in
      assert (truthy refschema) (AssertionError (can_not_find s) None) ;;;
      walk (tail (split "/" path)) refschema
  | _ => throw TypeError
  end.

(** [getSchemaType(current)] *)
Definition getSchemaType (current : value) : M value :=
  type <- get current "type" ;;
  if truthy type then ret type
  else
    ref <- get current "$ref" ;;
    if truthy ref then
      fragment <- resolveref ref ;;
      get fragment "type"
    else ret VUndef.

(** *** The merge engine *)

(** [if (item.$ref) { item = resolveref(item.$ref); }] *)
Definition deref (item : value) : M value :=
  ref <- get item "$ref" ;;
  if truthy ref then resolveref ref else ret item.

(** [Object.assign(properties, source)]: every own key of [source], in
    order, is read from it and written to [properties] *)
Definition assign (properties source : list (string * value)) : list (string * value) :=
  fold_left (fun acc k => put k (default VUndef (assoc k source)) acc)
            (map fst source) properties.

(** [x || []] as the argument of [concat] *)
Definition or_empty (h : heap) (x : value) : list value :=
  if truthy x then concat_arg h x else [].

(** [items.length ? items : undefined] *)
Definition array_or_undefined (vs : list value) : M value :=
  match vs with
  | [] => ret VUndef
  | _ => alloc (Array vs)
  end.

(** The body of the loop of [mergeObject(current)], on the properties and
    the required list collected so far. The result and its [properties]
    are reachable by nobody else until they are returned: they are built
    in local variables and stored on return. *)
Definition mergeObject_step (acc : list (string * value) * list value) (item : value)
  : M (list (string * value) * list value) :=
  item <- deref item ;;
  itemProperties <- get item "properties" ;;
  source <- read (fun h => own_props h itemProperties) ;;
  itemRequired <- get item "required" ;;
  more <- read (fun h => or_empty h itemRequired) ;;
  ret (assign acc.1 source, acc.2 ++ more).

(** [mergeObject(current)]: [current] is the [allOf] array *)
Definition mergeObject (current : value) : M value :=
  members <- read (fun h => default [] (elements h current)) ;;
  acc <- foldM mergeObject_step members ([], []) ;;
  properties <- alloc (Object acc.1) ;;
  required <- array_or_undefined acc.2 ;;
  alloc (Object [("type", VStr "object"); ("properties", properties);
                 ("required", required)]).

(** the body of the loop of [mergeArray(current)], on the items and the
    ordered list collected so far *)
Definition mergeArray_step (acc : list value * list value) (item : value)
  : M (list value * list value) :=
  item <- deref item ;;
  itemItems <- get item "items" ;;
  isArr <- read (fun h => elements h itemItems) ;;
  match isArr with
  | Some vs =>
      itemOrdered <- get item "ordered" ;;
      more <- read (fun h => or_empty h itemOrdered) ;;
      ret (acc.1 ++ vs, acc.2 ++ more)
  | None => ret (acc.1 ++ [itemItems], acc.2)
  end.

(** [mergeArray(current)] *)
Definition mergeArray (current : value) : M value :=
  members <- read (fun h => default [] (elements h current)) ;;
  acc <- foldM mergeArray_step members ([], []) ;;
  items <- alloc (Array acc.1) ;;
  ordered <- array_or_undefined acc.2 ;;
  alloc (Object [("type", VStr "array"); ("items", items); ("ordered", ordered)]).

(** *** Type builders and combinators, over the recursive call *)

Section Resolvers.

Variable resolve : value -> M rule.

(** [resolveAsArray(value)] *)
Definition resolveAsArray (v : value) : M (list rule) :=
  isArr <- read (fun h => elements h v) ;;
  match isArr with
  | Some vs => mapM resolve vs
  | None => r <- resolve v ;; ret [r]
  end.

(** [isNumber(current.key) && (joischema = joischema.method(current.key))] *)
Definition if_number (current : value) (key : string)
    (method : value -> Joi.method) (joischema : rule) : M rule :=
  v <- get current key ;;
  ret (if isNumber v then joischema.(method v) else joischema).

(** [current.key && (joischema = joischema.method(current.key))] *)
Definition if_truthy (current : value) (key : string)
    (method : value -> Joi.method) (joischema : rule) : M rule :=
  v <- get current key ;;
  ret (if truthy v then joischema.(method v) else joischema).

(** the body of the [forEach] of [resolveproperties(current)], on the
    [schemas] built so far *)
Definition resolveproperty (current : value)
    (schemas : list (string * rule)) (key : string) : M (list (string * rule)) :=
  properties <- get current "properties" ;;
  property <- get properties key ;;
  joischema <- resolve property ;;
  required <- get current "required" ;;
  joischema <-
    (if truthy required then
       found <- indexOf_found required key ;;
       ret (if found then joischema.(Joi.required) else joischema)
     else ret joischema) ;;
  ret (put key joischema schemas).

(** [resolveproperties(current)]; [None] is the [undefined] returned
    when [properties] is not an object *)
Definition resolveproperties (current : value) : M (option (list (string * rule))) :=
  properties <- get current "properties" ;;
  if isObject properties then
    keys <- read (fun h => map fst (own_props h properties)) ;;
    schemas <- foldM (resolveproperty current) keys [] ;;
    ret (Some schemas)
  else ret None.

(** [object(current)] *)
Definition object (current : value) : M rule :=
  schemas <- resolveproperties current ;;
  let joischema := Joi.object schemas in
  additional <- get current "additionalProperties" ;;
  let joischema :=
    if is_bool additional true then joischema.(Joi.unknown true) else joischema in
  additional <- get current "additionalProperties" ;;
  joischema <-
    (if isObject additional then
       r <- resolve additional ;; ret (Joi.pattern joischema "^" r)
     else ret joischema) ;;
  joischema <- if_number current "minProperties" Joi.min joischema ;;
  if_number current "maxProperties" Joi.max joischema.

(** [array(current)]; [items] is [None] while the variable is undefined *)
Definition array (current : value) : M rule :=
  let joischema := Joi.array in
  currentItems <- get current "items" ;;
  built <-
    (if truthy currentItems then
       items <- resolveAsArray currentItems ;;
       ret (Some items, Joi.items joischema items)
     else
       currentOrdered <- get current "ordered" ;;
       if truthy currentOrdered then
         items <- resolveAsArray currentOrdered ;;
         ret (Some items, Joi.ordered joischema items)
       else ret (None, joischema)) ;;
  let items : option (list rule) := built.1 in
  let joischema := built.2 in
  additionalItems <- get current "additionalItems" ;;
  let joischema :=
    match items with
    | Some items =>
        if is_bool additionalItems false
        then joischema.(Joi.max (VNum (of_nat (length items))))
        else joischema
    | None => joischema
    end in
  joischema <- if_number current "minItems" Joi.min joischema ;;
  joischema <- if_number current "maxItems" Joi.max joischema ;;
  unique <- get current "uniqueItems" ;;
  ret (if truthy unique then joischema.(Joi.unique) else joischema).

(** [number(current)] *)
Definition number (current : value) : M rule :=
  let joischema := Joi.number in
  type <- get current "type" ;;
  let joischema :=
    if is_str type "integer" then joischema.(Joi.integer) else joischema in
  joischema <- if_number current "minimum" Joi.min joischema ;;
  joischema <- if_number current "maximum" Joi.max joischema ;;
  joischema <- if_number current "exclusiveMinimum" Joi.greater joischema ;;
  joischema <- if_number current "exclusiveMaximum" Joi.less joischema ;;
  multipleOf <- get current "multipleOf" ;;
  ret (match multipleOf with
       | VNum n => if is_zero n then joischema else joischema.(Joi.multiple multipleOf)
       | _ => joischema
       end).

(** [if (isUndefined(current.minLength)) { current.minLength = 0; }] *)
Definition default_minLength (current : value) : M unit :=
  minLength <- get current "minLength" ;;
  if isUndefined minLength then set current "minLength" (VNum (of_nat 0))
  else ret tt.

(** [regularString(current, joischema)] *)
Definition regularString (current : value) (joischema : rule) : M rule :=
  joischema <- if_truthy current "pattern" Joi.regex joischema ;;
  default_minLength current ;;;
  minLength <- get current "minLength" ;;
  let joischema :=
    match minLength with
    | VNum n =>
        (if is_zero n then joischema.(Joi.allow (VStr "")) else joischema)
          .(Joi.min minLength)
    | _ => joischema
    end in
  if_number current "maxLength" Joi.max joischema.

(** [date(current)], [binary(current)] *)
Definition date (current : value) : M rule :=
  joischema <- if_truthy current "minimum" Joi.min Joi.date ;;
  if_truthy current "maximum" Joi.max joischema.

Definition binary (current : value) : M rule :=
  joischema <- if_truthy current "minLength" Joi.min Joi.binary ;;
  if_truthy current "maxLength" Joi.max joischema.

(** [string(current)] *)
Definition string_ (current : value) : M rule :=
  let joischema := Joi.string in
  enum <- get current "enum" ;;
  if truthy enum then ret Joi.any.(Joi.valid enum)
  else
    format <- get current "format" ;;
    if is_str format "date" || is_str format "date-time" then date current
    else if is_str format "binary" then binary current
    else
      regularString current
        (if is_str format "email" then joischema.(Joi.email)
         else if is_str format "hostname" then joischema.(Joi.hostname)
         else if is_str format "ipv4" then joischema.(Joi.ip "ipv4")
         else if is_str format "ipv6" then joischema.(Joi.ip "ipv6")
         else if is_str format "uri" then joischema.(Joi.uri)
         else if is_str format "byte" then joischema.(Joi.base64)
         else joischema).

(** the [switch (type)] of [joitype], [None] when it leaves [joischema]
    undefined *)
Definition builder (current type : value) : M (option rule) :=
  if is_str type "array" then r <- array current ;; ret (Some r)
  else if is_str type "boolean" then ret (Some Joi.boolean)
  else if is_str type "integer" || is_str type "number" then
    r <- number current ;; ret (Some r)
  else if is_str type "object" then r <- object current ;; ret (Some r)
  else if is_str type "string" then r <- string_ current ;; ret (Some r)
  else if is_str type "null" then ret (Some Joi.any.(Joi.valid VNull))
  else
    match types opts with
    | Some table => read (fun h => table h type)
    | None => ret None
    end.

(** [joitype(type, format)] inside [resolvetype(current)] *)
Definition joitype (current type format : value) : M rule :=
  type <- match refineType opts with
          | Some refine => read (fun h => refine h type format)
          | None => ret type
          end ;;
  joischema <- builder current type ;;
  currentType <- get current "type" ;;
  match joischema with
  | Some joischema => ret joischema.(Joi.strict (strictMode opts))
  | None => throw (AssertionError could_not_resolve (Some currentType))
  end.

(** the calls [typeDefinitionMap] names, in the order of its keys *)
Definition typeDefinitionMap : list (string * (value -> Joi.method)) :=
  [("description", Joi.description); ("title", Joi.label);
   ("default", Joi.default)].

(** [resolvetype(current)] *)
Definition resolvetype (current : value) : M rule :=
  type <- get current "type" ;;
  isArr <- read (fun h => elements h type) ;;
  joischema <-
    match isArr with
    | Some ts =>
        schemas <- mapM (fun t => format <- get current "format" ;;
                                  joitype current t format) ts ;;
        ret (Joi.alternatives (Some schemas))
    | None =>
        format <- get current "format" ;;
        joitype current type format
    end ;;
  foldM (fun joischema entry => if_truthy current entry.1 entry.2 joischema)
        typeDefinitionMap joischema.

(** [assert(isArray(current.key), message)], giving the elements *)
Definition expect_array (current : value) (key message : string) : M (list value) :=
  v <- get current key ;;
  isArr <- read (fun h => elements h v) ;;
  match isArr with
  | Some vs => ret vs
  | None => throw (AssertionError message None)
  end.

(** [resolveAnyOf(current)], [resolveAllOf(current)],
    [resolveOneOf(current)], [resolveNot(current)] *)
Definition resolveAnyOf (current : value) : M rule :=
  members <- expect_array current "anyOf" expected_anyOf ;;
  schemas <- mapM resolve members ;;
  ret (Joi.try (Joi.alternatives None) schemas).

Definition resolveAllOf (current : value) : M rule :=
  members <- expect_array current "allOf" expected_allOf ;;
  allOf <- get current "allOf" ;;
  first <- get allOf "0" ;;
  type <- getSchemaType first ;;
  mapM (fun schema =>
          _type <- getSchemaType schema ;;
          assert ((is_str _type "array" || is_str _type "object")
                  && strict_equal type _type)
                 (AssertionError expected_allOf_item None)) members ;;;
  allOf <- get current "allOf" ;;
  if is_str type "object" then merged <- mergeObject allOf ;; resolve merged
  else merged <- mergeArray allOf ;; resolve merged.

Definition resolveOneOf (current : value) : M rule :=
  members <- expect_array current "oneOf" expected_allOf ;;
  schemas <- mapM resolve members ;;
  ret (Joi.try (Joi.alternatives None) schemas).(Joi.required).

Definition resolveNot (current : value) : M rule :=
  members <- expect_array current "not" expected_not ;;
  schemas <- mapM resolve members ;;
  ret (Joi.when (Joi.alternatives None)
         (Joi.try (Joi.alternatives None) schemas)
         Joi.any.(Joi.forbidden) Joi.any).

(** the body of [resolve(current)] *)
Definition resolve_body (current : value) : M rule :=
  type <- get current "type" ;;
  if truthy type then resolvetype current else
  anyOf <- get current "anyOf" ;;
  if truthy anyOf then resolveAnyOf current else
  allOf <- get current "allOf" ;;
  if truthy allOf then resolveAllOf current else
  oneOf <- get current "oneOf" ;;
  if truthy oneOf then resolveOneOf current else
  not <- get current "not" ;;
  if truthy not then resolveNot current else
  ref <- get current "$ref" ;;
  if truthy ref then fragment <- resolveref ref ;; resolve fragment else
  enum <- get current "enum" ;;
  if truthy enum then ret Joi.any.(Joi.valid enum) else
  match current with
  | VStr _ =>
      node <- alloc (Object [("type", current)]) ;;
      resolvetype node
  | _ =>
      warn current ;;;
      ret Joi.any
  end.

End Resolvers.

(** [resolve(current)], with at most [fuel] nested calls of [resolve] *)
Fixpoint resolve (fuel : nat) (current : value) : M rule :=
  match fuel with
  | O => timeout
  | S fuel' => resolve_body (resolve fuel') current
  end.

End Translate.

(** [schemaSchema]: an object that is not an array, or a string that is
    not empty *)
Definition schemaSchema (h : heap) (schema : value) : bool :=
  match schema with
  | VRef _ => negb (isArray h schema)
  | VStr s => negb (String.eqb s "")
  | _ => false
  end.

(** [optionsSchema], for what the record leaves open: [subSchemas] is an
    object, [null] or absent *)
Definition optionsSchema (h : heap) (opts : options) : bool :=
  match subSchemas opts with
  | VRef _ => negb (isArray h (subSchemas opts))
  | VNull | VUndef => true
  | _ => false
  end.

(** [module.exports = function (schema, options = {})] *)
Definition translate (fuel : nat) (schema : value) (opts : options) : M rule :=
  valid <- read (fun h => schemaSchema h schema) ;;
  assert valid ValidationError ;;;
  valid <- read (fun h => optionsSchema h opts) ;;
  assert valid ValidationError ;;;
  resolve schema opts fuel schema.

(** the options of a call that passes none *)
Definition no_options : options :=
  {| subSchemas := VUndef; types := None; refineType := None; strictMode := false |}.

(** ** Schema documents

    A JSON document and the store [JSON.parse] builds from it: every object
    and array gets a cell of its own, children before their parent. The
    members of an object are defined one after the other, so that of two
    members with the same name the later gives the value, integer-like
    names come first, and a member named ["__proto__"] is an own property
    like any other. A number is an integer literal; its value is the
    nearest double. *)
Inductive json :=
| JNull
| JBool (b : bool)
| JNum (n : Z)
| JStr (s : string)
| JArr (elems : list json)
| JObj (props : list (string * json)).

(** the double nearest to an integer, ties to the even mantissa, and an
    infinity from [2^1024 - 2^970] on *)
Definition nearest_double (n : Z) : double :=
  let a := Z.abs n in
  if (a <? 2 ^ 53)%Z then Finite (inject_Z n)
  else
    let e := (Z.log2 a - 52)%Z in
    let q := (a / 2 ^ e)%Z in
    let r := (a mod 2 ^ e)%Z in
    let half := (2 ^ (e - 1))%Z in
    let q := if (half <? r)%Z || ((r =? half)%Z && Z.odd q) then (q + 1)%Z else q in
    let m := (q * 2 ^ e)%Z in
    if (2 ^ 1024 <=? m)%Z then Infinity (n <? 0)%Z
    else Finite (inject_Z (Z.sgn n * m)).

(** the properties of an object whose members are defined in this order *)
Definition object_of (members : list (string * value)) : list (string * value) :=
  fold_left (fun ps member => define member.1 member.2 ps) members [].

Fixpoint parse (j : json) (h : heap) : value * heap :=
  match j with
  | JNull => (VNull, h)
  | JBool b => (VBool b, h)
  | JNum n => (VNum (nearest_double n), h)
  | JStr s => (VStr s, h)
  | JArr elems =>
      let fix go (l : list json) (h : heap) : list value * heap :=
        match l with
        | [] => ([], h)
        | j' :: l' =>
            let (v, h1) := parse j' h in
            let (vs, h2) := go l' h1 in
            (v :: vs, h2)
        end in
      let (vs, h') := go elems h in
      (VRef (length h'), h' ++ [Array vs])
  | JObj props =>
      let fix go (l : list (string * json)) (h : heap) : list (string * value) * heap :=
        match l with
        | [] => ([], h)
        | (k, j') :: l' =>
            let (v, h1) := parse j' h in
            let (ps, h2) := go l' h1 in
            ((k, v) :: ps, h2)
        end in
      let (ps, h') := go props h in
      (VRef (length h'), h' ++ [Object (object_of ps)])
  end.

(** [translate(JSON.parse(text), options)] in an empty store *)
Definition translate_json (fuel : nat) (j : json) (opts : options)
  : outcome rule * heap * list value :=
  let (schema, h) := parse j [] in
  translate fuel schema opts h.

(** *** Sample documents *)

(** two object schemas under [allOf], the second through a [$ref] *)
Definition doc_allOf : json :=
  JObj [("allOf",
         JArr [JObj [("type", JStr "object");
                     ("properties", JObj [("a", JStr "string")]);
                     ("required", JArr [JStr "a"])];
               JObj [("$ref", JStr "#/definitions/b")]]);
        ("definitions",
         JObj [("b", JObj [("type", JStr "object");
                           ("properties", JObj [("a", JStr "number");
                                                ("b", JStr "number")]);
                           ("required", JArr [JStr "a"; JStr "b"])])])].

(** an [allOf] whose only member is a [$ref] that leads nowhere *)
Definition doc_allOf_dangling : json :=
  JObj [("allOf", JArr [JObj [("$ref", JStr "#/missing")]])].

(** an object schema with a [oneOf] property that is not listed as required *)
Definition doc_oneOf_property : json :=
  JObj [("type", JStr "object");
        ("properties",
         JObj [("a", JObj [("oneOf", JArr [JObj [("type", JStr "string")]])]);
               ("b", JObj [("type", JStr "boolean")])]);
        ("required", JArr [JStr "b"])].

(** an enum without a type *)
Definition doc_enum : json := JObj [("enum", JArr [JNum 1; JNum 2])].

(** a string schema without [minLength] *)
Definition doc_string : json := JObj [("type", JStr "string")].

(** a document that resolves [#/d] twice; [#/d] reads the properties of
    [o] as an object schema does, and as the string schema they happen to
    form *)
Definition doc_ref_twice : json :=
  JObj [("anyOf", JArr [JObj [("$ref", JStr "#/d")]; JObj [("$ref", JStr "#/d")]]);
        ("d", JObj [("anyOf", JArr [JObj [("$ref", JStr "#/o")];
                                    JObj [("$ref", JStr "#/o/properties")]])]);
        ("o", JObj [("type", JStr "object");
                    ("properties", JObj [("type", JStr "string")])])].

(** a [not] over strings *)
Definition doc_not : json := JObj [("not", JArr [JObj [("type", JStr "string")]])].

(** three array schemas under [allOf]: a list of items with an [ordered]
    list, a single item schema, and no items *)
Definition doc_allOf_arrays : json :=
  JObj [("allOf",
         JArr [JObj [("type", JStr "array");
                     ("items", JArr [JObj [("type", JStr "string")]]);
                     ("ordered", JArr [JObj [("type", JStr "number")]])];
               JObj [("type", JStr "array");
                     ("items", JObj [("type", JStr "boolean")])];
               JObj [("type", JStr "array")]])].

(** an object schema under [allOf] with a property named ["__proto__"] *)
Definition doc_allOf_proto : json :=
  JObj [("allOf",
         JArr [JObj [("type", JStr "object");
                     ("properties",
                      JObj [("__proto__", JObj [("type", JStr "string")]);
                            ("a", JObj [("type", JStr "number")])])]])].

(** the options of a call that passes only [strictMode: true] *)
Definition strict_options : options :=
  {| subSchemas := VUndef; types := None; refineType := None; strictMode := true |}.

(** the store [JSON.parse] builds for a document, and the document in it *)
Definition store_of (j : json) : heap := (parse j []).2.
Definition root_of (j : json) : value := (parse j []).1.

(** A store without cycles, as the store of a document is: every cell
    refers to earlier cells only. *)
Definition refs_below (n : nat) (v : value) : Prop :=
  match v with
  | VRef l => l < n
  | _ => True
  end.

Definition cell_values (c : cell) : list value :=
  match c with
  | Object ps => map snd ps
  | Array vs => vs
  end.

Definition descending (h : heap) : Prop :=
  forall l c, h !! l = Some c -> Forall (refs_below l) (cell_values c).

(** ** Vocabulary of the specification *)

(** The keywords the dispatcher looks at, in the order of section 4.1. A
    keyword matches a node when the node's value for it is truthy. *)
Definition keywords : list string :=
  ["type"; "anyOf"; "allOf"; "oneOf"; "not"; "$ref"; "enum"].

Definition first_match (h : heap) (node : value) : option string :=
  List.find (fun k => truthy (lookup_prop h node k)) keywords.

(** the resolver section 4.1 names for each keyword *)
Definition route (schema : value) (opts : options) (resolve : value -> M rule)
    (keyword : string) (node : value) : M rule :=
  if String.eqb keyword "type" then resolvetype opts resolve node
  else if String.eqb keyword "anyOf" then resolveAnyOf resolve node
  else if String.eqb keyword "allOf" then resolveAllOf schema opts resolve node
  else if String.eqb keyword "oneOf" then resolveOneOf resolve node
  else if String.eqb keyword "not" then resolveNot resolve node
  else if String.eqb keyword "$ref" then
    ref <- get node "$ref" ;; fragment <- resolveref schema opts ref ;; resolve fragment
  else
    enum <- get node "enum" ;; ret Joi.any.(Joi.valid enum).

(** the string shorthand: the node is treated as [{type: node}] *)
Definition shorthand (opts : options) (resolve : value -> M rule) (node : value) : M rule :=
  wrapped <- alloc (Object [("type", node)]) ;; resolvetype opts resolve wrapped.

(** a value whose properties can be read: anything but [undefined] and [null] *)
Definition readable (v : value) : bool :=
  match v with VUndef | VNull => false | _ => true end.

(** The error kinds of section 7, as the failed assertions they are. *)
Definition ShapeError (keyword : string) : error :=
  AssertionError
    (if String.eqb keyword "anyOf" then expected_anyOf
     else if String.eqb keyword "not" then expected_not
     else expected_allOf) None.

Definition MergeTypeError : error := AssertionError expected_allOf_item None.

Definition ReferenceError (ref : string) : error :=
  AssertionError (can_not_find ref) None.

(** the type test of the merge engine: an [array] or [object] type equal
    to the type of the first member *)
Definition mergeable (first type : value) : bool :=
  (is_str type "array" || is_str type "object") && strict_equal first type.

(** the types of the members of an [allOf] can be merged: they are all
    the same, [array] or [object] *)
Definition mergeable_types (types : list value) : Prop :=
  exists t, (t = VStr "array" \/ t = VStr "object") /\ Forall (fun t' => t' = t) types.

(** a union of property maps in which later maps win *)
Definition later_wins (maps : list (list (string * value))) (k : string) : option value :=
  fold_left (fun found ps => match assoc k ps with Some v => Some v | None => found end)
            maps None.

(** the properties and the required list a schema node declares *)
Definition properties_of (h : heap) (node : value) : list (string * value) :=
  own_props h (lookup_prop h node "properties").

Definition required_of (h : heap) (node : value) : list value :=
  default [] (elements h (lookup_prop h node "required")).

(** an object schema, for the merge: a node whose [required], when it has
    one, is a list *)
Definition object_schema (h : heap) (node : value) : Prop :=
  readable node = true /\
  (truthy (lookup_prop h node "required") = true ->
   isArray h (lookup_prop h node "required") = true).

(** a key is listed in a required list *)
Definition listed (key : string) (required : list value) : bool :=
  existsb (fun v => is_str v key) required.

(** the alternation at the bottom of a chain of calls *)
Fixpoint alternatives_of (r : rule) : option (list rule) :=
  match r with
  | Joi.alternatives schemas => schemas
  | Joi.call r' _ => alternatives_of r'
  | _ => None
  end.

(** What the translator needs of the validation the target library runs:
    [any] accepts everything, and a conditional rule is its [then] rule on
    the inputs its condition accepts and its [otherwise] rule on the others. *)
Class Validation (input : Type) := {
  accepts : rule -> input -> bool;
  accepts_any : forall x, accepts Joi.any x = true;
  accepts_when : forall base condition then_ otherwise x,
    accepts (Joi.when base condition then_ otherwise) x =
    if accepts condition x then accepts then_ x else accepts otherwise x
}.

(** A small validation, for examples: presence, type and alternation
    checks only. *)
Fixpoint sample_accepts (r : rule) (x : value) : bool :=
  match r with
  | Joi.any => true
  | Joi.string => match x with VStr _ | VUndef => true | _ => false end
  | Joi.number => match x with VNum _ | VUndef => true | _ => false end
  | Joi.boolean => match x with VBool _ | VUndef => true | _ => false end
  | Joi.call r' Joi.forbidden => isUndefined x
  | Joi.call r' Joi.required => negb (isUndefined x) && sample_accepts r' x
  | Joi.call r' _ => sample_accepts r' x
  | Joi.try _ schemas => existsb (fun s => sample_accepts s x) schemas
  | Joi.alternatives (Some schemas) => existsb (fun s => sample_accepts s x) schemas
  | Joi.when _ condition then_ otherwise =>
      if sample_accepts condition x then sample_accepts then_ x
      else sample_accepts otherwise x
  | _ => true
  end.

#[export] Instance sample_validation : Validation value := {|
  accepts := sample_accepts;
  accepts_any := fun _ => eq_refl;
  accepts_when := fun _ _ _ _ _ => eq_refl
|}.

(** The store a resolution leaves, against the store it started in: a
    node is kept when its cell is the same, or the same with [minLength: 0]
    added where [minLength] was undefined. *)
Definition gains_minLength (c c' : cell) : Prop :=
  exists ps,
    c = Object ps /\
    isUndefined (default VUndef (assoc "minLength" ps)) = true /\
    c' = Object (put "minLength" (VNum (of_nat 0)) ps).

Definition nodes_kept (h h' : heap) : Prop :=
  forall l c, h !! l = Some c ->
    exists c', h' !! l = Some c' /\ (c' = c \/ gains_minLength c c').

Definition nodes_unchanged (h h' : heap) : Prop :=
  forall l c, h !! l = Some c -> h' !! l = Some c.

(** [own] is a rule the schema under [key] of the properties [properties]
    resolves to, in a store [h] has become *)
Definition resolves_to (schema : value) (opts : options) (fuel : nat)
    (h : heap) (properties : value) (key : string) (own : rule) : Prop :=
  exists h1 h2 w,
    nodes_kept h h1 /\
    resolve schema opts fuel (lookup_prop h1 properties key) h1 = (Ok own, h2, w).

(** the child rule of a property: its own rule, made required when the key
    is listed *)
Definition child_rule (key : string) (required : list value) (own : rule) : rule :=
  if listed key required then own.(Joi.required) else own.

(** A computation stays within [R] and throws only errors in [E]. *)
Definition sat {A} (R : heap -> heap -> Prop) (E : error -> Prop) (m : M A) : Prop :=
  forall h, R h (m h).1.2 /\ forall e, (m h).1.1 = Throw e -> E e.

(** A computation only reads the store. *)
Definition reads {A} (m : M A) : Prop :=
  forall h, (m h).1.2 = h /\ (m h).2 = [].

(** ** Vocabulary for the reference resolver *)

(** a character occurs in a string *)
Fixpoint has_char (c : ascii) (s : string) : bool :=
  match s with
  | EmptyString => false
  | String b s' => Ascii.eqb b c || has_char c s'
  end.

(** the fragment path that names the keys [ks] one after the other:
    ["/k1/k2/..."] *)
Definition pointer (ks : list string) : string :=
  fold_right (fun k rest => String "/" (k +:+ rest)) "" ks.

(** the value under the keys [ks], read one after the other from [v] *)
Definition follow (h : heap) (ks : list string) (v : value) : value :=
  fold_left (lookup_prop h) ks v.

(** every value a key of [ks] is read from is an object or an array *)
Fixpoint objects_along (h : heap) (ks : list string) (v : value) : Prop :=
  match ks with
  | [] => True
  | k :: ks' => isObject v = true /\ objects_along h ks' (lookup_prop h v k)
  end.

(** the registry, when there is one, has no schema under the id of the
    root document, ["#"] or [""] *)
Definition no_local_entry (h : heap) (opts : options) : Prop :=
  truthy (subSchemas opts) = true ->
  truthy (lookup_prop h (subSchemas opts) "#") = false
  /\ truthy (lookup_prop h (subSchemas opts) "") = false.

(** the schema the registry has for an id: the one under the id with its
    ["#"], or else the one under the id alone; [undefined] without a
    registry *)
Definition registered (h : heap) (opts : options) (id : string) : value :=
  if truthy (subSchemas opts) then
    if truthy (lookup_prop h (subSchemas opts) (id +:+ "#"))
    then lookup_prop h (subSchemas opts) (id +:+ "#")
    else lookup_prop h (subSchemas opts) id
  else VUndef.

(** the document a reference with the id [id] is read in: the registered
    schema, or the root schema when there is none *)
Definition referent (h : heap) (opts : options) (schema : value) (id : string) : value :=
  if truthy (registered h opts id) then registered h opts id else schema.

(** the names an object inherits from [Object.prototype] *)
Definition Object_prototype : list string :=
  ["constructor"; "__defineGetter__"; "__defineSetter__"; "hasOwnProperty";
   "__lookupGetter__"; "__lookupSetter__"; "isPrototypeOf";
   "propertyIsEnumerable"; "toString"; "valueOf"; "__proto__";
   "toLocaleString"].

(** Reading [v[k]] finds an own property of [v] or nothing, so that
    [lookup_prop] gives its value: [v] is an object and [k] is one of its
    own keys or none of the names it inherits, or [v] is an array and [k]
    is one of its indices or [length]. *)
Definition own_or_absent (h : heap) (v : value) (k : string) : bool :=
  match v with
  | VRef l =>
      match cell_at h l with
      | Object ps => has_key k ps || negb (existsb (String.eqb k) Object_prototype)
      | Array vs => has_key k (indexed vs) || String.eqb k "length"
      end
  | _ => false
  end.

(** every key of [ks] is read from an object or an array that has it as
    an own property, or an object that has no property of that name *)
Fixpoint plain_along (h : heap) (ks : list string) (v : value) : Prop :=
  match ks with
  | [] => True
  | k :: ks' => own_or_absent h v k = true /\ plain_along h ks' (lookup_prop h v k)
  end.

(** the same for the reads of the loop of [resolveref], which stops at
    the first value that is falsy or not an object *)
Fixpoint walk_plain (h : heap) (paths : list string) (fragment : value) : bool :=
  match paths with
  | [] => true
  | p :: paths' =>
      if truthy fragment && typeof_object fragment
      then own_or_absent h fragment p && walk_plain h paths' (lookup_prop h fragment p)
      else true
  end.

(** and for the reads of the registry, under the id and under the id
    without its last character *)
Definition registry_plain (h : heap) (opts : options) (id : string) : bool :=
  if truthy (VStr id) && truthy (subSchemas opts) then
    own_or_absent h (subSchemas opts) id
    && (truthy (lookup_prop h (subSchemas opts) id)
        || own_or_absent h (subSchemas opts)
             (String.substring 0 (String.length id - 1) id))
  else true.

(** every name [resolveref] reads for the reference [s] is own or absent
    where it is read *)
Definition resolveref_plain (schema : value) (opts : options) (h : heap) (s : string)
  : bool :=
  let n := match indexOf s "#" with Some i => i + 1 | None => 0 end in
  let id := String.substring 0 n s in
  let path := substr_from s n in
  let found :=
    if truthy (VStr id) && truthy (subSchemas opts) then
      if truthy (lookup_prop h (subSchemas opts) id)
      then lookup_prop h (subSchemas opts) id
      else lookup_prop h (subSchemas opts)
             (String.substring 0 (String.length id - 1) id)
    else VUndef in
  registry_plain h opts id
  && walk_plain h (tail (split "/" path)) (if truthy found then found else schema).

(** ** Vocabulary for the depth of the recursion *)

(** [m2] does what [m1] does wherever [m1] does not run out of fuel *)
Definition refines {A} (m1 m2 : M A) : Prop :=
  forall h, (m1 h).1.1 <> Timeout -> m2 h = m1 h.

(** [node] is resolved by resolving [node']: nothing before [$ref]
    matches on it, and its [$ref] leads to [node'] *)
Definition ref_step (schema : value) (opts : options) (h : heap)
    (node node' : value) : Prop :=
  readable node = true
  /\ first_match h node = Some "$ref"
  /\ resolveref schema opts (lookup_prop h node "$ref") h = (Ok node', h, []).

(** ** Vocabulary for errors and types *)

(** the type names [joitype] has a builder for *)
Definition builtin_type (type : value) : bool :=
  is_str type "array" || is_str type "boolean" || is_str type "integer"
  || is_str type "number" || is_str type "object" || is_str type "string"
  || is_str type "null".

(** the calls chained on a rule, the last one first *)
Fixpoint chain (r : rule) : list Joi.method :=
  match r with
  | Joi.call r' m => m :: chain r'
  | _ => []
  end.

(** the decorations [resolvetype] adds to a rule *)
Definition decorate (current : value) (joischema : rule) : M rule :=
  foldM (fun joischema entry => if_truthy current entry.1 entry.2 joischema)
        typeDefinitionMap joischema.

(** ** Vocabulary for the merge of arrays and for cycles *)

(** what a member of an [allOf] of arrays gives to the merged [items]: the
    elements of its [items] when that is a list, and otherwise its [items]
    as one entry, also when it has none *)
Definition items_of (h : heap) (item : value) : list value :=
  match elements h (lookup_prop h item "items") with
  | Some vs => vs
  | None => [lookup_prop h item "items"]
  end.

(** and to the merged [ordered]: its [ordered] list when its [items] is a
    list, nothing otherwise *)
Definition ordered_of (h : heap) (item : value) : list value :=
  match elements h (lookup_prop h item "items") with
  | Some _ =>
      if truthy (lookup_prop h item "ordered")
      then match elements h (lookup_prop h item "ordered") with
           | Some vs => vs
           | None => [lookup_prop h item "ordered"]
           end
      else []
  | None => []
  end.

(** From the cell [l], following values of cells, a cell is reached that is
    on the path already ([inside] lists the cells above [l]): the store
    has a cycle below [l]. *)
Inductive loops_back (h : heap) : list loc -> loc -> Prop :=
| loops_here inside l : l ∈ inside -> loops_back h inside l
| loops_below inside l k l' :
    In (k, VRef l') (own_props h (VRef l)) ->
    loops_back h (l :: inside) l' ->
    loops_back h inside l.

(** ** Vocabulary for the type builders *)

(** the store once [minLength: 0] is written on a node without a
    [minLength] *)
Definition with_default (h : heap) (node : value) : heap :=
  match node with
  | VRef l =>
      match h !! l with
      | Some (Object ps) =>
          if isUndefined (default VUndef (assoc "minLength" ps))
          then <[l := Object (put "minLength" (VNum (of_nat 0)) ps)]> h
          else h
      | _ => h
      end
  | _ => h
  end.

(** a string schema read as a regular string: it has no [enum], and its
    format is none of the date and binary ones *)
Definition regular (h : heap) (node : value) : bool :=
  negb (truthy (lookup_prop h node "enum"))
  && negb (is_str (lookup_prop h node "format") "date"
           || is_str (lookup_prop h node "format") "date-time"
           || is_str (lookup_prop h node "format") "binary").

(** a rule with [description], [label] and [default] called on it, in
    this order, each for a truthy value of the node only *)
Definition decorated (h : heap) (current : value) (joischema : rule) : rule :=
  let joischema :=
    if truthy (lookup_prop h current "description")
    then joischema.(Joi.description (lookup_prop h current "description"))
    else joischema in
  let joischema :=
    if truthy (lookup_prop h current "title")
    then joischema.(Joi.label (lookup_prop h current "title"))
    else joischema in
  if truthy (lookup_prop h current "default")
  then joischema.(Joi.default (lookup_prop h current "default"))
  else joischema.

(** a rule is [base], or [base] with further calls chained on it *)
Fixpoint built_on (base r : rule) : Prop :=
  r = base
  \/ match r with
     | Joi.call r' _ => built_on base r'
     | _ => False
     end.

(** the keys an object rule was made with: the argument of the
    [Joi.object] it starts from *)
Fixpoint object_keys (r : rule) : option (option (list (string * rule))) :=
  match r with
  | Joi.object schemas => Some schemas
  | Joi.call r' _ => object_keys r'
  | Joi.pattern r' _ _ => object_keys r'
  | _ => None
  end.

(** the rule a chain of calls starts from *)
Fixpoint base (r : rule) : rule :=
  match r with
  | Joi.call r' _ => base r'
  | _ => r
  end.

(** the calls the number builder chains *)
Definition number_call (m : Joi.method) : Prop :=
  match m with
  | Joi.integer | Joi.min _ | Joi.max _ | Joi.greater _ | Joi.less _
  | Joi.multiple _ => True
  | _ => False
  end.

(** ** Vocabulary for resolving again *)

(** The store [h] with the nodes of [h0] as [h1] has them: the nodes a
    resolution started with, in the state it left them in, followed by
    the nodes of [h] that came after them. *)
Definition graft (h0 h1 h : heap) : heap :=
  take (length h0) h1 ++ drop (length h0) h.

(** [h'] is [h] but for defaults written into its nodes *)
Definition defaults_apart (h h' : heap) : Prop :=
  nodes_kept h h' /\ length h' = length h.

(** The callbacks of the caller do not look at the defaults the translator
    writes: they give the same in two stores that differ by written
    defaults only. *)
Definition callbacks_ignore_defaults (opts : options) : Prop :=
  (forall table, types opts = Some table ->
     forall h h' t, defaults_apart h h' -> table h' t = table h t)
  /\ (forall refine, refineType opts = Some refine ->
        forall h h' t f, defaults_apart h h' -> refine h' t f = refine h t f).

(** In [h1] no node of [h0] that is the [properties] of a node has got a
    [minLength] it did not have in [h0]. *)
Definition property_maps_kept (h0 h1 : heap) : bool :=
  forallb (fun c =>
             match c with
             | Object ps =>
                 match assoc "properties" ps with
                 | Some (VRef lp) =>
                     Nat.leb (length h0) lp
                     || negb (isUndefined (lookup_prop h0 (VRef lp) "minLength"))
                     || isUndefined (lookup_prop h1 (VRef lp) "minLength")
                 | _ => true
                 end
             | Array _ => true
             end) h1.

(** [v'] is what is read where [v] was read before defaults were written *)
Definition or_default (v v' : value) : Prop :=
  v' = v \/ (v = VUndef /\ v' = VNum (of_nat 0)).

(** A computation that returned between [h0] and [h1] returns the same
    again, store included, when it is started where the nodes of [h0] are
    as in [h1] already; [Q] is what is known of its arguments. *)
Definition again (h0 h1 : heap) (Q : Prop) {A} (m : M A) : Prop :=
  forall h a h' w, m h = (Ok a, h', w) ->
    nodes_kept h h' /\
    (Q -> nodes_kept h0 h -> nodes_kept h' h1 ->
     m (graft h0 h1 h) = (Ok a, graft h0 h1 h', w)).

(** a properties map that is in [h1] as it is in [h0] *)
Definition stable (h0 h1 : heap) (x : value) : Prop :=
  forall lp, x = VRef lp -> lp < length h0 -> h1 !! lp = h0 !! lp.

(** * Properties *)

(** ** Property maps *)

Section PropsFacts.
Context {A : Type}.
Implicit Type ps : list (string * A).

Lemma assoc_replace k k' a ps :
  has_key k' ps = true ->
  assoc k (replace k' a ps) = if String.eqb k' k then Some a else assoc k ps.
Proof.
  unfold has_key. induction ps as [|[k0 a0] ps IH]; simpl; [discriminate|].
  destruct (String.eqb k0 k') eqn:E0; simpl.
  - apply String.eqb_eq in E0. subst k0. intros _.
    destruct (String.eqb k' k); reflexivity.
  - intros H. destruct (String.eqb k0 k) eqn:E1.
    + apply String.eqb_eq in E1. subst k0.
      rewrite (String.eqb_sym k' k), E0. reflexivity.
    + apply IH, H.
Qed.

Lemma assoc_insert_index n k k' a ps :
  has_key k' ps = false ->
  assoc k (insert_index n k' a ps) = if String.eqb k' k then Some a else assoc k ps.
Proof.
  unfold has_key. induction ps as [|[k0 a0] ps IH]; simpl.
  - intros _. destruct (String.eqb k' k); reflexivity.
  - destruct (String.eqb k0 k') eqn:E0; [discriminate|]. intros H.
    destruct (array_index k0) as [n'|]; [destruct (n <? n')%N|]; simpl;
      try reflexivity.
    destruct (String.eqb k0 k) eqn:E1.
    + apply String.eqb_eq in E1. subst k0.
      rewrite (String.eqb_sym k' k), E0. reflexivity.
    + apply IH, H.
Qed.

Lemma assoc_app_new k k' a ps :
  has_key k' ps = false ->
  assoc k (ps ++ [(k', a)]) = if String.eqb k' k then Some a else assoc k ps.
Proof.
  unfold has_key. induction ps as [|[k0 a0] ps IH]; simpl.
  - intros _. destruct (String.eqb k' k); reflexivity.
  - destruct (String.eqb k0 k') eqn:E0; [discriminate|]. intros H.
    destruct (String.eqb k0 k) eqn:E1.
    + apply String.eqb_eq in E1. subst k0.
      rewrite (String.eqb_sym k' k), E0. reflexivity.
    + apply IH, H.
Qed.

(** reading back after the definition of [k'] *)
Lemma assoc_define k k' a ps :
  assoc k (define k' a ps) = if String.eqb k' k then Some a else assoc k ps.
Proof.
  unfold define. destruct (has_key k' ps) eqn:H.
  - apply assoc_replace, H.
  - destruct (array_index k'); [apply assoc_insert_index|apply assoc_app_new];
      exact H.
Qed.

(** an assignment defines the key, unless it is the inherited
    ["__proto__"] *)
Lemma put_define k a ps :
  String.eqb k "__proto__" = false -> put k a ps = define k a ps.
Proof.
  intros Hk. unfold put, define. rewrite Hk.
  destruct (has_key k ps); reflexivity.
Qed.

Lemma put_proto a ps :
  has_key "__proto__" ps = false -> put "__proto__" a ps = ps.
Proof. intros H. unfold put. rewrite H. reflexivity. Qed.

(** reading back after [o[k'] = a] *)
Lemma assoc_put k k' a ps :
  String.eqb k' "__proto__" = false ->
  assoc k (put k' a ps) = if String.eqb k' k then Some a else assoc k ps.
Proof. intros Hk. rewrite (put_define k' a ps Hk). apply assoc_define. Qed.

Lemma assoc_put_eq k a ps :
  String.eqb k "__proto__" = false -> assoc k (put k a ps) = Some a.
Proof. intros Hk. rewrite (assoc_put k k a ps Hk), String.eqb_refl. reflexivity. Qed.

Lemma assoc_put_ne k k' a ps : k' <> k -> assoc k (put k' a ps) = assoc k ps.
Proof.
  intros H. unfold put. destruct (has_key k' ps) eqn:Hown.
  - rewrite (assoc_replace k k' a ps Hown).
    destruct (String.eqb k' k) eqn:E; [apply String.eqb_eq in E; contradiction|].
    reflexivity.
  - destruct (String.eqb k' "__proto__"); [reflexivity|].
    rewrite assoc_define.
    destruct (String.eqb k' k) eqn:E; [apply String.eqb_eq in E; contradiction|].
    reflexivity.
Qed.
End PropsFacts.

(** ** Running computations *)

Lemma bind_Ok {A B} (m : M A) (f : A -> M B) h a h1 w1 :
  m h = (Ok a, h1, w1) ->
  bind m f h = ((f a h1).1.1, (f a h1).1.2, w1 ++ (f a h1).2).
Proof. unfold bind. intros ->. destruct (f a h1) as [[o h2] w2]. reflexivity. Qed.

Lemma bind_Throw {A B} (m : M A) (f : A -> M B) h e h1 w1 :
  m h = (Throw e, h1, w1) -> bind m f h = (Throw e, h1, w1).
Proof. unfold bind. intros ->. reflexivity. Qed.

Lemma bind_Timeout {A B} (m : M A) (f : A -> M B) h h1 w1 :
  m h = (Timeout, h1, w1) -> bind m f h = (Timeout, h1, w1).
Proof. unfold bind. intros ->. reflexivity. Qed.

(** a bind that returns has run both halves *)
Lemma bind_inv_Ok {A B} (m : M A) (f : A -> M B) h b h2 w :
  bind m f h = (Ok b, h2, w) ->
  exists a h1 w1 w2,
    m h = (Ok a, h1, w1) /\ f a h1 = (Ok b, h2, w2) /\ w = w1 ++ w2.
Proof.
  unfold bind. destruct (m h) as [[[a|e|] h1] w1]; try discriminate.
  destruct (f a h1) as [[o h2'] w2] eqn:Hf. intros [= -> -> <-].
  exists a, h1, w1, w2. auto.
Qed.

Lemma bind_unfold {A B} (m : M A) (f : A -> M B) h :
  bind m f h =
  match m h with
  | (Ok a, h1, w1) => match f a h1 with (o, h2, w2) => (o, h2, w1 ++ w2) end
  | (Throw e, h1, w1) => (Throw e, h1, w1)
  | (Timeout, h1, w1) => (Timeout, h1, w1)
  end.
Proof. reflexivity. Qed.

(** a read in a bind *)
Lemma bind_reads {A B} (m : M A) (f : A -> M B) h a :
  m h = (Ok a, h, []) -> bind m f h = f a h.
Proof. unfold bind. intros ->. destruct (f a h) as [[o h2] w2]. reflexivity. Qed.

Lemma get_readable v k h :
  readable v = true -> get v k h = (Ok (lookup_prop h v k), h, []).
Proof. destruct v; try discriminate; reflexivity. Qed.

Lemma bind_get {B} v k (f : value -> M B) h :
  readable v = true -> bind (get v k) f h = f (lookup_prop h v k) h.
Proof. intros H. apply bind_reads, get_readable, H. Qed.

Lemma bind_read {A B} (g : heap -> A) (f : A -> M B) h :
  bind (read g) f h = f (g h) h.
Proof. apply bind_reads. reflexivity. Qed.

Lemma bind_ret {A B} (a : A) (f : A -> M B) h : bind (ret a) f h = f a h.
Proof. apply bind_reads. reflexivity. Qed.

(** ** What every computation of the translator keeps

    One induction over the translator serves every property of the form
    "the store stays within [R] and only errors in [E] are thrown": the
    rules for the primitives, then one lemma for each function. *)

Section Sat.
Local Set Default Proof Using "All".

Variable R : heap -> heap -> Prop.
Variable E : error -> Prop.
Variable schema : value.
Variable opts : options.

Hypothesis R_refl : forall h, R h h.
Hypothesis R_trans : forall h1 h2 h3, R h1 h2 -> R h2 h3 -> R h1 h3.
Hypothesis R_alloc : forall h c, R h (h ++ [c]).
Hypothesis R_default : forall (h : heap) l ps,
  h !! l = Some (Object ps) ->
  isUndefined (default VUndef (assoc "minLength" ps)) = true ->
  R h (<[l := Object (put "minLength" (VNum (of_nat 0)) ps)]> h).
Hypothesis E_TypeError : E TypeError.
Hypothesis E_shape : forall keyword, E (ShapeError keyword).
Hypothesis E_merge : E MergeTypeError.
Hypothesis E_type : forall v, E (AssertionError could_not_resolve (Some v)).
Hypothesis E_ref : truthy schema = false -> forall ref, E (ReferenceError ref).

Lemma sat_ret {A} (a : A) : sat R E (ret a).
Proof. intros h. simpl. split; [apply R_refl|discriminate]. Qed.

Lemma sat_read {A} (f : heap -> A) : sat R E (read f).
Proof. intros h. simpl. split; [apply R_refl|discriminate]. Qed.

Lemma sat_timeout {A} : sat R E (@timeout A).
Proof. intros h. simpl. split; [apply R_refl|discriminate]. Qed.

Lemma sat_throw {A} e : E e -> sat R E (@throw A e).
Proof. intros He h. simpl. split; [apply R_refl|]. intros e' [= <-]. exact He. Qed.

Lemma sat_assert c e : (c = false -> E e) -> sat R E (assert c e).
Proof. destruct c; intros H; [apply sat_ret|apply sat_throw; auto]. Qed.

Lemma sat_get v k : sat R E (get v k).
Proof. destruct v; first [apply sat_read|apply sat_throw, E_TypeError]. Qed.

Lemma sat_alloc c : sat R E (alloc c).
Proof. intros h. simpl. split; [apply R_alloc|discriminate]. Qed.

Lemma sat_warn v : sat R E (warn v).
Proof.
  intros h. unfold warn. destruct (stringifiable h v); simpl;
    (split; [apply R_refl|]); [discriminate|].
  intros e [= <-]. exact E_TypeError.
Qed.

Lemma sat_bind {A B} (m : M A) (f : A -> M B) :
  sat R E m -> (forall a, sat R E (f a)) -> sat R E (bind m f).
Proof.
  intros Hm Hf h. specialize (Hm h). unfold bind.
  destruct (m h) as [[[a|e|] h1] w1]; simpl in *.
  - specialize (Hf a h1). destruct (f a h1) as [[o h2] w2]; simpl in *.
    destruct Hm as [Hm _], Hf as [Hf1 Hf2]. split; [|exact Hf2].
    eapply R_trans; eassumption.
  - destruct Hm as [Hm1 Hm2]. split; [exact Hm1|].
    intros e' [= <-]. apply Hm2. reflexivity.
  - split; [apply Hm|discriminate].
Qed.

Ltac sat_prim :=
  match goal with
  | |- sat _ _ (bind _ _) => apply sat_bind; [|intros ?]
  | |- sat _ _ (ret _) => apply sat_ret
  | |- sat _ _ (read _) => apply sat_read
  | |- sat _ _ (get _ _) => apply sat_get
  | |- sat _ _ (alloc _) => apply sat_alloc
  | |- sat _ _ (throw _) => apply sat_throw
  | |- sat _ _ timeout => apply sat_timeout
  | |- sat _ _ (warn _) => apply sat_warn
  | |- sat _ _ (assert _ _) => apply sat_assert; intros ?
  | |- sat _ _ (if ?b then _ else _) => destruct b eqn:?
  | |- sat _ _ (match ?x with _ => _ end) => destruct x eqn:?
  end.

Lemma sat_mapM {A B} (f : A -> M B) l :
  (forall a, sat R E (f a)) -> sat R E (mapM f l).
Proof.
  intros Hf. induction l as [|a l IH]; simpl; [apply sat_ret|].
  repeat sat_prim; auto.
Qed.

Lemma sat_foldM {A B} (f : B -> A -> M B) l acc :
  (forall acc a, sat R E (f acc a)) -> sat R E (foldM f l acc).
Proof.
  intros Hf. revert acc. induction l as [|a l IH]; intros acc; simpl;
    [apply sat_ret|].
  repeat sat_prim; auto.
Qed.

Ltac sat_step :=
  first
    [ sat_prim
    | match goal with
      | |- sat _ _ (mapM _ _) => apply sat_mapM; intros ?
      | |- sat _ _ (foldM _ _ _) => apply sat_foldM; intros ? ?
      end ].

Lemma sat_default_minLength current : sat R E (default_minLength current).
Proof.
  unfold default_minLength. intros h. destruct (readable current) eqn:Hr.
  - rewrite bind_get by exact Hr.
    destruct (isUndefined (lookup_prop h current "minLength")) eqn:Hu;
      [|split; [apply R_refl|discriminate]].
    destruct current as [| | | | |l];
      try (split; [apply R_refl|intros e [= <-]; exact E_TypeError]).
    unfold set. unfold lookup_prop, cell_at in Hu.
    destruct (h !! l) as [[ps|vs]|] eqn:Hl; simpl;
      try (split; [apply R_refl|intros e [= <-]; exact E_TypeError]).
    split; [|discriminate]. apply R_default; assumption.
  - destruct current; try discriminate;
      (split; [apply R_refl|intros e [= <-]; exact E_TypeError]).
Qed.

(** *** The reference resolver and the merge engine *)

Lemma sat_walk paths fragment : sat R E (walk paths fragment).
Proof.
  revert fragment. induction paths as [|p paths IH]; intros fragment; simpl;
    repeat sat_step; auto using sat_get.
Qed.

Lemma sat_lookup_registry id : sat R E (lookup_registry opts id).
Proof. unfold lookup_registry. repeat sat_step. Qed.

Lemma sat_resolveref ref : sat R E (resolveref schema opts ref).
Proof.
  unfold resolveref. destruct ref; try (apply sat_throw, E_TypeError).
  cbv zeta. apply sat_bind; [apply sat_lookup_registry|]. intros found.
  apply sat_bind; [|intros _; apply sat_walk].
  apply sat_assert. destruct (truthy found) eqn:Hf; intros H;
    [congruence|]. apply E_ref, H.
Qed.

Lemma sat_getSchemaType current : sat R E (getSchemaType schema opts current).
Proof.
  unfold getSchemaType. repeat sat_step. apply sat_resolveref.
Qed.

Lemma sat_deref item : sat R E (deref schema opts item).
Proof. unfold deref. repeat sat_step. apply sat_resolveref. Qed.

Lemma sat_array_or_undefined vs : sat R E (array_or_undefined vs).
Proof. unfold array_or_undefined. repeat sat_step. Qed.

Lemma sat_mergeObject current : sat R E (mergeObject schema opts current).
Proof.
  unfold mergeObject, mergeObject_step. repeat sat_step;
    auto using sat_deref, sat_array_or_undefined.
Qed.

Lemma sat_mergeArray current : sat R E (mergeArray schema opts current).
Proof.
  unfold mergeArray, mergeArray_step. repeat sat_step;
    auto using sat_deref, sat_array_or_undefined.
Qed.

(** *** The type builders and the dispatcher, given the recursive call *)

Section SatResolvers.
Variable resolve : value -> M rule.
Hypothesis sat_rec : forall v, sat R E (resolve v).

Lemma sat_indexOf_found required key : sat R E (indexOf_found required key).
Proof. unfold indexOf_found. repeat sat_step; auto. Qed.

Lemma sat_resolveAsArray v : sat R E (resolveAsArray resolve v).
Proof. unfold resolveAsArray. repeat sat_step; auto. Qed.

Lemma sat_if_number current key method joischema :
  sat R E (if_number current key method joischema).
Proof. unfold if_number. repeat sat_step. Qed.

Lemma sat_if_truthy current key method joischema :
  sat R E (if_truthy current key method joischema).
Proof. unfold if_truthy. repeat sat_step. Qed.

Lemma sat_resolveproperties current : sat R E (resolveproperties resolve current).
Proof.
  unfold resolveproperties, resolveproperty.
  repeat sat_step; auto using sat_indexOf_found.
Qed.

Lemma sat_object current : sat R E (object resolve current).
Proof.
  unfold object.
  repeat sat_step; auto using sat_resolveproperties, sat_if_number.
Qed.

Lemma sat_array current : sat R E (array resolve current).
Proof.
  unfold array.
  repeat sat_step; auto using sat_resolveAsArray, sat_if_number.
Qed.

Lemma sat_number current : sat R E (number current).
Proof. unfold number. repeat sat_step; auto using sat_if_number. Qed.

Lemma sat_regularString current joischema :
  sat R E (regularString current joischema).
Proof.
  unfold regularString.
  repeat sat_step;
    auto using sat_if_number, sat_if_truthy, sat_default_minLength.
Qed.

Lemma sat_date current : sat R E (date current).
Proof. unfold date. repeat sat_step; auto using sat_if_truthy. Qed.

Lemma sat_binary current : sat R E (binary current).
Proof. unfold binary. repeat sat_step; auto using sat_if_truthy. Qed.

Lemma sat_string current : sat R E (string_ current).
Proof.
  unfold string_.
  repeat sat_step; auto using sat_date, sat_binary, sat_regularString.
Qed.

Lemma sat_builder current type : sat R E (builder opts resolve current type).
Proof.
  unfold builder.
  repeat sat_step;
    auto using sat_array, sat_number, sat_object, sat_string.
Qed.

Lemma sat_joitype current type format :
  sat R E (joitype opts resolve current type format).
Proof. unfold joitype. repeat sat_step; auto using sat_builder. Qed.

Lemma sat_resolvetype current : sat R E (resolvetype opts resolve current).
Proof.
  unfold resolvetype.
  repeat sat_step; auto using sat_joitype, sat_if_truthy.
Qed.

Lemma sat_expect_array current key :
  sat R E (expect_array current key
             (if String.eqb key "anyOf" then expected_anyOf
              else if String.eqb key "not" then expected_not
              else expected_allOf)).
Proof. unfold expect_array. repeat sat_step. apply (E_shape key). Qed.

Lemma sat_resolveAnyOf current : sat R E (resolveAnyOf resolve current).
Proof.
  unfold resolveAnyOf.
  apply sat_bind; [apply (sat_expect_array current "anyOf")|intros ?].
  repeat sat_step; auto.
Qed.

Lemma sat_resolveOneOf current : sat R E (resolveOneOf resolve current).
Proof.
  unfold resolveOneOf.
  apply sat_bind; [apply (sat_expect_array current "oneOf")|intros ?].
  repeat sat_step; auto.
Qed.

Lemma sat_resolveNot current : sat R E (resolveNot resolve current).
Proof.
  unfold resolveNot.
  apply sat_bind; [apply (sat_expect_array current "not")|intros ?].
  repeat sat_step; auto.
Qed.

Lemma sat_resolveAllOf current : sat R E (resolveAllOf schema opts resolve current).
Proof.
  unfold resolveAllOf.
  apply sat_bind; [apply (sat_expect_array current "allOf")|intros ?].
  repeat sat_step;
    auto using sat_getSchemaType, sat_mergeObject, sat_mergeArray.
Qed.

Lemma sat_resolve_body current : sat R E (resolve_body schema opts resolve current).
Proof.
  unfold resolve_body.
  repeat sat_step;
    auto using sat_resolvetype, sat_resolveAnyOf, sat_resolveAllOf,
      sat_resolveOneOf, sat_resolveNot, sat_resolveref.
Qed.
End SatResolvers.

Lemma sat_resolve fuel current : sat R E (resolve schema opts fuel current).
Proof.
  revert current. induction fuel as [|fuel IH]; intros current; simpl.
  - apply sat_timeout.
  - apply sat_resolve_body, IH.
Qed.

End Sat.

(** ** The store after a resolution *)

Lemma gains_minLength_once c c' c'' :
  gains_minLength c c' -> gains_minLength c' c'' -> False.
Proof.
  intros (ps & -> & _ & ->) (ps' & [= <-] & Hu & _).
  rewrite assoc_put_eq in Hu by reflexivity. discriminate.
Qed.

Lemma nodes_kept_refl h : nodes_kept h h.
Proof. intros l c Hl. exists c. auto. Qed.

Lemma nodes_kept_trans h1 h2 h3 :
  nodes_kept h1 h2 -> nodes_kept h2 h3 -> nodes_kept h1 h3.
Proof.
  intros H12 H23 l c Hl.
  destruct (H12 l c Hl) as (c2 & Hl2 & Hc2).
  destruct (H23 l c2 Hl2) as (c3 & Hl3 & Hc3).
  exists c3. split; [exact Hl3|].
  destruct Hc2 as [->|Hg]; [exact Hc3|].
  destruct Hc3 as [->|Hg']; [right; exact Hg|].
  destruct (gains_minLength_once _ _ _ Hg Hg').
Qed.

Lemma nodes_kept_alloc h c : nodes_kept h (h ++ [c]).
Proof.
  intros l c0 Hl. exists c0. split; [|auto].
  apply lookup_app_l_Some, Hl.
Qed.

Lemma nodes_kept_default (h : heap) l ps :
  h !! l = Some (Object ps) ->
  isUndefined (default VUndef (assoc "minLength" ps)) = true ->
  nodes_kept h (<[l := Object (put "minLength" (VNum (of_nat 0)) ps)]> h).
Proof.
  intros Hl Hu l' c Hl'. destruct (decide (l = l')) as [<-|Hne].
  - rewrite Hl in Hl'. injection Hl' as <-.
    exists (Object (put "minLength" (VNum (of_nat 0)) ps)). split.
    + apply list_lookup_insert_eq. eapply lookup_lt_Some, Hl.
    + right. exists ps. auto.
  - exists c. split; [|auto]. rewrite list_lookup_insert_ne; assumption.
Qed.

(** a resolution keeps every node of the store, whatever its outcome *)
Lemma resolve_keeps_nodes schema opts fuel current h :
  nodes_kept h (resolve schema opts fuel current h).1.2.
Proof.
  apply (sat_resolve nodes_kept (fun _ => True) schema opts
           nodes_kept_refl nodes_kept_trans nodes_kept_alloc nodes_kept_default);
    auto.
Qed.

(** what a kept node still answers: its cell when it is an array, any
    property but [minLength] when it is an object *)
Lemma nodes_kept_array h h' l vs :
  nodes_kept h h' -> h !! l = Some (Array vs) -> h' !! l = Some (Array vs).
Proof.
  intros Hk Hl. destruct (Hk l _ Hl) as (c' & Hl' & [->|(ps & [=] & _)]).
  exact Hl'.
Qed.

Lemma nodes_kept_object h h' l ps :
  nodes_kept h h' -> h !! l = Some (Object ps) ->
  exists ps', h' !! l = Some (Object ps') /\
    forall k, k <> "minLength" -> assoc k ps' = assoc k ps.
Proof.
  intros Hk Hl. destruct (Hk l _ Hl) as (c' & Hl' & [->|(ps0 & [= <-] & _ & ->)]).
  - exists ps. auto.
  - eexists. split; [exact Hl'|]. intros k Hne.
    apply assoc_put_ne. congruence.
Qed.

(** ** The dispatcher *)

(** [resolve] looks at one keyword after the other *)
Ltac next_keyword k Hr :=
  rewrite (bind_get _ k) by exact Hr; cbv beta;
  destruct (truthy (lookup_prop _ _ k)) eqn:?.

(** C1. [resolve] classifies a node by the first keyword, in the order
    type, anyOf, allOf, oneOf, not, $ref, enum, for which the node has a
    truthy value, and hands it to that keyword's resolver; a node that
    matches none is, when it is a string, resolved as [{type: node}], and
    otherwise warned about and given the accept-anything rule, without
    failing. The node is any value whose properties can be read, and in the
    last case one that [JSON.stringify] can print. *)
Theorem resolve_dispatch_order schema opts fuel node h :
  readable node = true ->
  (forall k, first_match h node = Some k ->
     resolve schema opts (S fuel) node h
     = route schema opts (resolve schema opts fuel) k node h)
  /\ (first_match h node = None -> (exists s, node = VStr s) ->
      resolve schema opts (S fuel) node h
      = shorthand opts (resolve schema opts fuel) node h)
  /\ (first_match h node = None -> (forall s, node <> VStr s) ->
      stringifiable h node = true ->
      resolve schema opts (S fuel) node h = (Ok Joi.any, h, [node])).
Proof.
  intros Hr. simpl resolve. unfold resolve_body, first_match, keywords.
  simpl find.
  next_keyword "type" Hr;
    [repeat split; [intros k [= <-]; reflexivity|discriminate..]|].
  next_keyword "anyOf" Hr;
    [repeat split; [intros k [= <-]; reflexivity|discriminate..]|].
  next_keyword "allOf" Hr;
    [repeat split; [intros k [= <-]; reflexivity|discriminate..]|].
  next_keyword "oneOf" Hr;
    [repeat split; [intros k [= <-]; reflexivity|discriminate..]|].
  next_keyword "not" Hr;
    [repeat split; [intros k [= <-]; reflexivity|discriminate..]|].
  next_keyword "$ref" Hr.
  { repeat split; [|discriminate..]. intros k [= <-]. unfold route. simpl.
    rewrite bind_get by exact Hr. reflexivity. }
  next_keyword "enum" Hr.
  { repeat split; [|discriminate..]. intros k [= <-]. unfold route. simpl.
    rewrite bind_get by exact Hr. reflexivity. }
  repeat split; [discriminate| |].
  - intros _ [s ->]. reflexivity.
  - intros _ Hs Hj. destruct node; try discriminate;
      try (unfold bind, warn; rewrite Hj; reflexivity).
    destruct (Hs s). reflexivity.
Qed.

Lemma resolve_dispatch_order_witness :
  readable (VRef 0) = true
  /\ first_match [Object [("foo", VStr "bar")]] (VRef 0) = None
  /\ resolve (VRef 0) no_options 1 (VRef 0) [Object [("foo", VStr "bar")]]
     = (Ok Joi.any, [Object [("foo", VStr "bar")]], [VRef 0]).
Proof.
  split; [reflexivity|]. split; [reflexivity|].
  apply (resolve_dispatch_order (VRef 0) no_options 0 (VRef 0)
           [Object [("foo", VStr "bar")]]);
    [reflexivity|reflexivity|intros s; discriminate|reflexivity].
Defined.

(** ** Computations that only read *)

Lemma reads_run {A} (m : M A) h : reads m -> m h = ((m h).1.1, h, []).
Proof.
  intros H. destruct (H h) as [H1 H2]. destruct (m h) as [[o h'] w].
  simpl in *. subst. reflexivity.
Qed.

Lemma reads_ret {A} (a : A) : reads (ret a).
Proof. intros h. split; reflexivity. Qed.

Lemma reads_read {A} (f : heap -> A) : reads (read f).
Proof. intros h. split; reflexivity. Qed.

Lemma reads_throw {A} e : reads (@throw A e).
Proof. intros h. split; reflexivity. Qed.

Lemma reads_get v k : reads (get v k).
Proof. destruct v; first [apply reads_read|apply reads_throw]. Qed.

Lemma reads_assert c e : reads (assert c e).
Proof. destruct c; [apply reads_ret|apply reads_throw]. Qed.

Lemma reads_bind {A B} (m : M A) (f : A -> M B) :
  reads m -> (forall a, reads (f a)) -> reads (bind m f).
Proof.
  intros Hm Hf h. unfold bind. rewrite (reads_run m h Hm).
  destruct ((m h).1.1) as [a| |]; [|split; reflexivity..].
  rewrite (reads_run (f a) h (Hf a)). split; reflexivity.
Qed.

Ltac reads_step :=
  match goal with
  | |- reads (bind _ _) => apply reads_bind; [|intros ?]
  | |- reads (ret _) => apply reads_ret
  | |- reads (read _) => apply reads_read
  | |- reads (get _ _) => apply reads_get
  | |- reads (throw _) => apply reads_throw
  | |- reads (assert _ _) => apply reads_assert
  | |- reads (if ?b then _ else _) => destruct b
  | |- reads (match ?x with _ => _ end) => destruct x
  end.

Lemma reads_mapM {A B} (f : A -> M B) l : (forall a, reads (f a)) -> reads (mapM f l).
Proof.
  intros Hf. induction l as [|a l IH]; simpl; repeat reads_step; auto.
Qed.

Lemma reads_walk paths fragment : reads (walk paths fragment).
Proof.
  revert fragment. induction paths as [|p paths IH]; intros fragment; simpl;
    repeat reads_step; auto.
Qed.

Lemma reads_resolveref schema opts ref : reads (resolveref schema opts ref).
Proof.
  unfold resolveref, lookup_registry. destruct ref; try apply reads_throw.
  cbv zeta. repeat reads_step; apply reads_walk.
Qed.

Lemma reads_getSchemaType schema opts current :
  reads (getSchemaType schema opts current).
Proof. unfold getSchemaType. repeat reads_step. apply reads_resolveref. Qed.

Lemma reads_deref schema opts item : reads (deref schema opts item).
Proof. unfold deref. repeat reads_step. apply reads_resolveref. Qed.

(** a list of reads that all return *)
Lemma mapM_reads_cons {A B} (f : A -> M B) a l h bs :
  (forall a, reads (f a)) ->
  (mapM f (a :: l) h).1.1 = Ok bs ->
  exists b bs', bs = b :: bs' /\ f a h = (Ok b, h, []) /\ (mapM f l h).1.1 = Ok bs'.
Proof.
  intros Hf. simpl. unfold bind at 1. rewrite (reads_run (f a) h (Hf a)).
  destruct ((f a h).1.1) as [b| |]; simpl; try discriminate.
  unfold bind. rewrite (reads_run (mapM f l) h (reads_mapM f l Hf)).
  destruct ((mapM f l h).1.1) as [bs'| |]; simpl; try discriminate.
  intros [= <-]. exists b, bs'. auto.
Qed.

(** ** The shape check of the combinators *)

Lemma expect_array_Some current key message h members :
  readable current = true ->
  elements h (lookup_prop h current key) = Some members ->
  expect_array current key message h = (Ok members, h, []).
Proof.
  intros Hr Hel. unfold expect_array.
  rewrite bind_get by exact Hr. rewrite bind_read, Hel. reflexivity.
Qed.

Lemma expect_array_None current key message h :
  readable current = true ->
  elements h (lookup_prop h current key) = None ->
  expect_array current key message h = (Throw (AssertionError message None), h, []).
Proof.
  intros Hr Hel. unfold expect_array.
  rewrite bind_get by exact Hr. rewrite bind_read, Hel. reflexivity.
Qed.

(** ** The merge engine: the type check *)

Lemma is_str_eq v s : is_str v s = true <-> v = VStr s.
Proof.
  destruct v; simpl; try (split; [discriminate|intros [=]]).
  rewrite String.eqb_eq. split; [intros ->; reflexivity|intros [= ->]; reflexivity].
Qed.

Lemma mergeable_eq first type :
  mergeable first type = true <->
  type = first /\ (first = VStr "array" \/ first = VStr "object").
Proof.
  unfold mergeable. rewrite andb_true_iff, orb_true_iff, !is_str_eq. split.
  - intros [[->| ->] Heq]; destruct first as [| | |[]| |]; try discriminate;
      simpl in Heq; apply String.eqb_eq in Heq; subst; auto.
  - intros [-> [->| ->]]; auto.
Qed.

Lemma forallb_true_Forall {A} (f : A -> bool) l :
  forallb f l = true <-> Forall (fun x => f x = true) l.
Proof.
  induction l as [|a l IH]; simpl.
  - split; [constructor|reflexivity].
  - rewrite andb_true_iff, IH. split.
    + intros [Ha Hl]. constructor; assumption.
    + intros H. inversion H; subst. auto.
Qed.

Lemma forallb_mergeable types :
  types <> [] ->
  forallb (mergeable (hd VUndef types)) types = true <-> mergeable_types types.
Proof.
  intros Hne. rewrite forallb_true_Forall. split.
  - intros H. exists (hd VUndef types). destruct types as [|t ts]; [contradiction|].
    simpl in *. pose proof (Forall_inv H) as Ht. apply mergeable_eq in Ht.
    split; [apply Ht|]. eapply Forall_impl; [exact H|].
    intros t' Ht'. apply mergeable_eq in Ht'. apply Ht'.
  - intros (t & Ht & Hall). destruct types as [|t0 ts]; [contradiction|].
    pose proof (Forall_inv Hall) as H0. simpl in *. subst t0.
    eapply Forall_impl; [exact Hall|]. intros t' ->. apply mergeable_eq. auto.
Qed.

(** the loop of assertions over the members, once their types are known *)
Lemma check_members schema opts first members h : forall types,
  (mapM (getSchemaType schema opts) members h).1.1 = Ok types ->
  mapM (fun member =>
          _type <- getSchemaType schema opts member ;;
          assert ((is_str _type "array" || is_str _type "object")
                  && strict_equal first _type)
                 (AssertionError expected_allOf_item None)) members h
  = if forallb (mergeable first) types
    then (Ok (map (fun _ => tt) types), h, [])
    else (Throw MergeTypeError, h, []).
Proof.
  induction members as [|m members IH]; intros types Hty.
  - injection Hty as <-. reflexivity.
  - apply mapM_reads_cons in Hty; [|apply reads_getSchemaType].
    destruct Hty as (t & ts & -> & Hm & Hrest). cbn [mapM forallb].
    rewrite bind_unfold, (bind_reads _ _ h t Hm). fold (mergeable first t).
    destruct (mergeable first t); simpl; [|reflexivity].
    rewrite bind_unfold, (IH ts Hrest).
    destruct (forallb (mergeable first) ts); reflexivity.
Qed.

(** [resolveAllOf] on a list with a first member, once the types of the
    members are known *)
Lemma resolveAllOf_run schema opts resolve current h members types :
  readable current = true ->
  elements h (lookup_prop h current "allOf") = Some members ->
  members <> [] ->
  (mapM (getSchemaType schema opts) members h).1.1 = Ok types ->
  resolveAllOf schema opts resolve current h
  = if forallb (mergeable (hd VUndef types)) types
    then if is_str (hd VUndef types) "object"
         then (merged <- mergeObject schema opts
                           (lookup_prop h current "allOf") ;;
               resolve merged) h
         else (merged <- mergeArray schema opts
                           (lookup_prop h current "allOf") ;;
               resolve merged) h
    else (Throw MergeTypeError, h, []).
Proof.
  intros Hr Hel Hne Hty.
  unfold resolveAllOf.
  rewrite (bind_reads _ _ h members (expect_array_Some _ _ _ _ _ Hr Hel)).
  rewrite bind_get by exact Hr.
  destruct (lookup_prop h current "allOf") as [| | | | |l] eqn:HallOf;
    try discriminate.
  rewrite bind_get by reflexivity.
  destruct members as [|m ms]; [contradiction|].
  pose proof Hty as Hty'.
  apply mapM_reads_cons in Hty'; [|apply reads_getSchemaType].
  destruct Hty' as (t & ts & -> & Hm & _).
  assert (Hfirst : lookup_prop h (VRef l) "0" = m).
  { unfold elements in Hel. unfold lookup_prop.
    destruct (cell_at h l); [discriminate|]. injection Hel as ->. reflexivity. }
  rewrite Hfirst. rewrite (bind_reads _ _ h t Hm).
  rewrite bind_unfold, (check_members schema opts t (m :: ms) h _ Hty).
  simpl hd. destruct (forallb (mergeable t) (t :: ts)); [|reflexivity].
  rewrite bind_get by exact Hr. rewrite HallOf.
  destruct (is_str t "object");
    match goal with
    | |- _ = ?x => destruct x as [[? ?] ?]
    end; reflexivity.
Qed.



(** C2. The merge engine is to fail with the MergeTypeError whenever the
    members of an [allOf] do not all have the type of the first, [array] or
    [object]. Where a member has no type of its own and its [$ref] leads
    nowhere, the code does not get that far: [getSchemaType] reads [type]
    from the [undefined] that [resolveref] returned, and the translation
    ends in a TypeError. *)
Lemma allOf_dangling_ref_throws_TypeError :
  (translate_json 3 doc_allOf_dangling no_options).1.1 = Throw TypeError
  /\ (translate_json 3 doc_allOf_dangling no_options).1.1 <> Throw MergeTypeError.
Proof. split; vm_compute; [reflexivity|discriminate]. Qed.

(** ** The merge engine: objects *)

Lemma existsb_keys {A} k (ps : list (string * A)) :
  existsb (String.eqb k) (map fst ps) = match assoc k ps with Some _ => true | None => false end.
Proof.
  induction ps as [|[k0 a0] ps IH]; simpl; [reflexivity|].
  rewrite (String.eqb_sym k k0). destruct (String.eqb k0 k); simpl; [reflexivity|].
  exact IH.
Qed.

Lemma assoc_fold_put source keys : forall target k,
  String.eqb k "__proto__" = false ->
  assoc k (fold_left (fun acc k' => put k' (default VUndef (assoc k' source)) acc)
                     keys target)
  = if existsb (String.eqb k) keys then Some (default VUndef (assoc k source))
    else assoc k target.
Proof.
  induction keys as [|k0 keys IH]; intros target k Hk; simpl; [reflexivity|].
  rewrite (IH _ k Hk), (String.eqb_sym k k0).
  destruct (String.eqb k0 k) eqn:E; simpl.
  - apply String.eqb_eq in E. subst. rewrite (assoc_put_eq k _ _ Hk).
    destruct (existsb (String.eqb k) keys); reflexivity.
  - apply String.eqb_neq in E. rewrite (assoc_put_ne k k0 _ _ E). reflexivity.
Qed.

(** [Object.assign]: the source wins on the keys it has, ["__proto__"]
    aside *)
Lemma assoc_assign target source k :
  String.eqb k "__proto__" = false ->
  assoc k (assign target source)
  = match assoc k source with Some v => Some v | None => assoc k target end.
Proof.
  intros Hk. unfold assign. rewrite (assoc_fold_put _ _ _ k Hk), existsb_keys.
  destruct (assoc k source); reflexivity.
Qed.

Lemma assoc_assign_all maps : forall target k,
  String.eqb k "__proto__" = false ->
  assoc k (fold_left assign maps target)
  = fold_left (fun found ps => match assoc k ps with Some v => Some v | None => found end)
              maps (assoc k target).
Proof.
  induction maps as [|ps maps IH]; intros target k Hk; simpl; [reflexivity|].
  rewrite (IH _ k Hk), (assoc_assign _ _ k Hk). reflexivity.
Qed.

(** a fresh object never gets an own ["__proto__"] from [Object.assign] *)
Lemma assign_no_proto target source :
  has_key "__proto__" target = false ->
  has_key "__proto__" (assign target source) = false.
Proof.
  unfold assign. revert target.
  induction (map fst source) as [|k0 keys IH]; intros target Ht; simpl; [exact Ht|].
  apply IH. unfold has_key in *.
  destruct (String.eqb k0 "__proto__") eqn:E.
  - apply String.eqb_eq in E. subst k0. rewrite put_proto; [exact Ht|exact Ht].
  - apply String.eqb_neq in E. rewrite (assoc_put_ne "__proto__" k0 _ _ E). exact Ht.
Qed.

Lemma assign_all_no_proto maps : forall target,
  has_key "__proto__" target = false ->
  has_key "__proto__" (fold_left assign maps target) = false.
Proof.
  induction maps as [|ps maps IH]; intros target Ht; simpl; [exact Ht|].
  apply IH, assign_no_proto, Ht.
Qed.

Lemma or_empty_required h item :
  object_schema h item ->
  or_empty h (lookup_prop h item "required") = required_of h item.
Proof.
  intros [_ H]. unfold or_empty, required_of, concat_arg, isArray in *.
  destruct (truthy (lookup_prop h item "required")) eqn:Ht.
  - specialize (H eq_refl).
    destruct (elements h (lookup_prop h item "required")); [reflexivity|discriminate].
  - destruct (lookup_prop h item "required"); try reflexivity. discriminate.
Qed.

(** the loop of [mergeObject], once the members are dereferenced *)
Lemma mergeObject_loop schema opts h members : forall items acc,
  (mapM (deref schema opts) members h).1.1 = Ok items ->
  Forall (object_schema h) items ->
  foldM (mergeObject_step schema opts) members acc h
  = (Ok (fold_left assign (map (properties_of h) items) acc.1,
         acc.2 ++ concat (map (required_of h) items)), h, []).
Proof.
  induction members as [|m members IH]; intros items acc Hd Hok.
  - injection Hd as <-. simpl. destruct acc. rewrite app_nil_r. reflexivity.
  - apply mapM_reads_cons in Hd; [|apply reads_deref].
    destruct Hd as (item & items' & -> & Hm & Hrest).
    inversion Hok as [|? ? Hitem Hitems]; subst. cbn [foldM].
    assert (Hstep : mergeObject_step schema opts acc m h
                    = (Ok (assign acc.1 (properties_of h item),
                           acc.2 ++ required_of h item), h, [])).
    { unfold mergeObject_step. rewrite (bind_reads _ _ h item Hm).
      rewrite bind_get by apply Hitem. rewrite bind_read.
      rewrite bind_get by apply Hitem. rewrite bind_read.
      rewrite (or_empty_required h item Hitem). reflexivity. }
    rewrite (bind_reads _ _ h _ Hstep), (IH items' _ Hrest Hitems). simpl.
    rewrite <- app_assoc. reflexivity.
Qed.

(** the cells a computation has added *)
Lemma cell_at_new (h more : heap) i : cell_at (h ++ more) (i + length h) = cell_at more i.
Proof.
  unfold cell_at. rewrite lookup_app_r by lia.
  replace (i + length h - length h) with i by lia. reflexivity.
Qed.

Lemma cell_at_new0 (h more : heap) : cell_at (h ++ more) (length h) = cell_at more 0.
Proof. apply (cell_at_new h more 0). Qed.

Lemma cell_at_new1 (h more : heap) : cell_at (h ++ more) (S (length h)) = cell_at more 1.
Proof. apply (cell_at_new h more 1). Qed.

Lemma cell_at_new2 (h more : heap) :
  cell_at (h ++ more) (S (S (length h))) = cell_at more 2.
Proof. apply (cell_at_new h more 2). Qed.

Lemma nodes_unchanged_app (h more : heap) : nodes_unchanged h (h ++ more).
Proof. intros l c Hl. apply lookup_app_l_Some, Hl. Qed.



(** C3. The merged properties are to be the union of the members'
    properties. A property named ["__proto__"] is lost on the way:
    [Object.assign] assigns it to the fresh properties object, the
    assignment runs the setter the object inherits, and no own property is
    added. The member below has the properties ["__proto__"] and ["a"]; the
    merged node has ["a"] only, and the rule of the translation has no
    child for ["__proto__"]. *)
Lemma allOf_proto_property_dropped :
  elements (store_of doc_allOf_proto) (VRef 4) = Some [VRef 3]
  /\ later_wins [properties_of (store_of doc_allOf_proto) (VRef 3)] "__proto__"
     = Some (VRef 0)
  /\ (exists merged h',
        mergeObject (root_of doc_allOf_proto) no_options (VRef 4)
          (store_of doc_allOf_proto) = (Ok merged, h', [])
        /\ map fst (properties_of h' merged) = ["a"]
        /\ assoc "__proto__" (properties_of h' merged) = None)
  /\ (translate_json 5 doc_allOf_proto no_options).1.1
     = Ok (Joi.object (Some [("a", Joi.number.(Joi.strict false))]))
            .(Joi.strict false).
Proof.
  split; [vm_compute; reflexivity|]. split; [vm_compute; reflexivity|].
  split; [|vm_compute; reflexivity].
  eexists. eexists. split; [vm_compute; reflexivity|].
  split; vm_compute; reflexivity.
Qed.

(** ** Object properties *)

Lemma lookup_kept h h' l ps k :
  nodes_kept h h' -> h !! l = Some (Object ps) -> k <> "minLength" ->
  lookup_prop h' (VRef l) k = default VUndef (assoc k ps).
Proof.
  intros Hk Hl Hne. destruct (nodes_kept_object h h' l ps Hk Hl) as (ps' & Hl' & Hps).
  unfold lookup_prop, cell_at. rewrite Hl', (Hps k Hne). reflexivity.
Qed.

Lemma elements_kept h h' l vs :
  nodes_kept h h' -> h !! l = Some (Array vs) -> elements h' (VRef l) = Some vs.
Proof.
  intros Hk Hl. unfold elements, cell_at.
  rewrite (nodes_kept_array h h' l vs Hk Hl). reflexivity.
Qed.

Lemma indexOf_found_array h l rs key :
  elements h (VRef l) = Some rs ->
  indexOf_found (VRef l) key h = (Ok (listed key rs), h, []).
Proof. intros H. unfold indexOf_found. rewrite bind_read, H. reflexivity. Qed.

Section Properties.
Variables (schema : value) (opts : options) (fuel : nat).
Variables (h : heap) (l lp lr : loc).
Variables (ps pps : list (string * value)) (rs : list value).

Hypothesis current_node : h !! l = Some (Object ps).
Hypothesis current_properties : assoc "properties" ps = Some (VRef lp).
Hypothesis properties_node : h !! lp = Some (Object pps).
Hypothesis current_required : assoc "required" ps = Some (VRef lr).
Hypothesis required_node : h !! lr = Some (Array rs).

(** one round of the loop over the keys *)
Lemma resolveproperty_inv hi schemas key schemas' h' w :
  nodes_kept h hi ->
  resolveproperty (resolve schema opts fuel) (VRef l) schemas key hi
  = (Ok schemas', h', w) ->
  exists own,
    resolve schema opts fuel (lookup_prop hi (VRef lp) key) hi = (Ok own, h', w)
    /\ schemas' = put key (child_rule key rs own) schemas
    /\ nodes_kept h h'.
Proof using All.
  intros Hk. unfold resolveproperty.
  rewrite bind_get by reflexivity.
  rewrite (lookup_kept h hi l ps "properties" Hk current_node) by discriminate.
  rewrite current_properties. simpl default.
  rewrite bind_get by reflexivity.
  intros H. apply bind_inv_Ok in H.
  destruct H as (own & h1 & w1 & w2 & Hown & Hrest & ->).
  assert (Hk1 : nodes_kept h h1).
  { eapply nodes_kept_trans; [exact Hk|].
    pose proof (resolve_keeps_nodes schema opts fuel
                  (lookup_prop hi (VRef lp) key) hi) as H.
    rewrite Hown in H. exact H. }
  rewrite bind_get in Hrest by reflexivity.
  rewrite (lookup_kept h h1 l ps "required" Hk1 current_node) in Hrest
    by discriminate.
  rewrite current_required in Hrest. simpl in Hrest.
  rewrite (bind_reads _ _ h1 (child_rule key rs own)) in Hrest.
  - injection Hrest as <- <- <-. exists own. rewrite app_nil_r. auto.
  - rewrite (bind_reads _ _ h1 _
               (indexOf_found_array h1 lr rs key
                  (elements_kept h h1 lr rs Hk1 required_node))).
    reflexivity.
Qed.

(** the loop: every key it has gone through has its child rule *)
Lemma resolveproperties_loop keys : forall hi schemas schemas' h' w,
  nodes_kept h hi ->
  foldM (resolveproperty (resolve schema opts fuel) (VRef l)) keys schemas hi
  = (Ok schemas', h', w) ->
  forall key,
    key <> "__proto__" ->
    In key keys \/
    (exists own, assoc key schemas = Some (child_rule key rs own)
                 /\ resolves_to schema opts fuel h (VRef lp) key own) ->
    exists own, assoc key schemas' = Some (child_rule key rs own)
                /\ resolves_to schema opts fuel h (VRef lp) key own.
Proof using All.
  induction keys as [|k0 keys IH];
    intros hi schemas schemas' h' w Hk Hrun key Hproto Hkey.
  - injection Hrun as <- <- <-. destruct Hkey as [[]|Hkey]. exact Hkey.
  - cbn [foldM] in Hrun. apply bind_inv_Ok in Hrun.
    destruct Hrun as (schemas1 & h1 & w1 & w2 & Hstep & Hrest & ->).
    destruct (resolveproperty_inv hi schemas k0 schemas1 h1 w1 Hk Hstep)
      as (own0 & Hown0 & -> & Hk1).
    apply (IH h1 _ schemas' h' w2 Hk1 Hrest key Hproto).
    destruct (String.eqb k0 key) eqn:E.
    + apply String.eqb_eq in E. subst k0. right. exists own0.
      rewrite assoc_put_eq by (apply String.eqb_neq, Hproto).
      split; [reflexivity|].
      exists hi, h1, w1. auto.
    + apply String.eqb_neq in E.
      destruct Hkey as [[Heq|Hin]|(own & Hown & Hres)]; [contradiction|auto|].
      right. exists own. rewrite assoc_put_ne by exact E. auto.
Qed.
End Properties.

(** C4, as the code has it. In an object schema whose [properties] is an
    object without a property named ["__proto__"] and whose [required] is a
    list, every property key gets a child rule: for a key listed in
    [required], the rule its schema resolves to with [required()] called on
    it, which marks it required; for any other key, the rule its schema
    resolves to and nothing more, so the child is as optional or required
    as that rule already is. (A property named ["__proto__"] is written to
    the prototype of the collected rules: it gets no child rule, and what
    the later writes do then depends on the rule object. The statement
    leaves such schemas out.) *)
Theorem resolveproperties_required schema opts fuel h l lp lr ps pps rs schemas h' w :
  h !! l = Some (Object ps) ->
  assoc "properties" ps = Some (VRef lp) ->
  h !! lp = Some (Object pps) ->
  ~ In "__proto__" (map fst pps) ->
  assoc "required" ps = Some (VRef lr) ->
  h !! lr = Some (Array rs) ->
  resolveproperties (resolve schema opts fuel) (VRef l) h = (Ok (Some schemas), h', w) ->
  forall key, In key (map fst pps) ->
    exists own,
      assoc key schemas = Some (child_rule key rs own)
      /\ resolves_to schema opts fuel h (VRef lp) key own
      /\ (listed key rs = true ->
          Joi.presence_of (child_rule key rs own) = Joi.Required)
      /\ (listed key rs = false -> child_rule key rs own = own).
Proof.
  intros Hl Hp Hlp Hproto Hr Hlr Hrun key Hkey.
  assert (Hne : key <> "__proto__") by (intros ->; exact (Hproto Hkey)).
  unfold resolveproperties in Hrun. rewrite bind_get in Hrun by reflexivity.
  rewrite (lookup_kept h h l ps "properties" (nodes_kept_refl h) Hl) in Hrun
    by discriminate.
  rewrite Hp in Hrun.
  change (default VUndef (Some (VRef lp))) with (VRef lp) in Hrun.
  change (isObject (VRef lp)) with true in Hrun. cbv iota in Hrun.
  rewrite bind_read in Hrun.
  apply bind_inv_Ok in Hrun.
  destruct Hrun as (schemas0 & h1 & w1 & w2 & Hloop & Hret & ->).
  injection Hret as <- <- <-.
  assert (Hkeys : map fst (own_props h (VRef lp)) = map fst pps).
  { unfold own_props, cell_at. rewrite Hlp. reflexivity. }
  rewrite Hkeys in Hloop.
  destruct (resolveproperties_loop schema opts fuel h l lp lr ps pps rs
              Hl Hp Hlp Hr Hlr (map fst pps) h [] schemas0 h1 w1
              (nodes_kept_refl h) Hloop key Hne (or_introl Hkey))
    as (own & Hown & Hres).
  exists own. split; [exact Hown|]. split; [exact Hres|].
  unfold child_rule. split; intros ->; reflexivity.
Qed.

Lemma resolveproperties_required_witness :
  ~ In "__proto__" (map fst [("a", VRef 2); ("b", VRef 3)])
  /\ In "b" (map fst [("a", VRef 2); ("b", VRef 3)])
  /\ exists own,
       assoc "b" [("a", (Joi.try (Joi.alternatives None)
                           [Joi.string.(Joi.allow (VStr ""))
                              .(Joi.min (VNum (Finite (0 # 1))))
                              .(Joi.strict false)]).(Joi.required));
                  ("b", Joi.boolean.(Joi.strict false).(Joi.required))]
       = Some (child_rule "b" [VStr "b"] own)
       /\ resolves_to (root_of doc_oneOf_property) no_options 3
            (store_of doc_oneOf_property) (VRef 4) "b" own
       /\ (listed "b" [VStr "b"] = true ->
           Joi.presence_of (child_rule "b" [VStr "b"] own) = Joi.Required)
       /\ (listed "b" [VStr "b"] = false -> child_rule "b" [VStr "b"] own = own).
Proof.
  assert (H1 : store_of doc_oneOf_property !! 6
               = Some (Object [("type", VStr "object"); ("properties", VRef 4);
                               ("required", VRef 5)]))
    by (vm_compute; reflexivity).
  assert (H2 : assoc "properties" [("type", VStr "object"); ("properties", VRef 4);
                                   ("required", VRef 5)] = Some (VRef 4))
    by reflexivity.
  assert (H3 : store_of doc_oneOf_property !! 4
               = Some (Object [("a", VRef 2); ("b", VRef 3)]))
    by (vm_compute; reflexivity).
  assert (H4 : assoc "required" [("type", VStr "object"); ("properties", VRef 4);
                                 ("required", VRef 5)] = Some (VRef 5))
    by reflexivity.
  assert (H5 : store_of doc_oneOf_property !! 5 = Some (Array [VStr "b"]))
    by (vm_compute; reflexivity).
  assert (H6 : In "b" (map fst [("a", VRef 2); ("b", VRef 3)]))
    by (simpl; auto).
  assert (H7 : ~ In "__proto__" (map fst [("a", VRef 2); ("b", VRef 3)])).
  { simpl. intros [H|[H|[]]]; discriminate. }
  split; [exact H7|]. split; [exact H6|].
  refine (resolveproperties_required (root_of doc_oneOf_property) no_options 3
            (store_of doc_oneOf_property) 6 4 5 _ _ _ _
            (resolveproperties (resolve (root_of doc_oneOf_property) no_options 3)
               (VRef 6) (store_of doc_oneOf_property)).1.2
            (resolveproperties (resolve (root_of doc_oneOf_property) no_options 3)
               (VRef 6) (store_of doc_oneOf_property)).2
            H1 H2 H3 H7 H4 H5 _ "b" H6).
  vm_compute. reflexivity.
Defined.

(** C4, as stated, fails: a property that is not listed in [required] but
    whose schema is a [oneOf] gets a child rule that is marked required. *)
Lemma oneOf_property_is_required :
  exists child rest,
    (translate_json 4 doc_oneOf_property no_options).1.1
    = Ok (Joi.object (Some (("a", child) :: rest))).(Joi.strict false)
    /\ required_of (store_of doc_oneOf_property) (root_of doc_oneOf_property)
       = [VStr "b"]
    /\ listed "a" [VStr "b"] = false
    /\ Joi.presence_of child = Joi.Required.
Proof.
  eexists. eexists. split; [vm_compute; reflexivity|].
  split; [vm_compute; reflexivity|]. split; reflexivity.
Qed.

(** ** Alternations *)

Lemma get_inv v k h a h' w :
  get v k h = (Ok a, h', w) ->
  readable v = true /\ a = lookup_prop h v k /\ h' = h /\ w = [].
Proof.
  destruct v; try discriminate; intros [= <- <- <-]; auto.
Qed.

Lemma expect_array_inv current key message h members h' w :
  expect_array current key message h = (Ok members, h', w) ->
  elements h (lookup_prop h current key) = Some members /\ h' = h /\ w = [].
Proof.
  unfold expect_array. intros H. apply bind_inv_Ok in H.
  destruct H as (v & h1 & w1 & w2 & Hget & Hrest & ->).
  apply get_inv in Hget. destruct Hget as (_ & -> & -> & ->).
  rewrite bind_read in Hrest.
  destruct (elements h (lookup_prop h current key)); [|discriminate].
  injection Hrest as <- <- <-. auto.
Qed.

(** an alternation that is returned was built from the resolved members *)
Lemma alternation_inv {B} (resolve : value -> M rule) (build : list rule -> B)
    current key message h b h' w :
  (members <- expect_array current key message ;;
   schemas <- mapM resolve members ;;
   ret (build schemas)) h = (Ok b, h', w) ->
  exists members schemas,
    elements h (lookup_prop h current key) = Some members
    /\ mapM resolve members h = (Ok schemas, h', w)
    /\ b = build schemas.
Proof.
  intros H. apply bind_inv_Ok in H.
  destruct H as (members & h1 & w1 & w2 & Hexp & Hrest & ->).
  apply expect_array_inv in Hexp. destruct Hexp as (Hel & -> & ->).
  apply bind_inv_Ok in Hrest.
  destruct Hrest as (schemas & h2 & w3 & w4 & Hmap & Hret & ->).
  injection Hret as <- <- <-. exists members, schemas.
  rewrite app_nil_r. auto.
Qed.





(** ** Strict mode *)

Lemma mapM_Ok_Forall {A B} (f : A -> M B) (P : B -> Prop) :
  (forall a h b h' w, f a h = (Ok b, h', w) -> P b) ->
  forall l h bs h' w, mapM f l h = (Ok bs, h', w) -> Forall P bs.
Proof.
  intros Hf. induction l as [|a l IH]; intros h bs h' w Hrun.
  - injection Hrun as <- <- <-. constructor.
  - cbn [mapM] in Hrun. apply bind_inv_Ok in Hrun.
    destruct Hrun as (b & h1 & w1 & w2 & Hb & Hrest & ->).
    apply bind_inv_Ok in Hrest.
    destruct Hrest as (bs' & h2 & w3 & w4 & Hbs & Hret & ->).
    injection Hret as <- <- <-. constructor; eauto.
Qed.

(** whatever [joitype] returns has had [strict(strictMode)] called last *)
Lemma joitype_strict opts resolve current type format h r h' w :
  joitype opts resolve current type format h = (Ok r, h', w) ->
  exists r0, r = r0.(Joi.strict (strictMode opts)).
Proof.
  unfold joitype. intros H. apply bind_inv_Ok in H.
  destruct H as (type' & h1 & w1 & w2 & _ & H & ->).
  apply bind_inv_Ok in H. destruct H as (built & h2 & w3 & w4 & _ & H & ->).
  apply bind_inv_Ok in H. destruct H as (ctype & h3 & w5 & w6 & _ & H & ->).
  destruct built as [r0|]; [|discriminate].
  injection H as <- <- <-. exists r0. reflexivity.
Qed.

(** the decorations keep the strict setting and the alternation *)
Lemma if_truthy_decoration current key method r h r' h' w :
  (forall v, Joi.strict_of r.(method v) = Joi.strict_of r
             /\ alternatives_of r.(method v) = alternatives_of r) ->
  if_truthy current key method r h = (Ok r', h', w) ->
  Joi.strict_of r' = Joi.strict_of r /\ alternatives_of r' = alternatives_of r.
Proof.
  intros Hm. unfold if_truthy. intros H. apply bind_inv_Ok in H.
  destruct H as (v & h1 & w1 & w2 & _ & H & ->).
  injection H as <- <- <-. destruct (truthy v); [apply Hm|auto].
Qed.

Lemma decorations_keep current r h r' h' w :
  foldM (fun joischema entry => if_truthy current entry.1 entry.2 joischema)
        typeDefinitionMap r h = (Ok r', h', w) ->
  Joi.strict_of r' = Joi.strict_of r /\ alternatives_of r' = alternatives_of r.
Proof.
  unfold typeDefinitionMap. cbn [foldM fst snd]. intros H.
  apply bind_inv_Ok in H. destruct H as (r1 & h1 & w1 & w2 & H1 & H & ->).
  apply bind_inv_Ok in H. destruct H as (r2 & h2 & w3 & w4 & H2 & H & ->).
  apply bind_inv_Ok in H. destruct H as (r3 & h3 & w5 & w6 & H3 & H & ->).
  injection H as <- <- <-.
  apply if_truthy_decoration in H1; [|intros v; split; reflexivity].
  apply if_truthy_decoration in H2; [|intros v; split; reflexivity].
  apply if_truthy_decoration in H3; [|intros v; split; reflexivity].
  destruct H1 as [<- <-], H2 as [<- <-], H3 as [<- <-]. auto.
Qed.

(** a node on which only [enum] matches, and a node on which nothing does *)
Lemma resolve_enum_only schema opts fuel node h :
  readable node = true ->
  first_match h node = Some "enum" ->
  resolve schema opts (S fuel) node h
  = (Ok Joi.any.(Joi.valid (lookup_prop h node "enum")), h, []).
Proof.
  intros Hr. simpl resolve. unfold resolve_body, first_match, keywords.
  simpl find.
  next_keyword "type" Hr; [discriminate|].
  next_keyword "anyOf" Hr; [discriminate|].
  next_keyword "allOf" Hr; [discriminate|].
  next_keyword "oneOf" Hr; [discriminate|].
  next_keyword "not" Hr; [discriminate|].
  next_keyword "$ref" Hr; [discriminate|].
  next_keyword "enum" Hr; [reflexivity|discriminate].
Qed.

Lemma resolve_unmatched schema opts fuel node h :
  readable node = true ->
  first_match h node = None ->
  (forall s, node <> VStr s) ->
  resolve schema opts (S fuel) node h = (warn node ;;; ret Joi.any) h.
Proof.
  intros Hr. simpl resolve. unfold resolve_body, first_match, keywords.
  simpl find.
  next_keyword "type" Hr; [discriminate|].
  next_keyword "anyOf" Hr; [discriminate|].
  next_keyword "allOf" Hr; [discriminate|].
  next_keyword "oneOf" Hr; [discriminate|].
  next_keyword "not" Hr; [discriminate|].
  next_keyword "$ref" Hr; [discriminate|].
  next_keyword "enum" Hr; [discriminate|].
  intros _ Hs. destruct node; try reflexivity. destruct (Hs s). reflexivity.
Qed.

(** C7, as the code has it. [strict(strictMode)] is the last call on every
    rule [joitype] builds for a type name; so the rule [resolvetype]
    returns for a node with a single type has the strict setting
    [strictMode], and for a node with a list of types it is an alternation
    without a strict setting of its own whose members each have it. The
    rules built on the other paths of [resolve] - the alternations of
    [anyOf], [oneOf] and [not], the rule of a node with only an [enum], the
    accept-anything rule - have no strict setting. *)
Theorem strictMode_on_typed_rules schema opts fuel recur current h r h' w :
  (resolvetype opts recur current h = (Ok r, h', w) ->
   match elements h (lookup_prop h current "type") with
   | None => Joi.strict_of r = Some (strictMode opts)
   | Some _ =>
       Joi.strict_of r = None
       /\ exists schemas,
            alternatives_of r = Some schemas
            /\ Forall (fun s => Joi.strict_of s = Some (strictMode opts)) schemas
   end)
  /\ (resolveAnyOf recur current h = (Ok r, h', w)
      \/ resolveOneOf recur current h = (Ok r, h', w)
      \/ resolveNot recur current h = (Ok r, h', w) ->
      Joi.strict_of r = None)
  /\ (readable current = true ->
      first_match h current = Some "enum"
      \/ (first_match h current = None /\ forall s, current <> VStr s) ->
      resolve schema opts (S fuel) current h = (Ok r, h', w) ->
      Joi.strict_of r = None).
Proof.
  split; [|split].
  - unfold resolvetype. intros H. apply bind_inv_Ok in H.
    destruct H as (type & h1 & w1 & w2 & Hget & H & ->).
    apply get_inv in Hget. destruct Hget as (_ & -> & -> & ->).
    rewrite bind_read in H. apply bind_inv_Ok in H.
    destruct H as (r0 & h2 & w3 & w4 & Hbuild & Hdec & ->).
    apply decorations_keep in Hdec. destruct Hdec as [-> Halt].
    destruct (elements h (lookup_prop h current "type")) as [ts|].
    + apply bind_inv_Ok in Hbuild.
      destruct Hbuild as (schemas & h3 & w5 & w6 & Hmap & Hret & ->).
      injection Hret as <- <- <-. split; [reflexivity|].
      exists schemas. split; [exact Halt|].
      eapply mapM_Ok_Forall; [|exact Hmap]. cbv beta.
      intros t h4 b h5 w7 Hb. apply bind_inv_Ok in Hb.
      destruct Hb as (format & h6 & w8 & w9 & _ & Hb & ->).
      apply joitype_strict in Hb. destruct Hb as (b0 & ->). reflexivity.
    + apply bind_inv_Ok in Hbuild.
      destruct Hbuild as (format & h3 & w5 & w6 & _ & Hb & ->).
      apply joitype_strict in Hb. destruct Hb as (b0 & ->). reflexivity.
  - intros [Hrun|[Hrun|Hrun]]; apply alternation_inv in Hrun;
      destruct Hrun as (members & schemas & _ & _ & ->); reflexivity.
  - intros Hr [Henum|[Hnone Hs]] Hrun.
    + rewrite (resolve_enum_only schema opts fuel current h Hr Henum) in Hrun.
      injection Hrun as <- <- <-. reflexivity.
    + rewrite (resolve_unmatched schema opts fuel current h Hr Hnone Hs) in Hrun.
      apply bind_inv_Ok in Hrun.
      destruct Hrun as (u & h1 & w1 & w2 & _ & Hret & _).
      injection Hret as <- _ _. reflexivity.
Qed.

Lemma strictMode_on_typed_rules_witness :
  Joi.strict_of
    Joi.string.(Joi.allow (VStr "")).(Joi.min (VNum (Finite (0 # 1))))
      .(Joi.strict true)
  = Some true.
Proof.
  refine (proj1 (strictMode_on_typed_rules (root_of doc_string) strict_options 0
                   (resolve (root_of doc_string) strict_options 3)
                   (root_of doc_string) (store_of doc_string) _
                   (resolvetype strict_options
                      (resolve (root_of doc_string) strict_options 3)
                      (root_of doc_string) (store_of doc_string)).1.2
                   (resolvetype strict_options
                      (resolve (root_of doc_string) strict_options 3)
                      (root_of doc_string) (store_of doc_string)).2) _).
  vm_compute. reflexivity.
Defined.

(** C7, as stated, fails: the rule for a node that has only an [enum] is
    returned without any strict setting, also when [strictMode] is true. *)
Lemma enum_rule_is_not_strict :
  exists r,
    (translate_json 3 doc_enum strict_options).1.1 = Ok r
    /\ Joi.strict_of r = None
    /\ Joi.strict_of r <> Some (strictMode strict_options).
Proof.
  eexists. split; [vm_compute; reflexivity|]. split; [reflexivity|discriminate].
Qed.

(** ** The input after a translation *)

(** C8, as the code has it. Whatever its outcome, a translation keeps
    every node of the store it started in: the node's cell is the same at
    the end, or it is the same object with [minLength: 0] added where
    [minLength] was undefined (the default [regularString] writes into the
    string schemas it builds). *)
Theorem translate_keeps_nodes fuel schema opts h :
  nodes_kept h (translate fuel schema opts h).1.2.
Proof.
  unfold translate, assert. rewrite bind_read.
  destruct (schemaSchema h schema); [|apply nodes_kept_refl].
  rewrite bind_ret, bind_read.
  destruct (optionsSchema h opts); [|apply nodes_kept_refl].
  rewrite bind_ret. apply resolve_keeps_nodes.
Qed.

(** C8, as stated, fails: translating the schema [{type: "string"}] leaves
    the schema with a [minLength] key it did not have. *)
Lemma string_schema_gains_minLength :
  store_of doc_string = [Object [("type", VStr "string")]]
  /\ (translate 3 (root_of doc_string) no_options (store_of doc_string)).1.2
     = [Object [("type", VStr "string"); ("minLength", VNum (Finite (0 # 1)))]]
  /\ ~ nodes_unchanged (store_of doc_string)
         (translate 3 (root_of doc_string) no_options (store_of doc_string)).1.2.
Proof.
  split; [reflexivity|]. split; [vm_compute; reflexivity|].
  intros H. specialize (H 0 _ eq_refl). vm_compute in H. discriminate.
Qed.

(** ** Resolving a reference again *)

(** Looking a [$ref] up only reads the store, so looking the same [$ref]
    up twice gives the same fragment, or the same failure. *)
Lemma resolveref_twice schema opts ref h :
  (fragment <- resolveref schema opts ref ;;
   second <- resolveref schema opts ref ;;
   ret (fragment, second)) h
  = (match (resolveref schema opts ref h).1.1 with
     | Ok fragment => Ok (fragment, fragment)
     | Throw e => Throw e
     | Timeout => Timeout
     end, h, []).
Proof.
  pose proof (reads_run _ h (reads_resolveref schema opts ref)) as Hrun.
  destruct ((resolveref schema opts ref h).1.1) as [fragment|e|].
  - rewrite (bind_reads _ _ h fragment Hrun), (bind_reads _ _ h fragment Hrun).
    reflexivity.
  - rewrite (bind_Throw _ _ h e h [] Hrun). reflexivity.
  - rewrite (bind_Timeout _ _ h h [] Hrun). reflexivity.
Qed.


Lemma nodes_kept_length h h' : nodes_kept h h' -> length h <= length h'.
Proof.
  intros Hk. destruct (decide (length h = 0)) as [->|Hne]; [lia|].
  destruct (lookup_lt_is_Some_2 h (length h - 1)) as [c Hc]; [lia|].
  destruct (Hk _ _ Hc) as (c' & Hc' & _).
  apply lookup_lt_Some in Hc'. lia.
Qed.

Lemma gains_minLength_irrefl c : gains_minLength c c -> False.
Proof.
  intros (ps & -> & Hu & [= Heq]). rewrite Heq in Hu.
  rewrite assoc_put_eq in Hu by reflexivity. discriminate.
Qed.

(** between two stores that have a cell the same, it is the same *)
Lemma nodes_kept_squeeze h0 h h1 l c :
  nodes_kept h0 h -> nodes_kept h h1 ->
  h0 !! l = Some c -> h1 !! l = Some c -> h !! l = Some c.
Proof.
  intros H0 H1 Hl0 Hl1.
  destruct (H0 _ _ Hl0) as (c' & Hl & Hc).
  destruct (H1 _ _ Hl) as (c'' & Hl1' & Hc').
  rewrite Hl1 in Hl1'. injection Hl1' as <-.
  destruct Hc as [->|Hg]; [exact Hl|].
  destruct Hc' as [->|Hg']; [destruct (gains_minLength_irrefl _ Hg)|].
  destruct (gains_minLength_once _ _ _ Hg Hg').
Qed.

(** *** Reading where defaults were written *)

Lemma or_default_refl v : or_default v v.
Proof. left. reflexivity. Qed.

Lemma or_default_truthy v v' : or_default v v' -> truthy v' = truthy v.
Proof. intros [->|[-> ->]]; reflexivity. Qed.

Lemma or_default_defined v v' : or_default v v' -> v <> VUndef -> v' = v.
Proof. intros [->|[-> _]] H; [reflexivity|destruct (H eq_refl)]. Qed.

Lemma cell_at_apart h h' l :
  defaults_apart h h' ->
  cell_at h' l = cell_at h l \/ gains_minLength (cell_at h l) (cell_at h' l).
Proof.
  intros [Hk Hlen]. unfold cell_at. destruct (h !! l) as [c|] eqn:Hl.
  - destruct (Hk _ _ Hl) as (c' & -> & [->|Hg]); auto.
  - apply lookup_ge_None in Hl. rewrite (proj2 (lookup_ge_None h' l)) by lia.
    auto.
Qed.

Lemma elements_apart h h' v :
  defaults_apart h h' -> elements h' v = elements h v.
Proof.
  intros Ha. destruct v as [| | | | |l]; try reflexivity. simpl.
  destruct (cell_at_apart h h' l Ha) as [->|(ps & -> & _ & ->)]; reflexivity.
Qed.

Lemma lookup_apart_any h h' v k :
  defaults_apart h h' -> or_default (lookup_prop h v k) (lookup_prop h' v k).
Proof.
  intros Ha. destruct v as [| | | | |l]; try apply or_default_refl. simpl.
  destruct (cell_at_apart h h' l Ha) as [->|(ps & -> & Hu & ->)];
    [apply or_default_refl|].
  destruct (String.eqb_spec k "minLength") as [->|Hne].
  - right. rewrite assoc_put_eq by reflexivity. split; [|reflexivity].
    destruct (default VUndef (assoc "minLength" ps)); try discriminate.
    reflexivity.
  - left. rewrite assoc_put_ne by congruence. reflexivity.
Qed.

Lemma lookup_apart h h' v k :
  defaults_apart h h' -> k <> "minLength" ->
  lookup_prop h' v k = lookup_prop h v k.
Proof.
  intros Ha Hne. destruct v as [| | | | |l]; try reflexivity. simpl.
  destruct (cell_at_apart h h' l Ha) as [->|(ps & -> & Hu & ->)];
    [reflexivity|].
  rewrite assoc_put_ne by congruence. reflexivity.
Qed.

Lemma own_props_apart_values h h' l (P : value -> bool) :
  defaults_apart h h' ->
  P (VNum (of_nat 0)) = true -> P VUndef = true ->
  forallb (fun kv => P kv.2) (own_props h' (VRef l))
  = forallb (fun kv => P kv.2) (own_props h (VRef l)).
Proof.
  intros Ha H0 Hu. simpl.
  destruct (cell_at_apart h h' l Ha) as [->|(ps & -> & Hund & ->)];
    [reflexivity|].
  unfold put. destruct (has_key "minLength" ps) eqn:Hhas.
  - unfold has_key in Hhas.
    induction ps as [|[k v] ps IH]; [reflexivity|]. simpl in *.
    destruct (String.eqb k "minLength") eqn:Hk.
    + simpl. simpl in Hund. destruct v; try discriminate. simpl.
      rewrite H0, Hu. reflexivity.
    + simpl. rewrite IH by assumption. reflexivity.
  - simpl. unfold define. rewrite Hhas. simpl.
    rewrite forallb_app. simpl. rewrite H0, !andb_true_r. reflexivity.
Qed.

Lemma forallb_same {A} (f g : A -> bool) l :
  (forall a, f a = g a) -> forallb f l = forallb g l.
Proof.
  intros H. induction l as [|a l IH]; simpl; [reflexivity|].
  rewrite H, IH. reflexivity.
Qed.

Lemma stringify_apart h h' :
  defaults_apart h h' ->
  forall fuel inside v,
    List.NoDup inside -> (forall x, In x inside -> x < length h) ->
    fuel + length inside = S (length h) ->
    stringify_aux fuel h' inside v = stringify_aux fuel h inside v.
Proof.
  intros Ha. induction fuel as [|fuel IH]; intros inside v Hnd Hin Hf;
    [reflexivity|].
  destruct v as [| | | | |l]; try reflexivity. cbn [stringify_aux].
  destruct (bool_decide (l ∈ inside)) eqn:Hmem; [reflexivity|].
  apply bool_decide_eq_false in Hmem.
  destruct (decide (l < length h)) as [Hlt|Hge].
  - assert (Hlen : S (length inside) <= length h).
    { change (length (l :: inside) <= length h).
      transitivity (length (seq 0 (length h))); [|rewrite length_seq; lia].
      apply NoDup_incl_length.
      - constructor; [|exact Hnd]. intros Hl. apply Hmem, list_elem_of_In, Hl.
      - intros x [<-|Hx]; apply in_seq; [lia|]. specialize (Hin x Hx). lia. }
    destruct fuel as [|fuel']; [lia|].
    rewrite (own_props_apart_values h h' l
               (fun v => stringify_aux (S fuel') h' (l :: inside) v) Ha)
      by reflexivity.
    apply forallb_same. intros [k v]. simpl. apply IH.
    + constructor; [|exact Hnd]. intros Hl. apply Hmem, list_elem_of_In, Hl.
    + intros x [<-|Hx]; auto.
    + simpl. lia.
  - destruct Ha as [Hk Hlen]. simpl. unfold cell_at.
    rewrite (proj2 (lookup_ge_None h l)) by lia.
    rewrite (proj2 (lookup_ge_None h' l)) by lia. reflexivity.
Qed.

Lemma stringifiable_apart h h' v :
  defaults_apart h h' -> stringifiable h' v = stringifiable h v.
Proof.
  intros Ha. unfold stringifiable. rewrite (proj2 Ha).
  apply (stringify_apart h h' Ha).
  - constructor.
  - intros x [].
  - simpl. lia.
Qed.

(** *** The store a second resolution starts in *)

Section Again.

Variable schema : value.
Variable opts : options.
Variable h0 h1 : heap.

Hypothesis callbacks : callbacks_ignore_defaults opts.
Hypothesis maps : forall l ps lp,
  h1 !! l = Some (Object ps) -> assoc "properties" ps = Some (VRef lp) ->
  lp < length h0 -> h1 !! lp = h0 !! lp.

Lemma graft_length h :
  nodes_kept h0 h -> nodes_kept h h1 -> length (graft h0 h1 h) = length h.
Proof.
  intros H0 H1. apply nodes_kept_length in H0, H1. unfold graft.
  rewrite length_app, length_take, length_drop. lia.
Qed.

Lemma graft_old h l :
  nodes_kept h0 h -> nodes_kept h h1 -> l < length h0 ->
  graft h0 h1 h !! l = h1 !! l.
Proof.
  intros H0 H1 Hl. apply nodes_kept_length in H0, H1. unfold graft.
  rewrite lookup_app_l by (rewrite length_take; lia).
  apply lookup_take_lt, Hl.
Qed.

Lemma graft_new h l :
  nodes_kept h0 h -> nodes_kept h h1 -> length h0 <= l ->
  graft h0 h1 h !! l = h !! l.
Proof.
  intros H0 H1 Hl. apply nodes_kept_length in H0, H1. unfold graft.
  rewrite lookup_app_r by (rewrite length_take; lia).
  rewrite length_take, lookup_drop. f_equal. lia.
Qed.

Lemma graft_apart h :
  nodes_kept h0 h -> nodes_kept h h1 -> defaults_apart h (graft h0 h1 h).
Proof.
  intros H0 H1. split; [|apply graft_length; assumption].
  intros l c Hl. destruct (decide (l < length h0)) as [Hlt|Hge].
  - rewrite graft_old by assumption. apply H1, Hl.
  - rewrite graft_new by (assumption || lia). exists c. auto.
Qed.

Lemma graft_alloc h c :
  nodes_kept h0 h -> graft h0 h1 (h ++ [c]) = graft h0 h1 h ++ [c].
Proof.
  intros H0. apply nodes_kept_length in H0. unfold graft.
  rewrite drop_app_le by lia. apply app_assoc.
Qed.

Lemma graft_insert_old h l c :
  l < length h0 -> graft h0 h1 (<[l := c]> h) = graft h0 h1 h.
Proof. intros Hl. unfold graft. rewrite drop_insert_lt by lia. reflexivity. Qed.

Lemma graft_insert_new h l c :
  nodes_kept h0 h -> nodes_kept h h1 -> length h0 <= l ->
  graft h0 h1 (<[l := c]> h) = <[l := c]> (graft h0 h1 h).
Proof.
  intros H0 H1 Hl. apply nodes_kept_length in H0, H1. unfold graft.
  rewrite drop_insert_ge by lia.
  rewrite insert_app_r_alt by (rewrite length_take; lia).
  rewrite length_take. do 3 f_equal. lia.
Qed.

Lemma graft_start : graft h0 h1 h0 = take (length h0) h1.
Proof. unfold graft. rewrite drop_all. apply app_nil_r. Qed.

Lemma graft_end : graft h0 h1 h1 = h1.
Proof. apply take_drop. Qed.

(** a stable map reads the same in the graft h0 h1 store *)
Lemma stable_cell h lp :
  nodes_kept h0 h -> nodes_kept h h1 -> stable h0 h1 (VRef lp) ->
  graft h0 h1 h !! lp = h !! lp.
Proof.
  intros H0 H1 Hs. destruct (decide (lp < length h0)) as [Hlt|Hge].
  - rewrite graft_old by assumption.
    destruct (lookup_lt_is_Some_2 h0 lp Hlt) as [c Hc].
    rewrite (Hs lp eq_refl Hlt), Hc. symmetry.
    apply (nodes_kept_squeeze h0 h h1); try assumption.
    rewrite (Hs lp eq_refl Hlt). exact Hc.
  - apply graft_new; (assumption || lia).
Qed.

Lemma stable_own_props h x :
  nodes_kept h0 h -> nodes_kept h h1 -> stable h0 h1 x ->
  own_props (graft h0 h1 h) x = own_props h x.
Proof.
  intros H0 H1 Hs. destruct x as [| | | | |lp]; try reflexivity.
  simpl. unfold cell_at. rewrite stable_cell by assumption. reflexivity.
Qed.

Lemma stable_lookup h x k :
  nodes_kept h0 h -> nodes_kept h h1 -> stable h0 h1 x ->
  lookup_prop (graft h0 h1 h) x k = lookup_prop h x k.
Proof.
  intros H0 H1 Hs. destruct x as [| | | | |lp]; try reflexivity.
  simpl. unfold cell_at. rewrite stable_cell by assumption. reflexivity.
Qed.

(** *** The primitives *)

Lemma again_weaken (Q Q' : Prop) {A} (m : M A) :
  (Q' -> Q) -> again h0 h1 Q m -> again h0 h1 Q' m.
Proof.
  intros HQ Hm h a h' w Hrun. destruct (Hm h a h' w Hrun) as [Hk Hr].
  split; auto.
Qed.

Lemma again_ret Q {A} (a : A) : again h0 h1 Q (ret a).
Proof.
  intros h a' h' w [= <- <- <-]. split; [apply nodes_kept_refl|]. reflexivity.
Qed.

Lemma again_throw Q {A} e : again h0 h1 Q (@throw A e).
Proof. intros h a h' w [=]. Qed.

Lemma again_timeout Q {A} : again h0 h1 Q (@timeout A).
Proof. intros h a h' w [=]. Qed.

Lemma again_assert Q c e : again h0 h1 Q (assert c e).
Proof. destruct c; [apply again_ret|apply again_throw]. Qed.

Lemma again_read Q {A} (f : heap -> A) :
  (forall h, Q -> nodes_kept h0 h -> nodes_kept h h1 ->
             f (graft h0 h1 h) = f h) ->
  again h0 h1 Q (read f).
Proof.
  intros Hf h a h' w [= <- <- <-]. split; [apply nodes_kept_refl|].
  intros HQ H0 H1. unfold read. rewrite Hf by assumption. reflexivity.
Qed.

Lemma again_get Q v k : k <> "minLength" -> again h0 h1 Q (get v k).
Proof.
  intros Hne. destruct v; try apply again_throw; apply again_read;
    intros h _ H0 H1; apply (lookup_apart h); auto using graft_apart.
Qed.

Lemma again_get_stable Q v k :
  (Q -> stable h0 h1 v) -> again h0 h1 Q (get v k).
Proof.
  intros Hs. destruct v; try apply again_throw; apply again_read;
    intros h HQ H0 H1; apply (stable_lookup h); auto.
Qed.

Lemma again_alloc Q c : again h0 h1 Q (alloc c).
Proof.
  intros h a h' w [= <- <- <-]. split; [apply nodes_kept_alloc|].
  intros _ H0 H1. unfold alloc.
  assert (Hk : nodes_kept h h1)
    by (eapply nodes_kept_trans; [apply nodes_kept_alloc|exact H1]).
  rewrite graft_length, graft_alloc by assumption. reflexivity.
Qed.

Lemma again_warn Q v : again h0 h1 Q (warn v).
Proof.
  intros h a h' w. unfold warn.
  destruct (stringifiable h v) eqn:Hs; [|discriminate].
  intros [= <- <- <-]. split; [apply nodes_kept_refl|]. intros _ H0 H1.
  rewrite (stringifiable_apart h) by (apply graft_apart; assumption).
  rewrite Hs. reflexivity.
Qed.

Lemma again_bind Q {A B} (m : M A) (f : A -> M B) :
  again h0 h1 Q m -> (forall a, again h0 h1 Q (f a)) ->
  again h0 h1 Q (bind m f).
Proof.
  intros Hm Hf h b h' w Hrun.
  destruct (bind_inv_Ok _ _ _ _ _ _ Hrun) as (a & ha & w1 & w2 & Hm1 & Hf1 & ->).
  destruct (Hm _ _ _ _ Hm1) as [Hk1 Hr1].
  destruct (Hf a _ _ _ _ Hf1) as [Hk2 Hr2].
  split; [eapply nodes_kept_trans; eassumption|].
  intros HQ H0 H1.
  assert (H0a : nodes_kept h0 ha) by (eapply nodes_kept_trans; eassumption).
  assert (H1a : nodes_kept ha h1) by (eapply nodes_kept_trans; eassumption).
  rewrite bind_unfold, (Hr1 HQ H0 H1a), (Hr2 HQ H0a H1). reflexivity.
Qed.

Lemma again_mapM Q {A B} (f : A -> M B) l :
  (forall a, again h0 h1 Q (f a)) -> again h0 h1 Q (mapM f l).
Proof.
  intros Hf. induction l as [|a l IH]; simpl; [apply again_ret|].
  apply again_bind; [apply Hf|intros b].
  apply again_bind; [exact IH|intros bs]. apply again_ret.
Qed.

Lemma again_foldM Q {A B} (f : B -> A -> M B) l acc :
  (forall acc a, again h0 h1 Q (f acc a)) -> again h0 h1 Q (foldM f l acc).
Proof.
  intros Hf. revert acc. induction l as [|a l IH]; intros acc; simpl;
    [apply again_ret|].
  apply again_bind; [apply Hf|intros acc']. apply IH.
Qed.

(** the keys of an array or of a string are numerals *)
Lemma numeral_not_name i k :
  NilZero.uint_of_string k = None -> string_of_nat i <> k.
Proof.
  intros Hk Heq. unfold string_of_nat in Heq. rewrite <- Heq in Hk.
  destruct (NilZero.usu_gen (Nat.to_uint i)) as [H|H]; congruence.
Qed.

Lemma assoc_numerals k (g : nat -> nat) (vs : list value) :
  NilZero.uint_of_string k = None ->
  assoc k (imap (fun i v => (string_of_nat (g i), v)) vs) = None.
Proof.
  intros Hk. revert g. induction vs as [|v vs IH]; intros g; [reflexivity|].
  simpl. destruct (String.eqb_spec (string_of_nat (g 0)) k) as [Heq|_].
  - destruct (numeral_not_name _ _ Hk Heq).
  - apply (IH (fun i => g (S i))).
Qed.

Lemma assoc_indexed k vs :
  NilZero.uint_of_string k = None -> assoc k (indexed vs) = None.
Proof. intros Hk. apply (assoc_numerals k (fun i => i)), Hk. Qed.

(** what is read under [properties] is a properties map *)
Lemma properties_stable h v :
  nodes_kept h h1 -> stable h0 h1 (lookup_prop h v "properties").
Proof.
  intros H1 lp Hx Hlt. destruct v as [| | | |s|l]; simpl in Hx;
    try discriminate.
  - rewrite assoc_indexed in Hx by reflexivity. discriminate.
  - unfold cell_at in Hx. destruct (h !! l) as [[ps|vs]|] eqn:Hl;
      simpl in Hx; try discriminate.
    + destruct (nodes_kept_object _ _ _ _ H1 Hl) as (ps' & Hl' & Hps).
      apply (maps l ps' lp Hl'); [|exact Hlt].
      rewrite Hps by discriminate.
      destruct (assoc "properties" ps); simpl in Hx; congruence.
    + rewrite assoc_indexed in Hx by reflexivity. discriminate.
Qed.

Lemma again_get_properties Q {B} v (f : value -> M B) :
  (forall x, again h0 h1 (Q /\ stable h0 h1 x) (f x)) ->
  again h0 h1 Q (bind (get v "properties") f).
Proof.
  intros Hf h b h' w Hrun. destruct (readable v) eqn:Hv.
  - rewrite bind_get in Hrun by exact Hv.
    destruct (Hf _ _ _ _ _ Hrun) as [Hk Hr]. split; [exact Hk|].
    intros HQ H0 H1.
    assert (Hk1 : nodes_kept h h1) by (eapply nodes_kept_trans; eassumption).
    rewrite bind_get by exact Hv.
    rewrite (lookup_apart h) by (try apply graft_apart; auto; discriminate).
    apply Hr; auto. split; [exact HQ|]. apply properties_stable, Hk1.
  - destruct v; discriminate.
Qed.

Ltac again_prim :=
  match goal with
  | |- again _ _ _ (bind (get _ "properties") _) =>
      apply again_get_properties; intros ?
  | |- again _ _ _ (bind _ _) => apply again_bind; [|intros ?]
  | |- again _ _ _ (ret _) => apply again_ret
  | |- again _ _ _ (get _ _) => apply again_get; discriminate
  | |- again _ _ _ (alloc _) => apply again_alloc
  | |- again _ _ _ (throw _) => apply again_throw
  | |- again _ _ _ timeout => apply again_timeout
  | |- again _ _ _ (warn _) => apply again_warn
  | |- again _ _ _ (assert _ _) => apply again_assert
  | |- again _ _ _ (mapM _ _) => apply again_mapM; intros ?
  | |- again _ _ _ (foldM _ _ _) => apply again_foldM; intros ? ?
  | |- again _ _ _ (if ?b then _ else _) => destruct b eqn:?
  | |- again _ _ _ (match ?x with _ => _ end) => destruct x eqn:?
  end.

Lemma again_ext Q {A} (m m' : M A) :
  (forall h, m h = m' h) -> again h0 h1 Q m' -> again h0 h1 Q m.
Proof.
  intros He Hm h a h' w Hrun. rewrite He in Hrun. rewrite He.
  apply Hm, Hrun.
Qed.

Lemma bind_assoc {A B C} (m : M A) (g : A -> M B) (f : B -> M C) h :
  bind (bind m g) f h = bind m (fun x => bind (g x) f) h.
Proof.
  unfold bind. destruct (m h) as [[[a|e|] ha] wa]; try reflexivity.
  destruct (g a ha) as [[[b|e|] hb] wb]; try reflexivity.
  destruct (f b hb) as [[o hc] wc]. rewrite app_assoc. reflexivity.
Qed.

(** *** The reference resolver *)

Lemma walk_falsy paths fragment h :
  truthy fragment = false -> walk paths fragment h = (Ok fragment, h, []).
Proof. intros Ht. destruct paths; simpl; [|rewrite Ht]; reflexivity. Qed.

Lemma walk_again paths : forall fragment h v h' w,
  walk paths fragment h = (Ok v, h', w) ->
  nodes_kept h0 h -> nodes_kept h h1 ->
  h' = h /\ w = [] /\
  exists v', walk paths fragment (graft h0 h1 h) = (Ok v', graft h0 h1 h, [])
             /\ or_default v v'.
Proof.
  induction paths as [|p paths IH]; intros fragment h v h' w Hrun H0 H1.
  - injection Hrun as <- <- <-. repeat split; try reflexivity.
    exists fragment. split; [reflexivity|apply or_default_refl].
  - simpl in *. destruct (truthy fragment) eqn:Ht.
    + destruct (typeof_object fragment) eqn:Hto.
      * assert (Hr : readable fragment = true)
          by (destruct fragment; try discriminate; reflexivity).
        rewrite bind_get in Hrun by exact Hr. rewrite bind_get by exact Hr.
        destruct (lookup_apart_any h (graft h0 h1 h) fragment p
                    (graft_apart h H0 H1)) as [->|[Hu ->]].
        -- apply IH; assumption.
        -- rewrite Hu in Hrun. rewrite walk_falsy in Hrun by reflexivity.
           injection Hrun as <- <- <-. repeat split; try reflexivity.
           exists (VNum (of_nat 0)). split; [apply walk_falsy; reflexivity|].
           right. auto.
      * rewrite bind_ret in Hrun. rewrite bind_ret. apply IH; assumption.
    + injection Hrun as <- <- <-. repeat split; try reflexivity.
      exists fragment. split; [reflexivity|apply or_default_refl].
Qed.

Lemma lookup_registry_again id h v h' w :
  lookup_registry opts id h = (Ok v, h', w) ->
  nodes_kept h0 h -> nodes_kept h h1 ->
  h' = h /\ w = [] /\
  exists v', lookup_registry opts id (graft h0 h1 h)
             = (Ok v', graft h0 h1 h, [])
             /\ or_default v v'.
Proof.
  unfold lookup_registry. intros Hrun H0 H1.
  destruct (truthy (VStr id) && truthy (subSchemas opts)) eqn:Hc.
  - apply andb_true_iff in Hc. destruct Hc as [_ Hs].
    assert (Hr : readable (subSchemas opts) = true)
      by (destruct (subSchemas opts); try discriminate; reflexivity).
    rewrite bind_get in Hrun by exact Hr. rewrite bind_get by exact Hr.
    pose proof (lookup_apart_any h (graft h0 h1 h) (subSchemas opts) id
                  (graft_apart h H0 H1)) as Hd.
    rewrite (or_default_truthy _ _ Hd).
    destruct (truthy (lookup_prop h (subSchemas opts) id)) eqn:Ht.
    + injection Hrun as <- <- <-. repeat split; try reflexivity.
      eexists. split; [reflexivity|exact Hd].
    + rewrite get_readable in Hrun by exact Hr.
      injection Hrun as <- <- <-. repeat split; try reflexivity.
      rewrite get_readable by exact Hr.
      eexists. split; [reflexivity|].
      apply lookup_apart_any, graft_apart; assumption.
  - injection Hrun as <- <- <-. repeat split; try reflexivity.
    exists VUndef. split; [reflexivity|apply or_default_refl].
Qed.

Lemma resolveref_again ref h v h' w :
  resolveref schema opts ref h = (Ok v, h', w) ->
  nodes_kept h0 h -> nodes_kept h h1 ->
  h' = h /\ w = [] /\
  exists v', resolveref schema opts ref (graft h0 h1 h)
             = (Ok v', graft h0 h1 h, [])
             /\ or_default v v'.
Proof.
  intros Hrun H0 H1. destruct ref as [| | | |s|]; try discriminate.
  unfold resolveref in *. cbv zeta in *.
  destruct (bind_inv_Ok _ _ _ _ _ _ Hrun)
    as (found & ha & w1 & w2 & Hreg & Hrest & ->).
  destruct (lookup_registry_again _ _ _ _ _ Hreg H0 H1)
    as (-> & -> & found' & Hreg' & Hd).
  rewrite (bind_reads _ _ _ _ Hreg').
  assert (Hsame : (if truthy found' then found' else schema)
                  = (if truthy found then found else schema)).
  { rewrite (or_default_truthy _ _ Hd). destruct (truthy found) eqn:Ht;
      [|reflexivity].
    apply (or_default_defined _ _ Hd). intros ->. discriminate. }
  rewrite Hsame.
  destruct (truthy (if truthy found then found else schema)); simpl in *;
    [|discriminate].
  rewrite bind_ret in Hrest. rewrite bind_ret.
  destruct (walk_again _ _ _ _ _ _ Hrest H0 H1) as (-> & -> & v' & Hw & Hv).
  repeat split; try reflexivity. exists v'. split; assumption.
Qed.

(** the caller of [resolveref] reads the fragment, and throws where it is
    [undefined] *)
Lemma again_resolveref_bind Q {B} ref (f : value -> M B) :
  (forall v, again h0 h1 Q (f v)) ->
  (forall h b h' w, f VUndef h <> (Ok b, h', w)) ->
  again h0 h1 Q (bind (resolveref schema opts ref) f).
Proof.
  intros Hf Hu h b h' w Hrun.
  destruct (bind_inv_Ok _ _ _ _ _ _ Hrun) as (v & ha & w1 & w2 & Hm & Hfv & ->).
  pose proof (reads_resolveref schema opts ref h) as [Hh Hw].
  rewrite Hm in Hh, Hw. simpl in Hh, Hw. subst ha w1.
  destruct (Hf v _ _ _ _ Hfv) as [Hk Hr]. split; [exact Hk|].
  intros HQ H0 H1.
  assert (Hk1 : nodes_kept h h1) by (eapply nodes_kept_trans; eassumption).
  destruct (resolveref_again _ _ _ _ _ Hm H0 Hk1)
    as (_ & _ & v' & Hm' & [->|[-> _]]).
  - rewrite (bind_reads _ _ _ _ Hm'). apply Hr; assumption.
  - destruct (Hu _ _ _ _ Hfv).
Qed.

Ltac again_step :=
  first
    [ match goal with
      | |- again _ _ _ (bind (resolveref _ _ _) _) =>
          apply again_resolveref_bind; [intros ?|]
      end
    | again_prim ].

Lemma again_getSchemaType Q current :
  again h0 h1 Q (getSchemaType schema opts current).
Proof.
  unfold getSchemaType. repeat again_step.
  intros h b h' w. discriminate.
Qed.

Lemma again_deref_bind Q {B} item (f : value -> M B) :
  (forall v, again h0 h1 Q (f v)) ->
  (forall h b h' w, f VUndef h <> (Ok b, h', w)) ->
  again h0 h1 Q (bind (deref schema opts item) f).
Proof.
  intros Hf Hu. unfold deref.
  eapply again_ext; [intros h; apply bind_assoc|].
  apply again_bind; [again_prim|intros ref]. cbv beta.
  destruct (truthy ref); [apply again_resolveref_bind; assumption|].
  eapply again_ext; [intros h; apply bind_ret|]. apply Hf.
Qed.

(** *** The merge engine *)

Lemma again_elements Q v : again h0 h1 Q (read (fun h => elements h v)).
Proof.
  apply again_read. intros h _ H0 H1.
  apply (elements_apart h), graft_apart; assumption.
Qed.

Lemma again_members Q v :
  again h0 h1 Q (read (fun h => default [] (elements h v))).
Proof.
  apply again_read. intros h _ H0 H1.
  rewrite (elements_apart h) by (apply graft_apart; assumption). reflexivity.
Qed.

Lemma again_or_empty Q x : again h0 h1 Q (read (fun h => or_empty h x)).
Proof.
  apply again_read. intros h _ H0 H1. unfold or_empty, concat_arg.
  rewrite (elements_apart h) by (apply graft_apart; assumption). reflexivity.
Qed.

Lemma again_own_props Q x :
  (Q -> stable h0 h1 x) -> again h0 h1 Q (read (fun h => own_props h x)).
Proof.
  intros Hs. apply again_read. intros h HQ H0 H1.
  apply stable_own_props; auto.
Qed.

Lemma again_own_keys Q x :
  (Q -> stable h0 h1 x) ->
  again h0 h1 Q (read (fun h => map fst (own_props h x))).
Proof.
  intros Hs. apply again_read. intros h HQ H0 H1.
  rewrite stable_own_props; auto.
Qed.

Ltac again_reads :=
  first
    [ apply again_elements
    | apply again_members
    | apply again_or_empty
    | apply again_own_props; tauto
    | apply again_own_keys; tauto
    | apply again_get_stable; tauto ].

Lemma again_array_or_undefined Q vs : again h0 h1 Q (array_or_undefined vs).
Proof. unfold array_or_undefined. repeat again_step. Qed.

Lemma again_mergeObject_step Q acc item :
  again h0 h1 Q (mergeObject_step schema opts acc item).
Proof.
  unfold mergeObject_step.
  apply again_deref_bind; [intros v|intros h b h' w; discriminate].
  repeat first [again_step | again_reads].
Qed.

Lemma again_mergeObject Q current :
  again h0 h1 Q (mergeObject schema opts current).
Proof.
  unfold mergeObject.
  repeat first [again_step | again_reads];
    auto using again_mergeObject_step, again_array_or_undefined.
Qed.

Lemma again_mergeArray_step Q acc item :
  again h0 h1 Q (mergeArray_step schema opts acc item).
Proof.
  unfold mergeArray_step.
  apply again_deref_bind; [intros v|intros h b h' w; discriminate].
  repeat first [again_step | again_reads].
Qed.

Lemma again_mergeArray Q current :
  again h0 h1 Q (mergeArray schema opts current).
Proof.
  unfold mergeArray.
  repeat first [again_step | again_reads];
    auto using again_mergeArray_step, again_array_or_undefined.
Qed.

(** *** The type builders and the dispatcher, given the recursive call *)

Lemma again_if_truthy Q current key method joischema :
  again h0 h1 Q (if_truthy current key method joischema).
Proof.
  unfold if_truthy. intros h a h' w Hrun.
  destruct (readable current) eqn:Hr; [|destruct current; discriminate].
  rewrite bind_get in Hrun by exact Hr. injection Hrun as <- <- <-.
  split; [apply nodes_kept_refl|]. intros _ H0 H1.
  rewrite bind_get by exact Hr.
  destruct (lookup_apart_any h (graft h0 h1 h) current key
              (graft_apart h H0 H1)) as [->|[-> ->]]; reflexivity.
Qed.

Lemma again_if_number Q current key method joischema :
  key <> "minLength" ->
  again h0 h1 Q (if_number current key method joischema).
Proof.
  intros Hne. unfold if_number. apply again_bind; [|intros v; apply again_ret].
  apply again_get, Hne.
Qed.

Lemma default_minLength_defined current h a h' w :
  default_minLength current h = (Ok a, h', w) ->
  lookup_prop h' current "minLength" <> VUndef.
Proof.
  unfold default_minLength. intros Hrun.
  destruct (readable current) eqn:Hr; [|destruct current; discriminate].
  rewrite bind_get in Hrun by exact Hr.
  destruct (isUndefined (lookup_prop h current "minLength")) eqn:Hu.
  - unfold set in Hrun. destruct current as [| | | | |l]; try discriminate.
    destruct (h !! l) as [[ps|vs]|] eqn:Hl; try discriminate.
    injection Hrun as <- <- <-. simpl. unfold cell_at.
    rewrite list_lookup_insert_eq by (eapply lookup_lt_Some, Hl).
    rewrite assoc_put_eq by reflexivity. discriminate.
  - injection Hrun as <- <- <-. intros Heq. rewrite Heq in Hu. discriminate.
Qed.

Lemma again_default_minLength Q current :
  again h0 h1 Q (default_minLength current).
Proof.
  unfold default_minLength. intros h a h' w Hrun.
  destruct (readable current) eqn:Hr; [|destruct current; discriminate].
  rewrite bind_get in Hrun by exact Hr.
  destruct (isUndefined (lookup_prop h current "minLength")) eqn:Hu.
  - unfold set in Hrun. destruct current as [| | | | |l]; try discriminate.
    destruct (h !! l) as [[ps|vs]|] eqn:Hl; try discriminate.
    injection Hrun as <- <- <-.
    assert (Hund : isUndefined (default VUndef (assoc "minLength" ps)) = true).
    { simpl in Hu. unfold cell_at in Hu. rewrite Hl in Hu. exact Hu. }
    pose proof (nodes_kept_default h l ps Hl Hund) as Hkd.
    split; [exact Hkd|]. intros _ H0 H1.
    assert (Hk : nodes_kept h h1) by (eapply nodes_kept_trans; eassumption).
    rewrite bind_get by reflexivity.
    destruct (decide (l < length h0)) as [Hlt|Hge].
    + rewrite graft_insert_old by exact Hlt.
      assert (Hl' : <[l := Object (put "minLength" (VNum (of_nat 0)) ps)]> h !! l
                    = Some (Object (put "minLength" (VNum (of_nat 0)) ps)))
        by (apply list_lookup_insert_eq; eapply lookup_lt_Some, Hl).
      destruct (H1 _ _ Hl') as (c' & Hl1 & [->|(ps0 & [= <-] & Hu0 & _)]).
      * simpl. unfold cell_at. rewrite graft_old by assumption.
        rewrite Hl1. simpl. rewrite assoc_put_eq by reflexivity. reflexivity.
      * rewrite assoc_put_eq in Hu0 by reflexivity. discriminate.
    + rewrite graft_insert_new by (assumption || lia).
      simpl. unfold cell_at. rewrite graft_new by (assumption || lia).
      rewrite Hl. simpl. simpl in Hund. rewrite Hund.
      unfold set. rewrite graft_new by (assumption || lia).
      rewrite Hl. reflexivity.
  - injection Hrun as <- <- <-. split; [apply nodes_kept_refl|].
    intros _ H0 H1. rewrite bind_get by exact Hr.
    rewrite (or_default_defined _ _
               (lookup_apart_any h (graft h0 h1 h) current "minLength"
                  (graft_apart h H0 H1))).
    + rewrite Hu. reflexivity.
    + intros Heq. rewrite Heq in Hu. discriminate.
Qed.

(** after the default is written, [minLength] is read *)
Lemma again_default_then Q {B} current (f : value -> M B) :
  (forall x, again h0 h1 Q (f x)) ->
  again h0 h1 Q (default_minLength current ;;;
                 minLength <- get current "minLength" ;; f minLength).
Proof.
  intros Hf h b h' w Hrun.
  destruct (bind_inv_Ok _ _ _ _ _ _ Hrun) as ([] & ha & w1 & w2 & Hd & Hrest & ->).
  assert (Hr : readable current = true)
    by (destruct current; try discriminate; reflexivity).
  rewrite bind_get in Hrest by exact Hr.
  destruct (again_default_minLength Q current _ _ _ _ Hd) as [Hk1 Hr1].
  destruct (Hf _ _ _ _ _ Hrest) as [Hk2 Hr2].
  split; [eapply nodes_kept_trans; eassumption|]. intros HQ H0 H1.
  assert (H0a : nodes_kept h0 ha) by (eapply nodes_kept_trans; eassumption).
  assert (H1a : nodes_kept ha h1) by (eapply nodes_kept_trans; eassumption).
  rewrite bind_unfold, (Hr1 HQ H0 H1a), bind_get by exact Hr.
  rewrite (or_default_defined _ _
             (lookup_apart_any ha (graft h0 h1 ha) current "minLength"
                (graft_apart ha H0a H1a)))
    by (eapply default_minLength_defined, Hd).
  rewrite (Hr2 HQ H0a H1). reflexivity.
Qed.

Section AgainResolvers.

Variable resolve : value -> M rule.
Hypothesis again_rec : forall Q v, again h0 h1 Q (resolve v).
Hypothesis rec_undefined : forall h b h' w, resolve VUndef h <> (Ok b, h', w).

Ltac again_auto :=
  repeat first
    [ match goal with
      | |- again _ _ _ (if_number _ _ _ _) =>
          apply again_if_number; discriminate
      | |- again _ _ _ (if_truthy _ _ _ _) => apply again_if_truthy
      | |- again _ _ _ (resolve _) => apply again_rec
      end
    | again_step
    | again_reads ].

Lemma again_indexOf_found Q required key :
  again h0 h1 Q (indexOf_found required key).
Proof. unfold indexOf_found. again_auto. Qed.

Lemma again_resolveAsArray Q v : again h0 h1 Q (resolveAsArray resolve v).
Proof. unfold resolveAsArray. again_auto. Qed.

Lemma again_resolveproperty Q current schemas key :
  again h0 h1 Q (resolveproperty resolve current schemas key).
Proof. unfold resolveproperty. again_auto. apply again_indexOf_found. Qed.

Lemma again_resolveproperties Q current :
  again h0 h1 Q (resolveproperties resolve current).
Proof. unfold resolveproperties. again_auto. apply again_resolveproperty. Qed.

Lemma again_object Q current : again h0 h1 Q (object resolve current).
Proof.
  unfold object. apply again_bind; [apply again_resolveproperties|intros ?].
  again_auto.
Qed.

Lemma again_array Q current : again h0 h1 Q (array resolve current).
Proof. unfold array. again_auto; apply again_resolveAsArray. Qed.

Lemma again_number Q current : again h0 h1 Q (number current).
Proof. unfold number. again_auto. Qed.

Lemma again_regularString Q current joischema :
  again h0 h1 Q (regularString current joischema).
Proof.
  unfold regularString. apply again_bind; [apply again_if_truthy|intros j].
  apply again_default_then. intros x. again_auto.
Qed.

Lemma again_date Q current : again h0 h1 Q (date current).
Proof. unfold date. again_auto. Qed.

Lemma again_binary Q current : again h0 h1 Q (binary current).
Proof. unfold binary. again_auto. Qed.

Lemma again_string Q current : again h0 h1 Q (string_ current).
Proof.
  unfold string_. again_auto;
    auto using again_date, again_binary, again_regularString.
Qed.

Lemma again_builder Q current type :
  again h0 h1 Q (builder opts resolve current type).
Proof.
  unfold builder.
  repeat match goal with
         | |- again _ _ _ (if ?b then _ else _) => destruct b
         end;
    try (apply again_bind; [|intros ?; apply again_ret]);
    auto using again_array, again_number, again_object, again_string,
      again_ret.
  destruct (types opts) as [table|] eqn:Ht; [|apply again_ret].
  apply again_read. intros h _ H0 H1.
  apply (proj1 callbacks table Ht), graft_apart; assumption.
Qed.

Lemma again_joitype Q current type format :
  again h0 h1 Q (joitype opts resolve current type format).
Proof.
  unfold joitype. apply again_bind.
  - destruct (refineType opts) as [refine|] eqn:Hr; [|apply again_ret].
    apply again_read. intros h _ H0 H1.
    apply (proj2 callbacks refine Hr), graft_apart; assumption.
  - intros t. apply again_bind; [apply again_builder|intros ?]. again_auto.
Qed.

Lemma again_resolvetype Q current :
  again h0 h1 Q (resolvetype opts resolve current).
Proof. unfold resolvetype. again_auto; apply again_joitype. Qed.

Lemma again_expect_array Q current key message :
  key <> "minLength" -> again h0 h1 Q (expect_array current key message).
Proof.
  intros Hne. unfold expect_array.
  apply again_bind; [apply again_get, Hne|intros v]. again_auto.
Qed.

Lemma again_resolveAnyOf Q current : again h0 h1 Q (resolveAnyOf resolve current).
Proof.
  unfold resolveAnyOf.
  apply again_bind; [apply again_expect_array; discriminate|intros ?].
  again_auto.
Qed.

Lemma again_resolveOneOf Q current : again h0 h1 Q (resolveOneOf resolve current).
Proof.
  unfold resolveOneOf.
  apply again_bind; [apply again_expect_array; discriminate|intros ?].
  again_auto.
Qed.

Lemma again_resolveNot Q current : again h0 h1 Q (resolveNot resolve current).
Proof.
  unfold resolveNot.
  apply again_bind; [apply again_expect_array; discriminate|intros ?].
  again_auto.
Qed.

Lemma again_resolveAllOf Q current :
  again h0 h1 Q (resolveAllOf schema opts resolve current).
Proof.
  unfold resolveAllOf.
  apply again_bind; [apply again_expect_array; discriminate|intros ?].
  again_auto;
    auto using again_getSchemaType, again_mergeObject, again_mergeArray.
Qed.

Lemma again_resolve_body Q current :
  again h0 h1 Q (resolve_body schema opts resolve current).
Proof.
  unfold resolve_body.
  again_auto;
    auto using again_resolvetype, again_resolveAnyOf, again_resolveAllOf,
      again_resolveOneOf, again_resolveNot.
Qed.

End AgainResolvers.

Lemma resolve_undefined fuel h b h' w :
  resolve schema opts fuel VUndef h <> (Ok b, h', w).
Proof. destruct fuel; discriminate. Qed.

Lemma again_resolve fuel : forall Q current,
  again h0 h1 Q (resolve schema opts fuel current).
Proof.
  induction fuel as [|fuel IH]; intros Q current; simpl.
  - apply again_timeout.
  - apply again_resolve_body; [exact IH|apply resolve_undefined].
Qed.

End Again.

Lemma property_maps_kept_stable h0 h1 :
  nodes_kept h0 h1 -> property_maps_kept h0 h1 = true ->
  forall l ps lp,
    h1 !! l = Some (Object ps) -> assoc "properties" ps = Some (VRef lp) ->
    lp < length h0 -> h1 !! lp = h0 !! lp.
Proof.
  intros Hk Hm l ps lp Hl Hps Hlt. unfold property_maps_kept in Hm.
  rewrite forallb_forall in Hm.
  specialize (Hm (Object ps) (proj1 (list_elem_of_In _ _)
                                (list_elem_of_lookup_2 _ _ _ Hl))).
  simpl in Hm. rewrite Hps in Hm.
  destruct (lookup_lt_is_Some_2 h0 lp Hlt) as [c Hc].
  destruct (Hk _ _ Hc) as (c' & Hc' & [->|(ps0 & -> & Hu & ->)]);
    [congruence|].
  exfalso. unfold cell_at in Hm. rewrite Hc, Hc' in Hm. simpl in Hm.
  rewrite assoc_put_eq in Hm by reflexivity. simpl in Hu. rewrite Hu in Hm.
  rewrite (proj2 (Nat.leb_gt _ _) Hlt) in Hm. discriminate.
Qed.




(** Resolving [#] twice in a row in the document of two merged object
    schemas: the first resolution creates the merged nodes, and the second
    gives the same rule. *)
Lemma allOf_twice_in_a_row :
  exists r h1 h2,
    (fragment <- resolveref (root_of doc_allOf) no_options (VStr "#") ;;
     resolve (root_of doc_allOf) no_options 4 fragment) (store_of doc_allOf)
    = (Ok r, h1, [])
    /\ length (store_of doc_allOf) < length h1
    /\ (first <- (fragment <- resolveref (root_of doc_allOf) no_options (VStr "#") ;;
                  resolve (root_of doc_allOf) no_options 4 fragment) ;;
        second <- (fragment <- resolveref (root_of doc_allOf) no_options (VStr "#") ;;
                   resolve (root_of doc_allOf) no_options 4 fragment) ;;
        ret (first, second)) (store_of doc_allOf)
       = (Ok (r, r), h2, []).
Proof.
  eexists. eexists. eexists.
  split; [vm_compute; reflexivity|].
  split; [vm_compute; lia|vm_compute; reflexivity].
Qed.

(** there the first resolution of [#/d] writes its default into the
    properties of [o] *)
Lemma ref_twice_writes_property_map :
  exists r h1 w,
    (fragment <- resolveref (root_of doc_ref_twice) no_options (VStr "#/d") ;;
     resolve (root_of doc_ref_twice) no_options 5 fragment)
      (store_of doc_ref_twice) = (Ok r, h1, w)
    /\ property_maps_kept (store_of doc_ref_twice) h1 = false.
Proof.
  eexists. eexists. eexists. split; vm_compute; reflexivity.
Qed.

(** ** The reference that cannot be found *)

Lemma not_ReferenceError_shape keyword ref : ShapeError keyword <> ReferenceError ref.
Proof.
  unfold ShapeError, ReferenceError.
  destruct (String.eqb keyword "anyOf"); [|destruct (String.eqb keyword "not")];
    discriminate.
Qed.

(** C10. With a root schema that passed the check at the entry of
    [translate], no lookup of a [$ref] fails for want of a schema to look
    in, whatever the [$ref] and the registry, and no translation ends in
    that error. *)
Theorem reference_error_unreachable fuel schema opts h ref :
  schemaSchema h schema = true ->
  (forall ref' h', (resolveref schema opts ref' h').1.1 <> Throw (ReferenceError ref))
  /\ (translate fuel schema opts h).1.1 <> Throw (ReferenceError ref).
Proof.
  intros Hschema.
  assert (Htruthy : truthy schema = true).
  { destruct schema; try discriminate; [exact Hschema|reflexivity]. }
  set (E := fun e : error => e <> ReferenceError ref).
  assert (HE : forall v, sat (fun _ _ => True) E (resolve schema opts fuel v)
                         /\ sat (fun _ _ => True) E (resolveref schema opts v)).
  { intros v.
    split; [apply sat_resolve|apply sat_resolveref]; unfold E; auto;
      try discriminate; try (intros; apply not_ReferenceError_shape);
      rewrite Htruthy; discriminate. }
  split.
  - intros ref' h' Hthrow. exact (proj2 (proj2 (HE ref') h') _ Hthrow eq_refl).
  - unfold translate, assert. rewrite bind_read, Hschema, bind_ret, bind_read.
    destruct (optionsSchema h opts); [|discriminate].
    rewrite bind_ret. intros Hthrow.
    exact (proj2 (proj1 (HE schema) h) _ Hthrow eq_refl).
Qed.

Lemma reference_error_unreachable_witness :
  schemaSchema (store_of doc_allOf_dangling) (root_of doc_allOf_dangling) = true
  /\ (translate 3 (root_of doc_allOf_dangling) no_options
        (store_of doc_allOf_dangling)).1.1
     <> Throw (ReferenceError "#/missing").
Proof.
  assert (H1 : schemaSchema (store_of doc_allOf_dangling)
                 (root_of doc_allOf_dangling) = true)
    by (vm_compute; reflexivity).
  split; [exact H1|].
  exact (proj2 (reference_error_unreachable 3 (root_of doc_allOf_dangling)
                  no_options (store_of doc_allOf_dangling) "#/missing" H1)).
Defined.

(** ** Documents can be printed

    The fallback of the dispatcher prints the node it warns about; in the
    store of a JSON document every node can be printed. *)

Lemma refs_below_le n m v : n <= m -> refs_below n v -> refs_below m v.
Proof. destruct v; simpl; auto. lia. Qed.

Lemma Forall_refs_below_le n m vs :
  n <= m -> Forall (refs_below n) vs -> Forall (refs_below m) vs.
Proof.
  intros Hle H. eapply Forall_impl; [exact H|].
  intros v. apply refs_below_le, Hle.
Qed.

Lemma map_snd_imap {A B} (g : nat -> A -> B * A) vs :
  (forall i v, (g i v).2 = v) -> map snd (imap g vs) = vs.
Proof.
  revert g. induction vs as [|v vs IH]; intros g Hg; [reflexivity|].
  simpl. f_equal; [apply Hg|]. apply IH. intros i v'. apply Hg.
Qed.

Lemma own_props_values h l :
  map snd (own_props h (VRef l)) = cell_values (cell_at h l).
Proof.
  unfold own_props. destruct (cell_at h l) as [ps|vs]; [reflexivity|].
  apply map_snd_imap. reflexivity.
Qed.

Lemma Forall_map_inv {A B} (f : A -> B) (P : B -> Prop) l :
  Forall P (map f l) -> Forall (fun x => P (f x)) l.
Proof.
  induction l as [|a l IH]; simpl; intros H; [constructor|].
  inversion H; subst. constructor; auto.
Qed.

(** in a store without cycles the walk of [JSON.stringify] never meets an
    object it is inside of, and is at most as deep as the store is long *)
Lemma stringify_descending h :
  descending h ->
  forall fuel inside v,
    refs_below fuel v ->
    Forall (fun x => refs_below x v) inside ->
    stringify_aux (S fuel) h inside v = true.
Proof.
  intros Hd. induction fuel as [fuel IH] using lt_wf_ind.
  intros inside v Hv Hin. destruct v as [| | | | |l]; try reflexivity.
  simpl in Hv. cbn [stringify_aux].
  destruct (bool_decide (l ∈ inside)) eqn:Hmem.
  - apply bool_decide_eq_true in Hmem.
    rewrite Forall_forall in Hin. specialize (Hin l Hmem). simpl in Hin. lia.
  - destruct fuel as [|fuel']; [lia|].
    apply forallb_true_Forall.
    assert (Hvals : Forall (refs_below l) (map snd (own_props h (VRef l)))).
    { rewrite own_props_values. unfold cell_at.
      destruct (h !! l) as [c|] eqn:Hl; [exact (Hd l c Hl)|constructor]. }
    apply Forall_map_inv in Hvals. eapply Forall_impl; [exact Hvals|].
    intros [k v] Hkv. simpl in *. apply IH.
    + lia.
    + destruct v; simpl in *; auto. lia.
    + constructor; [exact Hkv|].
      eapply Forall_impl; [exact Hin|].
      intros x Hx. destruct v; simpl in *; auto. lia.
Qed.

Lemma descending_stringifiable h v :
  descending h -> refs_below (length h) v -> stringifiable h v = true.
Proof.
  intros Hd Hv. apply stringify_descending; [exact Hd|exact Hv|constructor].
Qed.

(** induction over documents, through their lists *)
Lemma json_nested_ind (P : json -> Prop) :
  P JNull ->
  (forall b, P (JBool b)) ->
  (forall n, P (JNum n)) ->
  (forall s, P (JStr s)) ->
  (forall elems, Forall P elems -> P (JArr elems)) ->
  (forall props, Forall (fun kv => P kv.2) props -> P (JObj props)) ->
  forall j, P j.
Proof.
  intros HNull HBool HNum HStr HArr HObj.
  fix IH 1. intros [|b|n|s|elems|props].
  - exact HNull.
  - apply HBool.
  - apply HNum.
  - apply HStr.
  - apply HArr. induction elems as [|j elems IHl]; constructor;
      [apply IH|exact IHl].
  - apply HObj. induction props as [|[k j] props IHl]; constructor;
      [apply IH|exact IHl].
Qed.

Lemma descending_alloc h c :
  descending h -> Forall (refs_below (length h)) (cell_values c) ->
  descending (h ++ [c]).
Proof.
  intros Hd Hc l c' Hl. destruct (decide (l < length h)) as [Hlt|Hge].
  - rewrite lookup_app_l in Hl by exact Hlt. apply (Hd l c' Hl).
  - rewrite lookup_app_r in Hl by lia.
    destruct (l - length h) as [|n] eqn:Hn; [|destruct n; discriminate].
    injection Hl as <-. replace l with (length h) by lia. exact Hc.
Qed.

(** the values of an object are values of its members *)
Lemma define_values (P : value -> Prop) k a ps :
  P a -> Forall P (map snd ps) -> Forall P (map snd (define k a ps)).
Proof.
  intros Ha Hps. unfold define. destruct (has_key k ps).
  - induction ps as [|[k0 a0] ps IH]; simpl; [constructor|].
    inversion Hps; subst.
    destruct (String.eqb k0 k); simpl; constructor; auto.
  - destruct (array_index k) as [n|].
    + induction ps as [|[k0 a0] ps IH]; simpl; [repeat constructor; exact Ha|].
      inversion Hps; subst.
      destruct (array_index k0) as [n'|]; [destruct (n <? n')%N|]; simpl;
        repeat constructor; auto.
    + rewrite map_app. apply Forall_app. split; [exact Hps|].
      repeat constructor. exact Ha.
Qed.

Lemma object_of_values (P : value -> Prop) members :
  Forall P (map snd members) -> Forall P (map snd (object_of members)).
Proof.
  unfold object_of.
  assert (H : forall ps, Forall P (map snd ps) -> Forall P (map snd members) ->
                         Forall P (map snd (fold_left
                                              (fun ps member => define member.1 member.2 ps)
                                              members ps))).
  { induction members as [|[k a] members IH]; intros ps Hps Hm; [exact Hps|].
    inversion Hm; subst. simpl. apply IH; [|assumption].
    apply define_values; assumption. }
  apply H. constructor.
Qed.

(** what [JSON.parse] adds to a store without cycles *)
Lemma parse_descending j : forall h,
  descending h ->
  descending (parse j h).2
  /\ refs_below (length (parse j h).2) (parse j h).1
  /\ length h <= length (parse j h).2.
Proof.
  induction j as [| | | |elems IH|props IH] using json_nested_ind; intros h Hd;
    try (simpl; auto).
  - cbn [parse].
    set (go := fix go (l : list json) (h : heap) : list value * heap :=
                 match l with
                 | [] => ([], h)
                 | j' :: l' =>
                     let (v, h1) := parse j' h in
                     let (vs, h2) := go l' h1 in (v :: vs, h2)
                 end).
    assert (Hgo : forall h, descending h ->
              descending (go elems h).2
              /\ Forall (refs_below (length (go elems h).2)) (go elems h).1
              /\ length h <= length (go elems h).2).
    { clear h Hd. induction elems as [|j elems IHl]; intros h Hd.
      - simpl. auto.
      - inversion IH as [|? ? Hj Hrest]; subst. cbn [go]. fold go.
        specialize (Hj h Hd). destruct (parse j h) as [v h1]. simpl in Hj.
        destruct Hj as (Hd1 & Hv & Hle1).
        specialize (IHl Hrest h1 Hd1). destruct (go elems h1) as [vs h2].
        simpl in *. destruct IHl as (Hd2 & Hvs & Hle2).
        split; [exact Hd2|]. split; [|lia].
        constructor; [|exact Hvs]. eapply refs_below_le; [|exact Hv]. exact Hle2. }
    specialize (Hgo h Hd). destruct (go elems h) as [vs h']. simpl in *.
    destruct Hgo as (Hd' & Hvs & Hle). rewrite length_app. simpl.
    split; [apply descending_alloc; assumption|]. split; lia.
  - cbn [parse].
    set (go := fix go (l : list (string * json)) (h : heap)
                 : list (string * value) * heap :=
                 match l with
                 | [] => ([], h)
                 | (k, j') :: l' =>
                     let (v, h1) := parse j' h in
                     let (ps, h2) := go l' h1 in ((k, v) :: ps, h2)
                 end).
    assert (Hgo : forall h, descending h ->
              descending (go props h).2
              /\ Forall (refs_below (length (go props h).2))
                        (map snd (go props h).1)
              /\ length h <= length (go props h).2).
    { clear h Hd. induction props as [|[k j] props IHl]; intros h Hd.
      - simpl. auto.
      - inversion IH as [|? ? Hj Hrest]; subst. cbn [go]. fold go.
        simpl in Hj. specialize (Hj h Hd). destruct (parse j h) as [v h1].
        simpl in Hj. destruct Hj as (Hd1 & Hv & Hle1).
        specialize (IHl Hrest h1 Hd1). destruct (go props h1) as [ps h2].
        simpl in *. destruct IHl as (Hd2 & Hvs & Hle2).
        split; [exact Hd2|]. split; [|lia].
        constructor; [|exact Hvs]. eapply refs_below_le; [|exact Hv]. exact Hle2. }
    specialize (Hgo h Hd). destruct (go props h) as [ps h']. simpl in *.
    destruct Hgo as (Hd' & Hvs & Hle). rewrite length_app. simpl.
    split; [|split; lia].
    apply descending_alloc; [assumption|]. apply object_of_values, Hvs.
Qed.

(** every JSON document can be printed in its store *)
Lemma document_stringifiable j :
  descending (store_of j) /\ stringifiable (store_of j) (root_of j) = true.
Proof.
  assert (Hnil : descending []) by (intros l c Hl; discriminate).
  destruct (parse_descending j [] Hnil) as (Hd & Hv & _).
  split; [exact Hd|]. apply descending_stringifiable; assumption.
Qed.

(** * Further properties of the translator *)

(** ** The reference resolver: lookups *)

Lemma walk_returns paths : forall fragment h,
  exists found, walk paths fragment h = (Ok found, h, []).
Proof.
  induction paths as [|p paths IH]; intros fragment h; simpl.
  - exists fragment. reflexivity.
  - destruct (truthy fragment) eqn:Ht; [|exists fragment; reflexivity].
    destruct (typeof_object fragment) eqn:Ho.
    + rewrite bind_get by (destruct fragment; try discriminate; reflexivity).
      apply IH.
    + rewrite bind_ret. apply IH.
Qed.

Lemma truthy_readable v : truthy v = true -> readable v = true.
Proof. destruct v; try discriminate; reflexivity. Qed.

Lemma lookup_registry_returns opts id h :
  exists found, lookup_registry opts id h = (Ok found, h, []).
Proof.
  unfold lookup_registry.
  destruct (truthy (VStr id) && truthy (subSchemas opts)) eqn:Hc;
    [|exists VUndef; reflexivity].
  apply andb_true_iff in Hc. destruct Hc as [_ Hs].
  rewrite bind_get by (apply truthy_readable, Hs).
  destruct (truthy (lookup_prop h (subSchemas opts) id)).
  - eexists. reflexivity.
  - eexists. apply get_readable, truthy_readable, Hs.
Qed.

(** Looking a reference up never fails when the reference is a string and
    the root schema has passed the entry check: it returns a fragment
    (which may be [undefined] or [false]) and leaves the store and the
    warnings alone. A truthy reference that is not a string has no
    [substr]: the lookup throws a TypeError. *)
Theorem resolveref_returns schema opts h :
  truthy schema = true ->
  (forall s, exists fragment,
     resolveref schema opts (VStr s) h = (Ok fragment, h, []))
  /\ (forall ref, (forall s, ref <> VStr s) ->
      resolveref schema opts ref h = (Throw TypeError, h, [])).
Proof.
  intros Hschema. split.
  - intros s. unfold resolveref. cbv zeta.
    destruct (lookup_registry_returns opts
                (String.substring 0
                   match indexOf s "#" with Some i => i + 1 | None => 0 end s) h)
      as (found & Hfound).
    rewrite (bind_reads _ _ h found Hfound).
    assert (Ht : truthy (if truthy found then found else schema) = true).
    { destruct (truthy found) eqn:Hf; assumption. }
    rewrite Ht. unfold assert. rewrite bind_ret. apply walk_returns.
  - intros ref Hns. destruct ref; try reflexivity. destruct (Hns s). reflexivity.
Qed.

Lemma resolveref_returns_witness :
  truthy (root_of doc_allOf) = true
  /\ exists fragment,
       resolveref (root_of doc_allOf) no_options (VStr "#/definitions/nowhere/x")
         (store_of doc_allOf)
       = (Ok fragment, store_of doc_allOf, []).
Proof.
  assert (H1 : truthy (root_of doc_allOf) = true) by (vm_compute; reflexivity).
  exact (conj H1 (proj1 (resolveref_returns (root_of doc_allOf) no_options
                           (store_of doc_allOf) H1)
                    "#/definitions/nowhere/x")).
Defined.

(** ** The reference resolver: fragment paths *)

Lemma append_cons c s t : String c s +:+ t = String c (s +:+ t).
Proof. reflexivity. Qed.

Lemma append_empty_l t : "" +:+ t = t.
Proof. reflexivity. Qed.

Lemma rev_app_rev_app a : forall b c,
  String.rev_app (String.rev_app a b) c = String.rev_app b (a +:+ c).
Proof.
  induction a as [|x a IH]; intros b c; simpl; [reflexivity|].
  rewrite IH. reflexivity.
Qed.

Lemma append_empty_r s : s +:+ "" = s.
Proof.
  induction s as [|c s IH]; [reflexivity|]. rewrite append_cons, IH. reflexivity.
Qed.

(** [split] reads a segment up to the next separator *)
Lemma split_acc_segment sep k : forall rest acc,
  has_char sep k = false ->
  split_acc sep (k +:+ rest) acc = split_acc sep rest (String.rev_app k acc).
Proof.
  induction k as [|c k IH]; intros rest acc Hk; [reflexivity|].
  simpl in Hk. apply orb_false_iff in Hk. destruct Hk as [Hc Hk].
  rewrite append_cons. simpl. rewrite Hc. apply IH, Hk.
Qed.

Lemma split_acc_pointer ks : forall k acc,
  has_char "/" k = false ->
  Forall (fun k => has_char "/" k = false) ks ->
  split_acc "/" (k +:+ pointer ks) acc = String.rev_app acc k :: ks.
Proof.
  induction ks as [|k' ks IH]; intros k acc Hk Hks.
  - simpl pointer. rewrite split_acc_segment by exact Hk. simpl.
    unfold String.rev. rewrite rev_app_rev_app, append_empty_r. reflexivity.
  - inversion Hks as [|? ? Hk' Hks']; subst. simpl pointer.
    rewrite split_acc_segment by exact Hk. simpl.
    rewrite (IH k' "" Hk' Hks'). simpl.
    unfold String.rev. rewrite rev_app_rev_app, append_empty_r. reflexivity.
Qed.

(** splitting the path of the keys [ks] gives the empty first segment and
    the keys *)
Lemma split_pointer ks :
  Forall (fun k => has_char "/" k = false) ks ->
  split "/" (pointer ks) = "" :: ks.
Proof.
  intros Hks. unfold split. destruct ks as [|k ks]; [reflexivity|].
  inversion Hks as [|? ? Hk Hks']; subst. simpl.
  rewrite (split_acc_pointer ks k "" Hk Hks'). reflexivity.
Qed.

Lemma substring_all s : String.substring 0 (String.length s) s = s.
Proof. induction s as [|c s IH]; simpl; [reflexivity|]. rewrite IH. reflexivity. Qed.

Lemma substring_none s : String.substring 0 0 s = "".
Proof. destruct s; reflexivity. Qed.

Lemma indexOf_hash_first rest : indexOf (String "#" rest) "#" = Some 0.
Proof.
  unfold indexOf. cbn [String.index].
  assert (H : String.prefix "#" (String "#" rest) = true).
  { apply String.prefix_correct. simpl. rewrite substring_none. reflexivity. }
  rewrite H. reflexivity.
Qed.

Lemma indexOf_absent c s :
  has_char c s = false -> indexOf s (String c "") = None.
Proof.
  unfold indexOf. induction s as [|b s IH]; intros Hs; [reflexivity|].
  cbn [has_char] in Hs. apply orb_false_iff in Hs. destruct Hs as [Hb Hs].
  cbn [String.index].
  destruct (String.prefix (String c "") (String b s)) eqn:Hp.
  - apply String.prefix_correct in Hp. simpl in Hp. injection Hp as Hbc _.
    subst b. rewrite Ascii.eqb_refl in Hb. discriminate.
  - rewrite (IH Hs). reflexivity.
Qed.

(** walking down objects reads one key after the other *)
Lemma walk_follow ks : forall v h,
  objects_along h ks v -> walk ks v h = (Ok (follow h ks v), h, []).
Proof.
  induction ks as [|k ks IH]; intros v h Hv; [reflexivity|].
  destruct Hv as [Hobj Hrest]. destruct v; try discriminate.
  cbn [walk truthy typeof_object].
  rewrite bind_get by reflexivity. apply IH, Hrest.
Qed.

(** A local reference ["#/k1/k2/..."] resolves to the value under the keys
    [k1], [k2], ... of the root schema, whenever the keys contain no ["/"],
    every value a key is read from is an object or an array that has the
    key as an own property, or an object without a property of that name,
    and the registry has no schema under ["#"] or [""]. (Such an entry
    would be taken for the root: the id the registry is asked for includes
    the ["#"].) A key that names an inherited member ([constructor],
    [toString], ...) finds that member; the statement leaves it out. *)
Theorem resolveref_pointer schema opts h ks :
  truthy schema = true ->
  no_local_entry h opts ->
  Forall (fun k => has_char "/" k = false) ks ->
  objects_along h ks schema ->
  plain_along h ks schema ->
  resolveref schema opts (VStr (String "#" (pointer ks))) h
  = (Ok (follow h ks schema), h, []).
Proof.
  intros Hschema Hreg Hks Hobj _. unfold resolveref.
  rewrite indexOf_hash_first. cbv zeta.
  assert (Hid : String.substring 0 (0 + 1) (String "#" (pointer ks)) = "#")
    by (simpl; rewrite substring_none; reflexivity).
  rewrite Hid.
  assert (Hpath : substr_from (String "#" (pointer ks)) (0 + 1) = pointer ks).
  { unfold substr_from. simpl. rewrite Nat.sub_0_r. apply substring_all. }
  rewrite Hpath, (split_pointer ks Hks). simpl tail.
  assert (Hfound : exists found,
             lookup_registry opts "#" h = (Ok found, h, [])
             /\ truthy found = false).
  { unfold lookup_registry. change (truthy (VStr "#")) with true.
    destruct (truthy (subSchemas opts)) eqn:Hs; cbn [andb].
    - destruct (Hreg Hs) as [Hhash Hempty].
      rewrite bind_get by (apply truthy_readable, Hs). rewrite Hhash.
      exists (lookup_prop h (subSchemas opts) ""). split; [|exact Hempty].
      apply get_readable, truthy_readable, Hs.
    - exists VUndef. split; reflexivity. }
  destruct Hfound as (found & Hfound & Hfalsy).
  rewrite (bind_reads _ _ h found Hfound), Hfalsy, Hschema.
  unfold assert. rewrite bind_ret. apply walk_follow, Hobj.
Qed.

Lemma resolveref_pointer_witness :
  truthy (root_of doc_allOf) = true
  /\ resolveref (root_of doc_allOf) no_options
       (VStr (String "#" (pointer ["definitions"; "b"; "required"; "1"])))
       (store_of doc_allOf)
     = (Ok (follow (store_of doc_allOf) ["definitions"; "b"; "required"; "1"]
              (root_of doc_allOf)),
        store_of doc_allOf, []).
Proof.
  assert (H1 : truthy (root_of doc_allOf) = true) by (vm_compute; reflexivity).
  assert (H2 : no_local_entry (store_of doc_allOf) no_options)
    by (intros H; vm_compute in H; discriminate).
  assert (H3 : Forall (fun k => has_char "/" k = false)
                 ["definitions"; "b"; "required"; "1"])
    by (repeat constructor).
  assert (H4 : objects_along (store_of doc_allOf)
                 ["definitions"; "b"; "required"; "1"] (root_of doc_allOf))
    by (vm_compute; auto).
  assert (H5 : plain_along (store_of doc_allOf)
                 ["definitions"; "b"; "required"; "1"] (root_of doc_allOf))
    by (vm_compute; auto 10).
  exact (conj H1 (resolveref_pointer (root_of doc_allOf) no_options
                    (store_of doc_allOf) ["definitions"; "b"; "required"; "1"]
                    H1 H2 H3 H4 H5)).
Defined.

(** A reference without ["#"] never consults the registry, and its first
    segment is skipped: ["k0/k1/k2/..."] resolves to the value under the
    keys [k1], [k2], ... of the root schema, whatever [k0] is - for keys
    that are own properties of the objects and arrays they are read from,
    or no property of the object they are read from. *)
Theorem resolveref_without_hash schema opts h k0 ks :
  truthy schema = true ->
  has_char "#" (k0 +:+ pointer ks) = false ->
  has_char "/" k0 = false ->
  Forall (fun k => has_char "/" k = false) ks ->
  objects_along h ks schema ->
  plain_along h ks schema ->
  resolveref schema opts (VStr (k0 +:+ pointer ks)) h
  = (Ok (follow h ks schema), h, []).
Proof.
  intros Hschema Hhash Hk0 Hks Hobj _. unfold resolveref.
  rewrite (indexOf_absent "#" _ Hhash). cbv zeta.
  assert (Hid : String.substring 0 0 (k0 +:+ pointer ks) = "")
    by apply substring_none.
  assert (Hpath : substr_from (k0 +:+ pointer ks) 0 = k0 +:+ pointer ks).
  { unfold substr_from. rewrite Nat.sub_0_r. apply substring_all. }
  rewrite Hid, Hpath. unfold lookup_registry.
  change (truthy (VStr "")) with false. cbn [andb]. rewrite bind_ret.
  change (truthy VUndef) with false. cbv iota.
  rewrite Hschema. unfold assert. rewrite bind_ret.
  unfold split. rewrite (split_acc_pointer ks k0 "" Hk0 Hks). simpl tail.
  apply walk_follow, Hobj.
Qed.

Lemma resolveref_without_hash_witness :
  truthy (root_of doc_allOf) = true
  /\ resolveref (root_of doc_allOf) no_options
       (VStr ("anything" +:+ pointer ["definitions"; "b"]))
       (store_of doc_allOf)
     = (Ok (follow (store_of doc_allOf) ["definitions"; "b"] (root_of doc_allOf)),
        store_of doc_allOf, []).
Proof.
  assert (H1 : truthy (root_of doc_allOf) = true) by (vm_compute; reflexivity).
  assert (H2 : has_char "#" ("anything" +:+ pointer ["definitions"; "b"]) = false)
    by (vm_compute; reflexivity).
  assert (H3 : has_char "/" "anything" = false) by (vm_compute; reflexivity).
  assert (H4 : Forall (fun k => has_char "/" k = false) ["definitions"; "b"])
    by (repeat constructor).
  assert (H5 : objects_along (store_of doc_allOf) ["definitions"; "b"]
                 (root_of doc_allOf))
    by (vm_compute; auto).
  assert (H6 : plain_along (store_of doc_allOf) ["definitions"; "b"]
                 (root_of doc_allOf))
    by (vm_compute; auto).
  exact (conj H1 (resolveref_without_hash (root_of doc_allOf) no_options
                    (store_of doc_allOf) "anything" ["definitions"; "b"]
                    H1 H2 H3 H4 H5 H6)).
Defined.

(** ** References that lead nowhere, and references that lead back *)

Lemma resolve_ref_node schema opts fuel node h :
  readable node = true ->
  first_match h node = Some "$ref" ->
  resolve schema opts (S fuel) node h
  = (fragment <- resolveref schema opts (lookup_prop h node "$ref") ;;
     resolve schema opts fuel fragment) h.
Proof.
  intros Hr. simpl resolve. unfold resolve_body, first_match, keywords.
  simpl find.
  next_keyword "type" Hr; [discriminate|].
  next_keyword "anyOf" Hr; [discriminate|].
  next_keyword "allOf" Hr; [discriminate|].
  next_keyword "oneOf" Hr; [discriminate|].
  next_keyword "not" Hr; [discriminate|].
  next_keyword "$ref" Hr; [reflexivity|].
  destruct (truthy (lookup_prop h node "enum")); discriminate.
Qed.

(** A [$ref] node whose lookup comes back [undefined] or [null] (a key on
    the path is missing) ends in a TypeError, not in the error of the
    reference resolver; one whose lookup comes back [false] (the path runs
    into a string or a number) is warned about and accepted as anything.
    The names the lookup reads are own or absent where they are read: a
    name that is missing but inherited finds the inherited member. *)
Theorem ref_to_nothing schema opts fuel node h :
  readable node = true ->
  first_match h node = Some "$ref" ->
  (forall s, lookup_prop h node "$ref" = VStr s ->
             resolveref_plain schema opts h s = true) ->
  ((resolveref schema opts (lookup_prop h node "$ref") h).1.1 = Ok VUndef
   \/ (resolveref schema opts (lookup_prop h node "$ref") h).1.1 = Ok VNull ->
   resolve schema opts (S (S fuel)) node h = (Throw TypeError, h, []))
  /\ ((resolveref schema opts (lookup_prop h node "$ref") h).1.1 = Ok (VBool false) ->
      resolve schema opts (S (S fuel)) node h = (Ok Joi.any, h, [VBool false])).
Proof.
  intros Hr Hm _. rewrite (resolve_ref_node schema opts (S fuel) node h Hr Hm).
  pose proof (reads_run _ h (reads_resolveref schema opts
                               (lookup_prop h node "$ref"))) as Hrun.
  split.
  - intros [Hout|Hout]; rewrite Hout in Hrun;
      rewrite (bind_reads _ _ h _ Hrun); reflexivity.
  - intros Hout. rewrite Hout in Hrun. rewrite (bind_reads _ _ h _ Hrun).
    rewrite (resolve_unmatched schema opts fuel (VBool false) h)
      by (try reflexivity; intros s; discriminate).
    reflexivity.
Qed.

Lemma ref_to_nothing_witness :
  readable (VRef 0) = true
  /\ resolve (root_of doc_allOf_dangling) no_options 2 (VRef 0)
       (store_of doc_allOf_dangling)
     = (Throw TypeError, store_of doc_allOf_dangling, []).
Proof.
  assert (H1 : readable (VRef 0) = true) by reflexivity.
  assert (H2 : first_match (store_of doc_allOf_dangling) (VRef 0) = Some "$ref")
    by (vm_compute; reflexivity).
  assert (H3 : (resolveref (root_of doc_allOf_dangling) no_options
                  (lookup_prop (store_of doc_allOf_dangling) (VRef 0) "$ref")
                  (store_of doc_allOf_dangling)).1.1 = Ok VUndef)
    by (vm_compute; reflexivity).
  assert (H4 : forall s,
             lookup_prop (store_of doc_allOf_dangling) (VRef 0) "$ref" = VStr s ->
             resolveref_plain (root_of doc_allOf_dangling) no_options
               (store_of doc_allOf_dangling) s = true).
  { intros s Hs. vm_compute in Hs. injection Hs as <-. vm_compute. reflexivity. }
  exact (conj H1 (proj1 (ref_to_nothing (root_of doc_allOf_dangling) no_options 0
                           (VRef 0) (store_of doc_allOf_dangling) H1 H2 H4)
                    (or_introl H3))).
Defined.



(** ** The depth of the recursion *)

Lemma refines_refl {A} (m : M A) : refines m m.
Proof. intros h _. reflexivity. Qed.

Lemma refines_bind {A B} (m1 m2 : M A) (f1 f2 : A -> M B) :
  refines m1 m2 -> (forall a, refines (f1 a) (f2 a)) ->
  refines (bind m1 f1) (bind m2 f2).
Proof.
  intros Hm Hf h Hnt. rewrite !bind_unfold in *. specialize (Hm h).
  destruct (m1 h) as [[[a|e|] h1] w1]; simpl in *.
  - rewrite Hm by discriminate. specialize (Hf a h1).
    destruct (f1 a h1) as [[o h2] w2]; simpl in *.
    rewrite Hf by exact Hnt. reflexivity.
  - rewrite Hm by discriminate. reflexivity.
  - contradiction.
Qed.

Lemma refines_mapM {A B} (f1 f2 : A -> M B) l :
  (forall a, refines (f1 a) (f2 a)) -> refines (mapM f1 l) (mapM f2 l).
Proof.
  intros Hf. induction l as [|a l IH]; simpl; [apply refines_refl|].
  apply refines_bind; [apply Hf|]. intros b.
  apply refines_bind; [exact IH|]. intros bs. apply refines_refl.
Qed.

Lemma refines_foldM {A B} (f1 f2 : B -> A -> M B) l : forall acc,
  (forall acc a, refines (f1 acc a) (f2 acc a)) ->
  refines (foldM f1 l acc) (foldM f2 l acc).
Proof.
  induction l as [|a l IH]; intros acc Hf; simpl; [apply refines_refl|].
  apply refines_bind; [apply Hf|]. intros acc'. apply IH, Hf.
Qed.

Ltac refines_step :=
  match goal with
  | |- refines (bind _ _) (bind _ _) => apply refines_bind; [|intros ?]
  | |- refines (mapM _ _) (mapM _ _) => apply refines_mapM; intros ?
  | |- refines (foldM _ _ _) (foldM _ _ _) => apply refines_foldM; intros ? ?
  | |- refines (if ?b then _ else _) (if ?b then _ else _) => destruct b
  | |- refines (match ?x with _ => _ end) (match ?x with _ => _ end) => destruct x
  | |- refines ?m ?m => apply refines_refl
  end.

Section Deeper.
Variables (schema : value) (opts : options).
Variables rec1 rec2 : value -> M rule.
Hypothesis rec_refines : forall v, refines (rec1 v) (rec2 v).

Lemma refines_resolveAsArray v :
  refines (resolveAsArray rec1 v) (resolveAsArray rec2 v).
Proof using rec_refines. unfold resolveAsArray. repeat refines_step; auto. Qed.

Lemma refines_resolveproperties current :
  refines (resolveproperties rec1 current) (resolveproperties rec2 current).
Proof using rec_refines.
  unfold resolveproperties, resolveproperty. repeat refines_step; auto.
Qed.

Lemma refines_object current : refines (object rec1 current) (object rec2 current).
Proof using rec_refines.
  unfold object. repeat refines_step; auto using refines_resolveproperties.
Qed.

Lemma refines_array current : refines (array rec1 current) (array rec2 current).
Proof using rec_refines.
  unfold array. repeat refines_step; auto using refines_resolveAsArray.
Qed.

Lemma refines_builder current type :
  refines (builder opts rec1 current type) (builder opts rec2 current type).
Proof using rec_refines.
  unfold builder. repeat refines_step; auto using refines_array, refines_object.
Qed.

Lemma refines_resolvetype current :
  refines (resolvetype opts rec1 current) (resolvetype opts rec2 current).
Proof using rec_refines.
  unfold resolvetype, joitype. repeat refines_step; auto using refines_builder.
Qed.

Lemma refines_resolve_body current :
  refines (resolve_body schema opts rec1 current)
          (resolve_body schema opts rec2 current).
Proof using rec_refines.
  unfold resolve_body, resolveAnyOf, resolveAllOf, resolveOneOf, resolveNot.
  repeat refines_step; auto using refines_resolvetype.
Qed.
End Deeper.

Lemma refines_resolve_S schema opts fuel : forall v,
  refines (resolve schema opts fuel v) (resolve schema opts (S fuel) v).
Proof.
  induction fuel as [|fuel IH]; intros v.
  - intros h Hnt. destruct Hnt. reflexivity.
  - cbn [resolve]. apply refines_resolve_body. exact IH.
Qed.

Lemma refines_resolve_more schema opts fuel more : forall v,
  refines (resolve schema opts fuel v) (resolve schema opts (more + fuel) v).
Proof.
  induction more as [|more IH]; intros v; [apply refines_refl|].
  intros h Hnt. simpl Nat.add.
  rewrite (refines_resolve_S schema opts (more + fuel) v h);
    rewrite (IH v h Hnt); [reflexivity|exact Hnt].
Qed.

(** A translation that ends within some call depth ends in the same way
    within every greater depth: the same rule or the same error, the same
    store, the same warnings. *)
Theorem translate_deeper fuel more schema opts h :
  (translate fuel schema opts h).1.1 <> Timeout ->
  translate (more + fuel) schema opts h = translate fuel schema opts h.
Proof.
  unfold translate, assert. rewrite !bind_read.
  destruct (schemaSchema h schema); [|reflexivity].
  rewrite !bind_ret, !bind_read.
  destruct (optionsSchema h opts); [|reflexivity].
  rewrite !bind_ret. apply refines_resolve_more.
Qed.

Lemma translate_deeper_witness :
  (translate 3 (root_of doc_allOf) no_options (store_of doc_allOf)).1.1 <> Timeout
  /\ translate (40 + 3) (root_of doc_allOf) no_options (store_of doc_allOf)
     = translate 3 (root_of doc_allOf) no_options (store_of doc_allOf).
Proof.
  assert (H1 : (translate 3 (root_of doc_allOf) no_options
                  (store_of doc_allOf)).1.1 <> Timeout)
    by (vm_compute; discriminate).
  exact (conj H1 (translate_deeper 3 40 (root_of doc_allOf) no_options
                    (store_of doc_allOf) H1)).
Defined.

(** ** Types without a builder *)

Lemma bind_same {A B} (m1 m2 : M A) (f : A -> M B) h :
  m1 h = m2 h -> bind m1 f h = bind m2 f h.
Proof. unfold bind. intros ->. reflexivity. Qed.

Lemma builtin_type_false type :
  builtin_type type = false ->
  is_str type "array" = false /\ is_str type "boolean" = false
  /\ is_str type "integer" = false /\ is_str type "number" = false
  /\ is_str type "object" = false /\ is_str type "string" = false
  /\ is_str type "null" = false.
Proof.
  unfold builtin_type. intros H.
  repeat (apply orb_false_iff in H; destruct H as [H ?]). auto 10.
Qed.

(** what the [switch] of [joitype] leaves to the table of custom types *)
Lemma builder_custom opts recur current type h :
  builtin_type type = false ->
  builder opts recur current type h
  = (Ok match types opts with
        | Some table => table h type
        | None => None
        end, h, []).
Proof.
  intros Hb. apply builtin_type_false in Hb.
  destruct Hb as (H1 & H2 & H3 & H4 & H5 & H6 & H7).
  unfold builder. rewrite H1, H2, H3, H4, H5, H6, H7. simpl.
  destruct (types opts); reflexivity.
Qed.



(** ** The fallback of the dispatcher *)

Lemma loops_back_not_stringifiable h inside l :
  loops_back h inside l -> forall fuel, stringify_aux fuel h inside (VRef l) = false.
Proof.
  induction 1 as [inside l Hin|inside l k l' Hk _ IH]; intros [|fuel];
    try reflexivity; cbn [stringify_aux].
  - rewrite bool_decide_eq_true_2 by exact Hin. reflexivity.
  - destruct (bool_decide (l ∈ inside)); [reflexivity|].
    apply not_true_is_false. intros Hall.
    rewrite forallb_forall in Hall. specialize (Hall (k, VRef l') Hk).
    simpl in Hall. rewrite IH in Hall. discriminate.
Qed.

(** A node on which no keyword matches and below which the store has a
    cycle cannot be given the accept-anything rule: the warning has to print
    the node, [JSON.stringify] throws a TypeError on the cycle, and so does
    the resolution, without a warning. *)
Theorem cyclic_node_cannot_fall_back schema opts fuel l h :
  first_match h (VRef l) = None ->
  loops_back h [] l ->
  resolve schema opts (S fuel) (VRef l) h = (Throw TypeError, h, []).
Proof.
  intros Hnone Hloop.
  rewrite (resolve_unmatched schema opts fuel (VRef l) h eq_refl Hnone)
    by discriminate.
  unfold bind, warn, stringifiable.
  rewrite (loops_back_not_stringifiable h [] l Hloop). reflexivity.
Qed.

Lemma cyclic_node_cannot_fall_back_witness :
  resolve (VRef 0) no_options 1 (VRef 0)
    [Object [("next", VRef 1)]; Object [("back", VRef 0)]]
  = (Throw TypeError, [Object [("next", VRef 1)]; Object [("back", VRef 0)]], []).
Proof.
  assert (H1 : first_match [Object [("next", VRef 1)]; Object [("back", VRef 0)]]
                 (VRef 0) = None) by (vm_compute; reflexivity).
  assert (H2 : loops_back [Object [("next", VRef 1)]; Object [("back", VRef 0)]]
                 [] 0).
  { apply (loops_below _ [] 0 "next" 1); [simpl; left; reflexivity|].
    apply (loops_below _ [0] 1 "back" 0); [simpl; left; reflexivity|].
    apply loops_here. apply list_elem_of_In. simpl. right. left. reflexivity. }
  exact (cyclic_node_cannot_fall_back (VRef 0) no_options 0 0
           [Object [("next", VRef 1)]; Object [("back", VRef 0)]] H1 H2).
Defined.

Lemma root_of_object props :
  exists l, root_of (JObj props) = VRef l
            /\ isArray (store_of (JObj props)) (VRef l) = false.
Proof.
  unfold root_of, store_of. cbn [parse].
  match goal with
  | |- context [let (ps, h') := ?go props [] in _] => destruct (go props []) as [ps h']
  end.
  exists (length h'). split; [reflexivity|].
  cbn [snd]. unfold isArray, elements. rewrite cell_at_new0. reflexivity.
Qed.

(** An object document in which no keyword matches translates, with any
    valid options and for any depth of at least one call, to the
    accept-anything rule, with one warning that shows the document; the
    store stays as it was. *)
Theorem unrecognised_document_accepts_anything props opts fuel :
  optionsSchema (store_of (JObj props)) opts = true ->
  first_match (store_of (JObj props)) (root_of (JObj props)) = None ->
  translate (S fuel) (root_of (JObj props)) opts (store_of (JObj props))
  = (Ok Joi.any, store_of (JObj props), [root_of (JObj props)]).
Proof.
  intros Hopts Hnone.
  destruct (root_of_object props) as (l & Hroot & Harr).
  destruct (document_stringifiable (JObj props)) as [_ Hprint].
  unfold translate, assert. rewrite bind_read.
  rewrite Hroot in *. cbn [schemaSchema]. rewrite Harr. cbn [negb].
  rewrite bind_ret, bind_read, Hopts, bind_ret.
  rewrite (resolve_unmatched (VRef l) opts fuel (VRef l) _ eq_refl Hnone)
    by discriminate.
  unfold bind, warn. rewrite Hprint. reflexivity.
Qed.

Lemma unrecognised_document_accepts_anything_witness :
  translate 1 (root_of (JObj [("title", JStr "t"); ("minimum", JNum 1)])) no_options
    (store_of (JObj [("title", JStr "t"); ("minimum", JNum 1)]))
  = (Ok Joi.any, store_of (JObj [("title", JStr "t"); ("minimum", JNum 1)]),
     [root_of (JObj [("title", JStr "t"); ("minimum", JNum 1)])]).
Proof.
  assert (H1 : optionsSchema (store_of (JObj [("title", JStr "t"); ("minimum", JNum 1)]))
                 no_options = true) by (vm_compute; reflexivity).
  assert (H2 : first_match (store_of (JObj [("title", JStr "t"); ("minimum", JNum 1)]))
                 (root_of (JObj [("title", JStr "t"); ("minimum", JNum 1)])) = None)
    by (vm_compute; reflexivity).
  exact (unrecognised_document_accepts_anything
           [("title", JStr "t"); ("minimum", JNum 1)] no_options 0 H1 H2).
Defined.

(** ** The merge engine: edge cases and arrays *)

(** A node whose first matching keyword is [allOf], with an empty list:
    the type of the first member is read from [undefined], and the
    resolution ends in a TypeError before anything is merged. *)
Theorem empty_allOf_throws_TypeError schema opts fuel node h :
  readable node = true ->
  first_match h node = Some "allOf" ->
  elements h (lookup_prop h node "allOf") = Some [] ->
  resolve schema opts (S fuel) node h = (Throw TypeError, h, []).
Proof.
  intros Hr. simpl resolve. unfold resolve_body, first_match, keywords.
  simpl find.
  next_keyword "type" Hr; [discriminate|].
  next_keyword "anyOf" Hr; [discriminate|].
  next_keyword "allOf" Hr;
    [|intros Hk; exfalso; revert Hk;
      repeat match goal with
             | |- context [if truthy ?v then _ else _] => destruct (truthy v)
             end; discriminate].
  intros _ Hel. unfold resolveAllOf.
  rewrite (bind_reads _ _ h [] (expect_array_Some _ _ _ _ _ Hr Hel)).
  rewrite bind_get by exact Hr.
  destruct (lookup_prop h node "allOf") as [| | | | |l] eqn:HallOf;
    try discriminate.
  rewrite bind_get by reflexivity.
  assert (Hfirst : lookup_prop h (VRef l) "0" = VUndef).
  { unfold elements in Hel. unfold lookup_prop.
    destruct (cell_at h l); [discriminate|]. injection Hel as ->. reflexivity. }
  rewrite Hfirst. reflexivity.
Qed.

Lemma empty_allOf_throws_TypeError_witness :
  resolve (VRef 1) no_options 1 (VRef 1) [Array []; Object [("allOf", VRef 0)]]
  = (Throw TypeError, [Array []; Object [("allOf", VRef 0)]], []).
Proof.
  assert (H1 : readable (VRef 1) = true) by reflexivity.
  assert (H2 : first_match [Array []; Object [("allOf", VRef 0)]] (VRef 1)
               = Some "allOf") by (vm_compute; reflexivity).
  assert (H3 : elements [Array []; Object [("allOf", VRef 0)]]
                 (lookup_prop [Array []; Object [("allOf", VRef 0)]] (VRef 1) "allOf")
               = Some []) by (vm_compute; reflexivity).
  exact (empty_allOf_throws_TypeError (VRef 1) no_options 0 (VRef 1)
           [Array []; Object [("allOf", VRef 0)]] H1 H2 H3).
Defined.

(** the loop of [mergeArray], once the members are dereferenced *)
Lemma mergeArray_loop schema opts h members : forall items acc,
  (mapM (deref schema opts) members h).1.1 = Ok items ->
  Forall (fun item => readable item = true) items ->
  foldM (mergeArray_step schema opts) members acc h
  = (Ok (acc.1 ++ concat (map (items_of h) items),
         acc.2 ++ concat (map (ordered_of h) items)), h, []).
Proof.
  induction members as [|m members IH]; intros items acc Hd Hok.
  - injection Hd as <-. simpl. destruct acc. rewrite !app_nil_r. reflexivity.
  - apply mapM_reads_cons in Hd; [|apply reads_deref].
    destruct Hd as (item & items' & -> & Hm & Hrest).
    inversion Hok as [|? ? Hitem Hitems]; subst. cbn [foldM].
    assert (Hstep : mergeArray_step schema opts acc m h
                    = (Ok (acc.1 ++ items_of h item,
                           acc.2 ++ ordered_of h item), h, [])).
    { unfold mergeArray_step. rewrite (bind_reads _ _ h item Hm).
      rewrite bind_get by apply Hitem. rewrite bind_read.
      unfold items_of, ordered_of.
      destruct (elements h (lookup_prop h item "items")) as [vs|].
      - rewrite bind_get by apply Hitem. rewrite bind_read.
        unfold or_empty, concat_arg. reflexivity.
      - rewrite app_nil_r. reflexivity. }
    rewrite (bind_reads _ _ h _ Hstep), (IH items' _ Hrest Hitems). simpl.
    rewrite <- !app_assoc. reflexivity.
Qed.

(** the node [mergeArray] returns *)
Lemma mergeArray_loop_result schema opts allOf h members items :
  elements h allOf = Some members ->
  (mapM (deref schema opts) members h).1.1 = Ok items ->
  Forall (fun item => readable item = true) items ->
  exists merged h',
    mergeArray schema opts allOf h = (Ok merged, h', [])
    /\ nodes_unchanged h h'
    /\ lookup_prop h' merged "type" = VStr "array"
    /\ elements h' (lookup_prop h' merged "items")
       = Some (concat (map (items_of h) items)).
Proof.
  intros Hel Hd Hok. unfold mergeArray.
  rewrite bind_read, Hel. simpl default.
  rewrite (bind_reads _ _ h _ (mergeArray_loop schema opts h members items
                                 ([], []) Hd Hok)).
  cbn [fst snd app].
  destruct (concat (map (ordered_of h) items)) as [|o os] eqn:Hord.
  - exists (VRef (S (length h))),
      (h ++ [Array (concat (map (items_of h) items));
             Object [("type", VStr "array"); ("items", VRef (length h));
                     ("ordered", VUndef)]]).
    split; [|split; [|split]].
    + unfold bind, alloc, array_or_undefined, ret. simpl.
      rewrite length_app, Nat.add_1_r, <- app_assoc. reflexivity.
    + apply nodes_unchanged_app.
    + unfold lookup_prop. rewrite cell_at_new1. reflexivity.
    + unfold lookup_prop. rewrite cell_at_new1. simpl.
      unfold elements. rewrite cell_at_new0. reflexivity.
  - exists (VRef (S (S (length h)))),
      (h ++ [Array (concat (map (items_of h) items)); Array (o :: os);
             Object [("type", VStr "array"); ("items", VRef (length h));
                     ("ordered", VRef (S (length h)))]]).
    split; [|split; [|split]].
    + unfold bind, alloc, array_or_undefined, ret. simpl.
      rewrite !length_app. simpl. rewrite !Nat.add_1_r, <- !app_assoc.
      reflexivity.
    + apply nodes_unchanged_app.
    + unfold lookup_prop. rewrite cell_at_new2. reflexivity.
    + unfold lookup_prop. rewrite cell_at_new2. simpl.
      unfold elements. rewrite cell_at_new0. reflexivity.
Qed.





(** ** The string builder *)

Lemma if_truthy_run current key method joischema h :
  readable current = true ->
  if_truthy current key method joischema h
  = (Ok (if truthy (lookup_prop h current key)
         then joischema.(method (lookup_prop h current key)) else joischema), h, []).
Proof. intros Hr. unfold if_truthy. rewrite bind_get by exact Hr. reflexivity. Qed.

Lemma if_number_run current key method joischema h :
  readable current = true ->
  if_number current key method joischema h
  = (Ok (if isNumber (lookup_prop h current key)
         then joischema.(method (lookup_prop h current key)) else joischema), h, []).
Proof. intros Hr. unfold if_number. rewrite bind_get by exact Hr. reflexivity. Qed.

Lemma default_minLength_run h l ps :
  h !! l = Some (Object ps) ->
  default_minLength (VRef l) h = (Ok tt, with_default h (VRef l), []).
Proof.
  intros Hl. unfold default_minLength. rewrite bind_get by reflexivity.
  unfold with_default, lookup_prop, cell_at. rewrite Hl.
  destruct (isUndefined (default VUndef (assoc "minLength" ps))); [|reflexivity].
  unfold set. rewrite Hl. reflexivity.
Qed.

(** what a node answers once the default is written *)
Lemma lookup_with_default h l ps k :
  h !! l = Some (Object ps) ->
  lookup_prop (with_default h (VRef l)) (VRef l) k
  = if String.eqb "minLength" k && isUndefined (lookup_prop h (VRef l) "minLength")
    then VNum (of_nat 0) else lookup_prop h (VRef l) k.
Proof.
  intros Hl. unfold with_default, lookup_prop, cell_at. rewrite Hl.
  destruct (isUndefined (default VUndef (assoc "minLength" ps))) eqn:Hu.
  - rewrite list_lookup_insert_eq by (eapply lookup_lt_Some, Hl).
    rewrite assoc_put by reflexivity.
    rewrite andb_true_r. destruct (String.eqb "minLength" k); reflexivity.
  - rewrite Hl, andb_false_r. reflexivity.
Qed.

Lemma with_default_object h l ps :
  h !! l = Some (Object ps) ->
  exists ps', with_default h (VRef l) !! l = Some (Object ps').
Proof.
  intros Hl. unfold with_default. rewrite Hl.
  destruct (isUndefined (default VUndef (assoc "minLength" ps))).
  - eexists. apply list_lookup_insert_eq. eapply lookup_lt_Some, Hl.
  - exists ps. exact Hl.
Qed.

Lemma with_default_twice h l ps :
  h !! l = Some (Object ps) ->
  with_default (with_default h (VRef l)) (VRef l) = with_default h (VRef l).
Proof.
  intros Hl. unfold with_default at 2 3. rewrite Hl.
  destruct (isUndefined (default VUndef (assoc "minLength" ps))) eqn:Hu.
  - unfold with_default.
    rewrite list_lookup_insert_eq by (eapply lookup_lt_Some, Hl).
    rewrite assoc_put_eq by reflexivity. reflexivity.
  - unfold with_default. rewrite Hl, Hu. reflexivity.
Qed.

(** [regularString] on an object node, step by step *)
Lemma regularString_run h l ps joischema :
  h !! l = Some (Object ps) ->
  regularString (VRef l) joischema h
  = (let h1 := with_default h (VRef l) in
     let joischema :=
       if truthy (lookup_prop h (VRef l) "pattern")
       then joischema.(Joi.regex (lookup_prop h (VRef l) "pattern")) else joischema in
     let joischema :=
       match lookup_prop h1 (VRef l) "minLength" with
       | VNum n =>
           (if is_zero n then joischema.(Joi.allow (VStr "")) else joischema)
             .(Joi.min (lookup_prop h1 (VRef l) "minLength"))
       | _ => joischema
       end in
     (Ok (if isNumber (lookup_prop h1 (VRef l) "maxLength")
          then joischema.(Joi.max (lookup_prop h1 (VRef l) "maxLength"))
          else joischema), h1, [])).
Proof.
  intros Hl. unfold regularString.
  rewrite (bind_reads _ _ h _ (if_truthy_run (VRef l) "pattern" Joi.regex joischema h eq_refl)).
  rewrite bind_unfold, (default_minLength_run h l ps Hl).
  rewrite bind_get by reflexivity.
  rewrite (if_number_run (VRef l) "maxLength" Joi.max _ _ eq_refl). reflexivity.
Qed.

(** the two runs, step by step *)
Lemma regularString_twice_run h l ps joischema :
  h !! l = Some (Object ps) ->
  exists r,
    regularString (VRef l) joischema h = (Ok r, with_default h (VRef l), [])
    /\ regularString (VRef l) joischema (with_default h (VRef l))
       = (Ok r, with_default h (VRef l), []).
Proof.
  intros Hl. destruct (with_default_object h l ps Hl) as (ps' & Hl').
  rewrite (regularString_run h l ps joischema Hl).
  rewrite (regularString_run _ l ps' joischema Hl').
  rewrite (with_default_twice h l ps Hl). cbv zeta.
  rewrite (lookup_with_default h l ps "pattern" Hl). cbn [String.eqb Ascii.eqb Bool.eqb andb].
  eexists. split; reflexivity.
Qed.

(** Where [regularString] returns a rule for an object node, it has
    written the default [minLength: 0] on a node that had no [minLength]
    and nothing else; and from the store this leaves it returns the same
    rule again and writes nothing. So a schema without [minLength] and the
    same schema with [minLength: 0] get the same rule. *)
Theorem regularString_default_once h l ps joischema r h' w :
  h !! l = Some (Object ps) ->
  regularString (VRef l) joischema h = (Ok r, h', w) ->
  h' = with_default h (VRef l)
  /\ w = []
  /\ regularString (VRef l) joischema h' = (Ok r, h', []).
Proof.
  intros Hl Hrun.
  destruct (regularString_twice_run h l ps joischema Hl) as (r0 & H1 & H2).
  rewrite H1 in Hrun.
  assert (Hh : h' = with_default h (VRef l)) by congruence.
  assert (Hw : w = []) by congruence.
  assert (Hr : r = r0) by congruence.
  subst h' w r. split; [reflexivity|]. split; [reflexivity|]. exact H2.
Qed.

Lemma regularString_default_once_witness :
  with_default [Object [("type", VStr "string")]] (VRef 0)
  = with_default [Object [("type", VStr "string")]] (VRef 0)
  /\ @nil value = []
  /\ regularString (VRef 0) Joi.string
       (with_default [Object [("type", VStr "string")]] (VRef 0))
     = (Ok Joi.string.(Joi.allow (VStr "")).(Joi.min (VNum (of_nat 0))),
        with_default [Object [("type", VStr "string")]] (VRef 0), []).
Proof.
  assert (H1 : [Object [("type", VStr "string")]] !! 0
               = Some (Object [("type", VStr "string")])) by reflexivity.
  assert (H2 : regularString (VRef 0) Joi.string [Object [("type", VStr "string")]]
               = (Ok Joi.string.(Joi.allow (VStr "")).(Joi.min (VNum (of_nat 0))),
                  with_default [Object [("type", VStr "string")]] (VRef 0), []))
    by (vm_compute; reflexivity).
  exact (regularString_default_once [Object [("type", VStr "string")]] 0
           [("type", VStr "string")] Joi.string _ _ _ H1 H2).
Defined.

Lemma date_run current h :
  readable current = true -> exists r, date current h = (Ok r, h, []).
Proof.
  intros Hr. unfold date.
  rewrite (bind_reads _ _ h _ (if_truthy_run current "minimum" Joi.min _ h Hr)).
  rewrite (if_truthy_run current "maximum" Joi.max _ h Hr). eexists. reflexivity.
Qed.

Lemma binary_run current h :
  readable current = true -> exists r, binary current h = (Ok r, h, []).
Proof.
  intros Hr. unfold binary.
  rewrite (bind_reads _ _ h _ (if_truthy_run current "minLength" Joi.min _ h Hr)).
  rewrite (if_truthy_run current "maxLength" Joi.max _ h Hr). eexists. reflexivity.
Qed.

(** the run of the string builder, step by step *)
Lemma string_run h l ps :
  h !! l = Some (Object ps) ->
  exists r,
    string_ (VRef l) h
    = (Ok r, if regular h (VRef l) then with_default h (VRef l) else h, []).
Proof.
  intros Hl. unfold string_, regular. rewrite bind_get by reflexivity.
  destruct (truthy (lookup_prop h (VRef l) "enum")); cbn [negb andb].
  { eexists. reflexivity. }
  rewrite bind_get by reflexivity.
  destruct (is_str (lookup_prop h (VRef l) "format") "date"
            || is_str (lookup_prop h (VRef l) "format") "date-time") eqn:Hdate.
  { cbn [orb negb]. apply date_run. reflexivity. }
  cbn [orb].
  destruct (is_str (lookup_prop h (VRef l) "format") "binary").
  { cbn [negb]. apply binary_run. reflexivity. }
  cbn [negb]. rewrite (regularString_run h l ps _ Hl). eexists. reflexivity.
Qed.

(** Where the string builder returns a rule for an object node, the only
    thing it has written is the default [minLength: 0], and it has written
    it exactly on a node without a [minLength] that it reads as a regular
    string: a node with an [enum], or with the format [date], [date-time]
    or [binary], is left as it is. *)
Theorem string_writes_default h l ps r h' w :
  h !! l = Some (Object ps) ->
  string_ (VRef l) h = (Ok r, h', w) ->
  h' = (if regular h (VRef l) then with_default h (VRef l) else h) /\ w = [].
Proof.
  intros Hl Hrun. destruct (string_run h l ps Hl) as (r0 & H0).
  rewrite H0 in Hrun. split; congruence.
Qed.

Lemma string_writes_default_witness :
  [Object [("type", VStr "string"); ("format", VStr "date")]]
  = (if regular [Object [("type", VStr "string"); ("format", VStr "date")]] (VRef 0)
     then with_default [Object [("type", VStr "string"); ("format", VStr "date")]]
            (VRef 0)
     else [Object [("type", VStr "string"); ("format", VStr "date")]])
  /\ @nil value = [].
Proof.
  assert (H1 : [Object [("type", VStr "string"); ("format", VStr "date")]] !! 0
               = Some (Object [("type", VStr "string"); ("format", VStr "date")]))
    by reflexivity.
  assert (H2 : string_ (VRef 0)
                 [Object [("type", VStr "string"); ("format", VStr "date")]]
               = (Ok Joi.date,
                  [Object [("type", VStr "string"); ("format", VStr "date")]], []))
    by (vm_compute; reflexivity).
  exact (string_writes_default
           [Object [("type", VStr "string"); ("format", VStr "date")]] 0
           [("type", VStr "string"); ("format", VStr "date")] _ _ _ H1 H2).
Defined.

(** ** What the builders keep, for the recursive call [resolve] *)

Lemma resolve_sat_kept schema opts fuel v :
  sat nodes_kept (fun _ => True) (resolve schema opts fuel v).
Proof.
  apply (sat_resolve nodes_kept (fun _ => True) schema opts
           nodes_kept_refl nodes_kept_trans nodes_kept_alloc nodes_kept_default);
    auto.
Qed.

Lemma resolvetype_keeps_nodes schema opts fuel current h :
  nodes_kept h (resolvetype opts (resolve schema opts fuel) current h).1.2.
Proof.
  apply (sat_resolvetype nodes_kept (fun _ => True) schema opts
           nodes_kept_refl nodes_kept_trans nodes_kept_alloc nodes_kept_default);
    auto using resolve_sat_kept.
Qed.

Lemma resolveAsArray_keeps_nodes schema opts fuel v h :
  nodes_kept h (resolveAsArray (resolve schema opts fuel) v h).1.2.
Proof.
  apply (sat_resolveAsArray nodes_kept (fun _ => True) schema opts
           nodes_kept_refl nodes_kept_trans nodes_kept_alloc nodes_kept_default);
    auto using resolve_sat_kept.
Qed.

(** a kept object node answers as before for every key but [minLength] *)
Lemma lookup_prop_kept h h' l ps k :
  nodes_kept h h' -> h !! l = Some (Object ps) -> k <> "minLength" ->
  lookup_prop h' (VRef l) k = lookup_prop h (VRef l) k.
Proof.
  intros Hk Hl Hne. rewrite (lookup_kept h h' l ps k Hk Hl Hne).
  unfold lookup_prop, cell_at. rewrite Hl. reflexivity.
Qed.

(** ** Descriptions, titles and defaults *)

Lemma decorate_run current joischema h :
  readable current = true ->
  decorate current joischema h = (Ok (decorated h current joischema), h, []).
Proof.
  intros Hr. unfold decorate, typeDefinitionMap, decorated. cbn [foldM fst snd].
  rewrite (bind_reads _ _ h _ (if_truthy_run current "description" _ _ h Hr)).
  rewrite (bind_reads _ _ h _ (if_truthy_run current "title" _ _ h Hr)).
  rewrite (bind_reads _ _ h _ (if_truthy_run current "default" _ _ h Hr)).
  reflexivity.
Qed.



(** ** Numbers *)

Lemma number_run current h :
  readable current = true ->
  exists r,
    number current h = (Ok r, h, [])
    /\ (In Joi.integer (chain r)
        <-> is_str (lookup_prop h current "type") "integer" = true).
Proof.
  intros Hr. unfold number. rewrite bind_get by exact Hr.
  rewrite (bind_reads _ _ h _ (if_number_run current "minimum" _ _ h Hr)).
  rewrite (bind_reads _ _ h _ (if_number_run current "maximum" _ _ h Hr)).
  rewrite (bind_reads _ _ h _ (if_number_run current "exclusiveMinimum" _ _ h Hr)).
  rewrite (bind_reads _ _ h _ (if_number_run current "exclusiveMaximum" _ _ h Hr)).
  rewrite bind_get by exact Hr.
  eexists. split; [reflexivity|].
  destruct (is_str (lookup_prop h current "type") "integer");
    destruct (isNumber (lookup_prop h current "minimum"));
    destruct (isNumber (lookup_prop h current "maximum"));
    destruct (isNumber (lookup_prop h current "exclusiveMinimum"));
    destruct (isNumber (lookup_prop h current "exclusiveMaximum"));
    destruct (lookup_prop h current "multipleOf") as [| | |n| |];
    try destruct (is_zero n);
    simpl;
    (split;
     [intros H; repeat (destruct H as [H|H]; [discriminate H|]);
      try reflexivity; try contradiction; try discriminate H
     |intros H; try discriminate H; auto 12]).
Qed.

Lemma chain_decorated h current r :
  In Joi.integer (chain (decorated h current r)) <-> In Joi.integer (chain r).
Proof.
  unfold decorated.
  destruct (truthy (lookup_prop h current "description"));
    destruct (truthy (lookup_prop h current "title"));
    destruct (truthy (lookup_prop h current "default"));
    simpl; split; auto; intros H;
    repeat (destruct H as [H|H]; try discriminate); auto.
Qed.

(** the run for a type refined to [integer] or [number], step by step *)
Lemma refined_number_run opts recur current h refine :
  readable current = true ->
  elements h (lookup_prop h current "type") = None ->
  refineType opts = Some refine ->
  is_str (refine h (lookup_prop h current "type") (lookup_prop h current "format"))
         "integer"
  || is_str (refine h (lookup_prop h current "type") (lookup_prop h current "format"))
            "number" = true ->
  exists r,
    resolvetype opts recur current h = (Ok r, h, [])
    /\ (In Joi.integer (chain r)
        <-> is_str (lookup_prop h current "type") "integer" = true).
Proof.
  intros Hr Hel Hrefine Hnum.
  destruct (number_run current h Hr) as (r & Hrun & Hint).
  exists (decorated h current r.(Joi.strict (strictMode opts))). split.
  - unfold resolvetype. rewrite bind_get by exact Hr. rewrite bind_read, Hel.
    fold (decorate current).
    rewrite <- (decorate_run current r.(Joi.strict (strictMode opts)) h Hr).
    rewrite <- (bind_ret r.(Joi.strict (strictMode opts)) (decorate current) h).
    apply bind_same. rewrite bind_get by exact Hr.
    unfold joitype. rewrite Hrefine, bind_read.
    assert (Hb : builder opts recur current
                   (refine h (lookup_prop h current "type")
                           (lookup_prop h current "format")) h
                 = (Ok (Some r), h, [])).
    { unfold builder.
      destruct (refine h (lookup_prop h current "type")
                       (lookup_prop h current "format"))
        as [| | | |s|]; try discriminate.
      cbn [is_str] in *.
      destruct (String.eqb s "integer") eqn:Hi.
      - apply String.eqb_eq in Hi. subst s. cbn.
        rewrite (bind_reads _ _ h _ Hrun). reflexivity.
      - destruct (String.eqb s "number") eqn:Hn; [|discriminate].
        apply String.eqb_eq in Hn. subst s. cbn.
        rewrite (bind_reads _ _ h _ Hrun). reflexivity. }
    rewrite (bind_reads _ _ h _ Hb). rewrite bind_get by exact Hr. reflexivity.
  - rewrite chain_decorated. simpl. rewrite <- Hint. split.
    + intros [H|H]; [discriminate|exact H].
    + auto.
Qed.

(** The [integer()] call follows the type the node declares, not the type
    [refineType] returns. For a node with a single type that [refineType]
    turns into [integer] or [number], where a rule is returned nothing has
    been written or warned about, and the rule has [integer()] called on it
    exactly when the node's own [type] is the string [integer]: a type
    refined to [integer] gives a rule that accepts fractions, and an
    [integer] refined to [number] still gives an integer rule. *)
Theorem integer_follows_declared_type opts recur current h refine r h' w :
  readable current = true ->
  elements h (lookup_prop h current "type") = None ->
  refineType opts = Some refine ->
  is_str (refine h (lookup_prop h current "type") (lookup_prop h current "format"))
         "integer"
  || is_str (refine h (lookup_prop h current "type") (lookup_prop h current "format"))
            "number" = true ->
  resolvetype opts recur current h = (Ok r, h', w) ->
  (In Joi.integer (chain r)
   <-> is_str (lookup_prop h current "type") "integer" = true)
  /\ h' = h /\ w = [].
Proof.
  intros Hr Hel Hrefine Hnum Hrun.
  destruct (refined_number_run opts recur current h refine Hr Hel Hrefine Hnum)
    as (r0 & H0 & Hint).
  rewrite H0 in Hrun.
  assert (Hsame : r = r0) by congruence. subst r.
  split; [exact Hint|]. split; congruence.
Qed.

Lemma integer_follows_declared_type_witness :
  (In Joi.integer (chain Joi.number.(Joi.strict false))
   <-> is_str (lookup_prop [Object [("type", VStr "number");
                                    ("format", VStr "int32")]] (VRef 0) "type")
              "integer" = true)
  /\ [Object [("type", VStr "number"); ("format", VStr "int32")]]
     = [Object [("type", VStr "number"); ("format", VStr "int32")]]
  /\ @nil value = [].
Proof.
  pose (h := [Object [("type", VStr "number"); ("format", VStr "int32")]]).
  pose (opts := {| subSchemas := VUndef; types := None;
                   refineType := Some (fun _ _ _ => VStr "integer");
                   strictMode := false |}).
  assert (H1 : readable (VRef 0) = true) by reflexivity.
  assert (H2 : elements h (lookup_prop h (VRef 0) "type") = None) by reflexivity.
  assert (H3 : refineType opts = Some (fun _ _ _ => VStr "integer")) by reflexivity.
  assert (H4 : is_str ((fun _ _ _ => VStr "integer") h (lookup_prop h (VRef 0) "type")
                         (lookup_prop h (VRef 0) "format")) "integer"
               || is_str ((fun _ _ _ => VStr "integer") h
                            (lookup_prop h (VRef 0) "type")
                            (lookup_prop h (VRef 0) "format")) "number" = true)
    by reflexivity.
  assert (H5 : resolvetype opts (resolve (VRef 0) opts 1) (VRef 0) h
               = (Ok Joi.number.(Joi.strict false), h, []))
    by (vm_compute; reflexivity).
  exact (integer_follows_declared_type opts (resolve (VRef 0) opts 1) (VRef 0) h
           (fun _ _ _ => VStr "integer") _ _ _ H1 H2 H3 H4 H5).
Defined.

(** ** Arrays *)

Lemma mapM_Ok_length {A B} (f : A -> M B) :
  forall l h bs h' w, mapM f l h = (Ok bs, h', w) -> length bs = length l.
Proof.
  induction l as [|a l IH]; intros h bs h' w Hrun.
  - injection Hrun as <- <- <-. reflexivity.
  - cbn [mapM] in Hrun. apply bind_inv_Ok in Hrun.
    destruct Hrun as (b & h1 & w1 & w2 & Hb & Hrest & ->).
    apply bind_inv_Ok in Hrest.
    destruct Hrest as (bs' & h2 & w3 & w4 & Hbs & Hret & ->).
    injection Hret as <- <- <-. simpl. f_equal. eapply IH, Hbs.
Qed.

Lemma resolveAsArray_length recur v h rules h' w :
  resolveAsArray recur v h = (Ok rules, h', w) ->
  length rules = length (concat_arg h v).
Proof.
  unfold resolveAsArray, concat_arg. rewrite bind_read.
  destruct (elements h v) as [vs|].
  - apply mapM_Ok_length.
  - intros H. apply bind_inv_Ok in H.
    destruct H as (r & h1 & w1 & w2 & _ & Hret & _).
    injection Hret as <- _ _. reflexivity.
Qed.

(** An array schema with [items] and [additionalItems: false] is capped at
    the number of item schemas: its rule is built on
    [Joi.array().items(rules).max(n)], where [n] is the length of the
    [items] list - and 1 when [items] is a single schema, so that such an
    array may hold one element only. *)
Theorem additionalItems_false_caps schema opts fuel l ps h r h' w :
  h !! l = Some (Object ps) ->
  truthy (lookup_prop h (VRef l) "items") = true ->
  is_bool (lookup_prop h (VRef l) "additionalItems") false = true ->
  array (resolve schema opts fuel) (VRef l) h = (Ok r, h', w) ->
  exists rules,
    length rules = length (concat_arg h (lookup_prop h (VRef l) "items"))
    /\ built_on (Joi.items Joi.array rules).(Joi.max (VNum (of_nat (length rules)))) r.
Proof.
  intros Hl Hitems Hadd Hrun. unfold array in Hrun.
  rewrite bind_get in Hrun by reflexivity. rewrite Hitems in Hrun.
  apply bind_inv_Ok in Hrun.
  destruct Hrun as (built & h1 & w1 & w2 & Hbuilt & Hrun & ->).
  apply bind_inv_Ok in Hbuilt.
  destruct Hbuilt as (rules & h1' & w3 & w4 & Hrules & Hret & ->).
  injection Hret as <- <- <-.
  pose proof (resolveAsArray_keeps_nodes schema opts fuel
                (lookup_prop h (VRef l) "items") h) as Hkept.
  rewrite Hrules in Hkept. cbn [fst snd] in Hkept, Hrun.
  rewrite bind_get in Hrun by reflexivity.
  rewrite (lookup_prop_kept h h1' l ps "additionalItems" Hkept Hl) in Hrun
    by discriminate.
  rewrite Hadd in Hrun.
  rewrite (bind_reads _ _ h1' _ (if_number_run (VRef l) "minItems" _ _ h1' eq_refl))
    in Hrun.
  rewrite (bind_reads _ _ h1' _ (if_number_run (VRef l) "maxItems" _ _ h1' eq_refl))
    in Hrun.
  rewrite bind_get in Hrun by reflexivity.
  injection Hrun as <- _ _.
  exists rules. split; [apply (resolveAsArray_length _ _ _ _ _ _ Hrules)|].
  repeat match goal with
         | |- context [if ?c then _ else _] => destruct c
         end; simpl; auto 6.
Qed.

Lemma additionalItems_false_caps_witness :
  exists rules,
    length rules
    = length (concat_arg
                [Object [("type", VStr "string")];
                 Object [("type", VStr "array"); ("items", VRef 0);
                         ("additionalItems", VBool false)]]
                (lookup_prop
                   [Object [("type", VStr "string")];
                    Object [("type", VStr "array"); ("items", VRef 0);
                            ("additionalItems", VBool false)]] (VRef 1) "items"))
    /\ built_on (Joi.items Joi.array rules).(Joi.max (VNum (of_nat (length rules))))
         (Joi.items Joi.array
            [Joi.string.(Joi.allow (VStr "")).(Joi.min (VNum (of_nat 0)))
                       .(Joi.strict false)]).(Joi.max (VNum (of_nat 1))).
Proof.
  pose (h := [Object [("type", VStr "string")];
              Object [("type", VStr "array"); ("items", VRef 0);
                      ("additionalItems", VBool false)]]).
  assert (H1 : h !! 1 = Some (Object [("type", VStr "array"); ("items", VRef 0);
                                      ("additionalItems", VBool false)]))
    by reflexivity.
  assert (H2 : truthy (lookup_prop h (VRef 1) "items") = true) by reflexivity.
  assert (H3 : is_bool (lookup_prop h (VRef 1) "additionalItems") false = true)
    by reflexivity.
  assert (H4 : array (resolve (VRef 1) no_options 2) (VRef 1) h
               = (Ok (Joi.items Joi.array
                        [Joi.string.(Joi.allow (VStr "")).(Joi.min (VNum (of_nat 0)))
                                   .(Joi.strict false)]).(Joi.max (VNum (of_nat 1))),
                  with_default h (VRef 0), []))
    by (vm_compute; reflexivity).
  exact (additionalItems_false_caps (VRef 1) no_options 2 1 _ h _ _ _ H1 H2 H3 H4).
Defined.

(** ** Numbers: what is left out *)

Lemma number_calls current h :
  readable current = true ->
  exists r,
    number current h = (Ok r, h, [])
    /\ base r = Joi.number /\ Forall number_call (chain r).
Proof.
  intros Hr. unfold number. rewrite bind_get by exact Hr.
  rewrite (bind_reads _ _ h _ (if_number_run current "minimum" _ _ h Hr)).
  rewrite (bind_reads _ _ h _ (if_number_run current "maximum" _ _ h Hr)).
  rewrite (bind_reads _ _ h _ (if_number_run current "exclusiveMinimum" _ _ h Hr)).
  rewrite (bind_reads _ _ h _ (if_number_run current "exclusiveMaximum" _ _ h Hr)).
  rewrite bind_get by exact Hr.
  eexists. split; [reflexivity|].
  destruct (is_str (lookup_prop h current "type") "integer");
    destruct (isNumber (lookup_prop h current "minimum"));
    destruct (isNumber (lookup_prop h current "maximum"));
    destruct (isNumber (lookup_prop h current "exclusiveMinimum"));
    destruct (isNumber (lookup_prop h current "exclusiveMaximum"));
    destruct (lookup_prop h current "multipleOf") as [| | |n| |];
    try destruct (is_zero n);
    simpl; (split; [reflexivity|repeat constructor]).
Qed.

(** the run for the types [number] and [integer], step by step *)
Lemma number_type_run opts recur current h :
  readable current = true ->
  is_str (lookup_prop h current "type") "integer"
  || is_str (lookup_prop h current "type") "number" = true ->
  refineType opts = None ->
  exists r,
    resolvetype opts recur current h = (Ok r, h, [])
    /\ base r = Joi.number
    /\ forall v, ~ In (Joi.valid v) (chain r).
Proof.
  intros Hr Hnum Hrefine.
  destruct (number_calls current h Hr) as (r & Hrun & Hbase & Hcalls).
  exists (decorated h current r.(Joi.strict (strictMode opts))).
  split; [|split].
  - unfold resolvetype. rewrite bind_get by exact Hr. rewrite bind_read.
    assert (Hel : elements h (lookup_prop h current "type") = None).
    { destruct (lookup_prop h current "type"); try discriminate. reflexivity. }
    rewrite Hel. fold (decorate current).
    rewrite <- (decorate_run current r.(Joi.strict (strictMode opts)) h Hr).
    rewrite <- (bind_ret r.(Joi.strict (strictMode opts)) (decorate current) h).
    apply bind_same. rewrite bind_get by exact Hr.
    unfold joitype. rewrite Hrefine, bind_ret.
    assert (Hb : builder opts recur current (lookup_prop h current "type") h
                 = (Ok (Some r), h, [])).
    { unfold builder.
      destruct (lookup_prop h current "type") as [| | | |s|]; try discriminate.
      cbn [is_str] in *.
      destruct (String.eqb s "integer") eqn:Hi.
      - apply String.eqb_eq in Hi. subst s. cbn.
        rewrite (bind_reads _ _ h _ Hrun). reflexivity.
      - destruct (String.eqb s "number") eqn:Hn; [|discriminate].
        apply String.eqb_eq in Hn. subst s. cbn.
        rewrite (bind_reads _ _ h _ Hrun). reflexivity. }
    rewrite (bind_reads _ _ h _ Hb). rewrite bind_get by exact Hr. reflexivity.
  - unfold decorated.
    destruct (truthy (lookup_prop h current "description"));
      destruct (truthy (lookup_prop h current "title"));
      destruct (truthy (lookup_prop h current "default")); exact Hbase.
  - intros v Hin.
    assert (Hbelow : In (Joi.valid v) (chain r)).
    { revert Hin. unfold decorated.
      destruct (truthy (lookup_prop h current "description"));
        destruct (truthy (lookup_prop h current "title"));
        destruct (truthy (lookup_prop h current "default"));
        simpl; intros H;
        repeat (destruct H as [H|H]; [discriminate H|]); exact H. }
    rewrite Forall_forall in Hcalls. apply list_elem_of_In in Hbelow.
    apply (Hcalls _ Hbelow).
Qed.

(** A number schema's [enum] is not looked at. For a node whose type is
    the string [number] or [integer], with types not refined, where a rule
    is returned nothing has been written or warned about, and the rule is
    [Joi.number()] with calls chained on it, none of which is [valid],
    whatever the node has under [enum]. *)
Theorem number_enum_ignored opts recur current h r h' w :
  readable current = true ->
  is_str (lookup_prop h current "type") "integer"
  || is_str (lookup_prop h current "type") "number" = true ->
  refineType opts = None ->
  resolvetype opts recur current h = (Ok r, h', w) ->
  base r = Joi.number
  /\ (forall v, ~ In (Joi.valid v) (chain r))
  /\ h' = h /\ w = [].
Proof.
  intros Hr Hnum Hrefine Hrun.
  destruct (number_type_run opts recur current h Hr Hnum Hrefine)
    as (r0 & H0 & Hbase & Hvalid).
  rewrite H0 in Hrun.
  assert (Hsame : r = r0) by congruence. subst r.
  split; [exact Hbase|]. split; [exact Hvalid|]. split; congruence.
Qed.

Lemma number_enum_ignored_witness :
  base Joi.number.(Joi.strict false) = Joi.number
  /\ (forall v, ~ In (Joi.valid v) (chain Joi.number.(Joi.strict false)))
  /\ [Array [VNum (of_nat 1); VNum (of_nat 2)];
      Object [("type", VStr "number"); ("enum", VRef 0)]]
     = [Array [VNum (of_nat 1); VNum (of_nat 2)];
        Object [("type", VStr "number"); ("enum", VRef 0)]]
  /\ @nil value = [].
Proof.
  pose (h := [Array [VNum (of_nat 1); VNum (of_nat 2)];
              Object [("type", VStr "number"); ("enum", VRef 0)]]).
  assert (H1 : readable (VRef 1) = true) by reflexivity.
  assert (H2 : is_str (lookup_prop h (VRef 1) "type") "integer"
               || is_str (lookup_prop h (VRef 1) "type") "number" = true)
    by reflexivity.
  assert (H3 : refineType no_options = None) by reflexivity.
  assert (H4 : resolvetype no_options (resolve (VRef 1) no_options 1) (VRef 1) h
               = (Ok Joi.number.(Joi.strict false), h, []))
    by (vm_compute; reflexivity).
  exact (number_enum_ignored no_options (resolve (VRef 1) no_options 1) (VRef 1) h
           _ _ _ H1 H2 H3 H4).
Defined.

(** ** Lists of types *)

Lemma joitype_keeps_nodes schema opts fuel current type format h :
  nodes_kept h (joitype opts (resolve schema opts fuel) current type format h).1.2.
Proof.
  apply (sat_joitype nodes_kept (fun _ => True) schema opts
           nodes_kept_refl nodes_kept_trans nodes_kept_alloc nodes_kept_default);
    auto using resolve_sat_kept.
Qed.

(** what holds of every result of a loop whose steps keep the nodes *)
Lemma mapM_Ok_Forall2_kept {A B} (f : A -> M B) (P : A -> B -> Prop) h0 :
  (forall a h, nodes_kept h (f a h).1.2) ->
  (forall a h b h' w, nodes_kept h0 h -> f a h = (Ok b, h', w) -> P a b) ->
  forall l h bs h' w,
    nodes_kept h0 h -> mapM f l h = (Ok bs, h', w) -> Forall2 P l bs.
Proof.
  intros Hkeep Hf. induction l as [|a l IH]; intros h bs h' w Hk Hrun.
  - injection Hrun as <- <- <-. constructor.
  - cbn [mapM] in Hrun. apply bind_inv_Ok in Hrun.
    destruct Hrun as (b & h1 & w1 & w2 & Hb & Hrest & ->).
    apply bind_inv_Ok in Hrest.
    destruct Hrest as (bs' & h2 & w3 & w4 & Hbs & Hret & ->).
    injection Hret as <- <- <-. constructor.
    + eapply Hf; eassumption.
    + eapply IH; [|exact Hbs].
      eapply nodes_kept_trans; [exact Hk|].
      pose proof (Hkeep a h) as Hstep. rewrite Hb in Hstep. exact Hstep.
Qed.

Lemma builder_integer opts recur current :
  builder opts recur current (VStr "integer")
  = (r <- number current ;; ret (Some r)).
Proof. reflexivity. Qed.

(** In a list of types, [integer] is built as a plain number. For a node
    whose [type] is a list, with types not refined, the rule is the
    decorated alternation of one rule for each entry of the list, and the
    rule of an [integer] entry is a rule built on [Joi.number()], ending in
    [strict(strictMode)], on which [integer()] was not called: the number
    builder looks for the string [integer] under the node's [type], which
    is the list. *)
Theorem integer_in_type_list schema opts fuel l ps h ts r h' w :
  h !! l = Some (Object ps) ->
  elements h (lookup_prop h (VRef l) "type") = Some ts ->
  refineType opts = None ->
  resolvetype opts (resolve schema opts fuel) (VRef l) h = (Ok r, h', w) ->
  exists schemas,
    r = decorated h (VRef l) (Joi.alternatives (Some schemas))
    /\ Forall2 (fun type joischema =>
                  type = VStr "integer" ->
                  exists b, joischema = b.(Joi.strict (strictMode opts))
                            /\ base b = Joi.number
                            /\ ~ In Joi.integer (chain b))
               ts schemas.
Proof.
  intros Hl Hel Hrefine Hrun.
  pose proof (resolvetype_keeps_nodes schema opts fuel (VRef l) h) as Hkept.
  rewrite Hrun in Hkept. cbn [fst snd] in Hkept.
  unfold resolvetype in Hrun. rewrite bind_get in Hrun by reflexivity.
  rewrite bind_read, Hel in Hrun. apply bind_inv_Ok in Hrun.
  destruct Hrun as (r0 & h1 & w1 & w2 & Hbuild & Hdec & ->).
  fold (decorate (VRef l) r0) in Hdec.
  rewrite (decorate_run (VRef l) r0 h1 eq_refl) in Hdec.
  injection Hdec as <- <- <-.
  apply bind_inv_Ok in Hbuild.
  destruct Hbuild as (schemas & h2 & w3 & w4 & Hmap & Hret & _).
  injection Hret as <- _ _. exists schemas. split.
  - unfold decorated.
    rewrite !(lookup_prop_kept h h1 l ps _ Hkept Hl) by discriminate.
    reflexivity.
  - refine (mapM_Ok_Forall2_kept _ _ h _ _ ts h schemas h2 w3
              (nodes_kept_refl h) Hmap).
    + intros t hx. rewrite bind_get by reflexivity. apply joitype_keeps_nodes.
    + intros t hx s hx' wx Hk Hs ->.
      rewrite bind_get in Hs by reflexivity.
      unfold joitype in Hs. rewrite Hrefine, bind_ret, builder_integer in Hs.
      destruct (number_run (VRef l) hx eq_refl) as (b & Hb & Hint).
      destruct (number_calls (VRef l) hx eq_refl) as (b' & Hb' & Hbase & _).
      rewrite Hb in Hb'. injection Hb' as <-.
      rewrite bind_unfold, (bind_reads _ _ hx _ Hb) in Hs.
      unfold ret at 1 in Hs. rewrite bind_get in Hs by reflexivity.
      injection Hs as <- _ _. exists b. split; [reflexivity|]. split; [exact Hbase|].
      intros Hin. apply Hint in Hin.
      rewrite (lookup_prop_kept h hx l ps "type" Hk Hl) in Hin by discriminate.
      destruct (lookup_prop h (VRef l) "type"); discriminate.
Qed.

Lemma integer_in_type_list_witness :
  exists schemas,
    Joi.alternatives
      (Some [Joi.number.(Joi.strict false); Joi.any.(Joi.valid VNull).(Joi.strict false)])
    = decorated [Array [VStr "integer"; VStr "null"]; Object [("type", VRef 0)]]
        (VRef 1) (Joi.alternatives (Some schemas))
    /\ Forall2 (fun type joischema =>
                  type = VStr "integer" ->
                  exists b, joischema = b.(Joi.strict (strictMode no_options))
                            /\ base b = Joi.number
                            /\ ~ In Joi.integer (chain b))
               [VStr "integer"; VStr "null"] schemas.
Proof.
  pose (h := [Array [VStr "integer"; VStr "null"]; Object [("type", VRef 0)]]).
  assert (H1 : h !! 1 = Some (Object [("type", VRef 0)])) by reflexivity.
  assert (H2 : elements h (lookup_prop h (VRef 1) "type")
               = Some [VStr "integer"; VStr "null"]) by reflexivity.
  assert (H3 : refineType no_options = None) by reflexivity.
  assert (H4 : resolvetype no_options (resolve (VRef 1) no_options 1) (VRef 1) h
               = (Ok (Joi.alternatives
                        (Some [Joi.number.(Joi.strict false);
                               Joi.any.(Joi.valid VNull).(Joi.strict false)])),
                  h, [])) by (vm_compute; reflexivity).
  exact (integer_in_type_list (VRef 1) no_options 1 1 _ h _ _ h [] H1 H2 H3 H4).
Defined.

(** ** References into the registry *)

Lemma indexOf_after id rest :
  has_char "#" id = false ->
  indexOf (id +:+ String "#" rest) "#" = Some (String.length id).
Proof.
  unfold indexOf. induction id as [|b id IH]; intros Hid.
  - apply indexOf_hash_first.
  - cbn [has_char] in Hid. apply orb_false_iff in Hid. destruct Hid as [Hb Hid].
    rewrite append_cons. cbn [String.index].
    destruct (String.prefix "#" (String b (id +:+ String "#" rest))) eqn:Hp.
    + apply String.prefix_correct in Hp. simpl in Hp. injection Hp as Hbc _.
      subst b. rewrite Ascii.eqb_refl in Hb. discriminate.
    + rewrite (IH Hid). reflexivity.
Qed.

Lemma substring_before a : forall rest,
  String.substring 0 (String.length a) (a +:+ rest) = a.
Proof.
  induction a as [|b a IH]; intros rest; [apply substring_none|].
  rewrite append_cons. simpl. rewrite IH. reflexivity.
Qed.

Lemma length_append a b :
  String.length (a +:+ b) = String.length a + String.length b.
Proof.
  induction a as [|c a IH]; [reflexivity|]. rewrite append_cons. simpl.
  rewrite IH. reflexivity.
Qed.

Lemma append_assoc a b c : (a +:+ b) +:+ c = a +:+ (b +:+ c).
Proof.
  induction a as [|x a IH]; [reflexivity|]. rewrite !append_cons, IH. reflexivity.
Qed.

Lemma substring_after a : forall rest,
  String.substring (String.length a) (String.length rest) (a +:+ rest) = rest.
Proof.
  induction a as [|b a IH]; intros rest; [apply substring_all|].
  rewrite append_cons. simpl. apply IH.
Qed.

Lemma lookup_registry_registered opts id h :
  lookup_registry opts (id +:+ "#") h = (Ok (registered h opts id), h, []).
Proof.
  unfold lookup_registry, registered.
  assert (Hne : truthy (VStr (id +:+ "#")) = true) by (destruct id; reflexivity).
  rewrite Hne. cbn [andb].
  destruct (truthy (subSchemas opts)) eqn:Hs; [|reflexivity].
  rewrite bind_get by (apply truthy_readable, Hs).
  destruct (truthy (lookup_prop h (subSchemas opts) (id +:+ "#"))); [reflexivity|].
  assert (Hid : String.substring 0 (String.length (id +:+ "#") - 1) (id +:+ "#") = id).
  { rewrite length_append. simpl. rewrite Nat.add_sub. apply substring_before. }
  rewrite Hid. apply get_readable, truthy_readable, Hs.
Qed.

(** A reference ["id#/k1/k2/..."] is read in the schema the registry has
    under ["id#"], or else in the one it has under ["id"], and where the
    registry has neither - or there is no registry - in the root schema,
    without an error: it resolves to the value under the keys [k1], [k2],
    ... of that document, whenever the id contains no ["#"], the keys no
    ["/"], every value a key is read from is an object or an array, and
    the names read - the two ids in the registry, the keys in the
    document - are own or absent where they are read. (An id that names a
    member the registry inherits, as [constructor] does, finds that
    member.) *)
Theorem resolveref_registry schema opts h id ks :
  truthy schema = true ->
  has_char "#" id = false ->
  Forall (fun k => has_char "/" k = false) ks ->
  registry_plain h opts (id +:+ "#") = true ->
  objects_along h ks (referent h opts schema id) ->
  plain_along h ks (referent h opts schema id) ->
  resolveref schema opts (VStr (id +:+ String "#" (pointer ks))) h
  = (Ok (follow h ks (referent h opts schema id)), h, []).
Proof.
  intros Hschema Hid Hks _ Hobj _. unfold resolveref.
  rewrite (indexOf_after id (pointer ks) Hid). cbv zeta.
  assert (Hsplit : id +:+ String "#" (pointer ks) = (id +:+ "#") +:+ pointer ks).
  { rewrite append_assoc. reflexivity. }
  assert (Hlen : String.length id + 1 = String.length (id +:+ "#")).
  { rewrite length_append. reflexivity. }
  assert (Hhead : String.substring 0 (String.length id + 1)
                    (id +:+ String "#" (pointer ks)) = id +:+ "#").
  { rewrite Hsplit, Hlen. apply substring_before. }
  assert (Hpath : substr_from (id +:+ String "#" (pointer ks)) (String.length id + 1)
                  = pointer ks).
  { unfold substr_from. rewrite Hsplit, Hlen, (length_append (id +:+ "#")).
    rewrite Nat.add_comm, Nat.add_sub. apply substring_after. }
  rewrite Hhead, Hpath, (split_pointer ks Hks). simpl tail.
  rewrite (bind_reads _ _ h _ (lookup_registry_registered opts id h)).
  fold (referent h opts schema id).
  assert (Ht : truthy (referent h opts schema id) = true).
  { unfold referent. destruct (truthy (registered h opts id)) eqn:Hreg; assumption. }
  rewrite Ht. unfold assert. rewrite bind_ret. apply walk_follow, Hobj.
Qed.

Lemma resolveref_registry_witness :
  resolveref (VRef 0)
    {| subSchemas := VRef 4; types := None; refineType := None; strictMode := false |}
    (VStr ("other" +:+ String "#" (pointer ["definitions"; "a"])))
    [Object [("type", VStr "boolean")];
     Object [("type", VStr "number")];
     Object [("a", VRef 1)];
     Object [("definitions", VRef 2)];
     Object [("other", VRef 3)]]
  = (Ok (follow
           [Object [("type", VStr "boolean")];
            Object [("type", VStr "number")];
            Object [("a", VRef 1)];
            Object [("definitions", VRef 2)];
            Object [("other", VRef 3)]]
           ["definitions"; "a"]
           (referent
              [Object [("type", VStr "boolean")];
               Object [("type", VStr "number")];
               Object [("a", VRef 1)];
               Object [("definitions", VRef 2)];
               Object [("other", VRef 3)]]
              {| subSchemas := VRef 4; types := None; refineType := None;
                 strictMode := false |}
              (VRef 0) "other")),
     [Object [("type", VStr "boolean")];
      Object [("type", VStr "number")];
      Object [("a", VRef 1)];
      Object [("definitions", VRef 2)];
      Object [("other", VRef 3)]], []).
Proof.
  pose (h := [Object [("type", VStr "boolean")];
              Object [("type", VStr "number")];
              Object [("a", VRef 1)];
              Object [("definitions", VRef 2)];
              Object [("other", VRef 3)]]).
  pose (opts := {| subSchemas := VRef 4; types := None; refineType := None;
                   strictMode := false |}).
  assert (H1 : truthy (VRef 0) = true) by reflexivity.
  assert (H2 : has_char "#" "other" = false) by reflexivity.
  assert (H3 : Forall (fun k => has_char "/" k = false) ["definitions"; "a"])
    by (repeat constructor).
  assert (H4 : objects_along h ["definitions"; "a"] (referent h opts (VRef 0) "other"))
    by (vm_compute; auto).
  assert (H5 : registry_plain h opts ("other" +:+ "#") = true)
    by (vm_compute; reflexivity).
  assert (H6 : plain_along h ["definitions"; "a"] (referent h opts (VRef 0) "other"))
    by (vm_compute; auto).
  exact (resolveref_registry (VRef 0) opts h "other" ["definitions"; "a"]
           H1 H2 H3 H5 H4 H6).
Defined.

(** ** Objects *)

Lemma object_keys_bounds current key method joischema h r h' w :
  (forall v, object_keys joischema.(method v) = object_keys joischema) ->
  if_number current key method joischema h = (Ok r, h', w) ->
  object_keys r = object_keys joischema.
Proof.
  intros Hm. unfold if_number. intros H. apply bind_inv_Ok in H.
  destruct H as (v & h1 & w1 & w2 & _ & H & _). injection H as <- _ _.
  destruct (isNumber v); [apply Hm|reflexivity].
Qed.

(** An object schema without [properties] and one with empty [properties]
    get different rules: when [properties] is not an object the rule
    starts from [Joi.object()] with no keys given, and when it is an object
    without keys the rule starts from [Joi.object({})], the object rule
    with an empty set of keys. *)
Theorem object_keys_absent_or_empty recur current h r h' w :
  readable current = true ->
  object recur current h = (Ok r, h', w) ->
  (isObject (lookup_prop h current "properties") = false ->
   object_keys r = Some None)
  /\ (isObject (lookup_prop h current "properties") = true ->
      own_props h (lookup_prop h current "properties") = [] ->
      object_keys r = Some (Some [])).
Proof.
  intros Hr Hrun.
  assert (Hkeys : forall schemas,
             resolveproperties recur current h = (Ok schemas, h, []) ->
             object_keys r = Some schemas).
  { intros schemas Hp. unfold object in Hrun.
    rewrite (bind_reads _ _ h _ Hp) in Hrun.
    rewrite bind_get in Hrun by exact Hr. rewrite bind_get in Hrun by exact Hr.
    apply bind_inv_Ok in Hrun.
    destruct Hrun as (r1 & h1 & w1 & w2 & Hadd & Hrun & _).
    apply bind_inv_Ok in Hrun.
    destruct Hrun as (r2 & h2 & w3 & w4 & Hmin & Hmax & _).
    rewrite (object_keys_bounds _ _ _ _ _ _ _ _ (fun _ => eq_refl) Hmax).
    rewrite (object_keys_bounds _ _ _ _ _ _ _ _ (fun _ => eq_refl) Hmin).
    destruct (isObject (lookup_prop h current "additionalProperties")).
    - apply bind_inv_Ok in Hadd.
      destruct Hadd as (own & h3 & w5 & w6 & _ & Hret & _).
      injection Hret as <- _ _.
      destruct (is_bool (lookup_prop h current "additionalProperties") true);
        reflexivity.
    - injection Hadd as <- _ _.
      destruct (is_bool (lookup_prop h current "additionalProperties") true);
        reflexivity. }
  split.
  - intros Hno. apply Hkeys. unfold resolveproperties.
    rewrite bind_get by exact Hr. rewrite Hno. reflexivity.
  - intros Hobj Hempty. apply Hkeys. unfold resolveproperties.
    rewrite bind_get by exact Hr. rewrite Hobj, bind_read, Hempty. reflexivity.
Qed.

Lemma object_keys_absent_or_empty_witness :
  readable (VRef 1) = true
  /\ object_keys (Joi.object (Some [])) = Some (Some []).
Proof.
  pose (h := [Object []; Object [("type", VStr "object"); ("properties", VRef 0)]]).
  assert (H1 : readable (VRef 1) = true) by reflexivity.
  assert (H2 : object (resolve (VRef 1) no_options 1) (VRef 1) h
               = (Ok (Joi.object (Some [])), h, [])) by (vm_compute; reflexivity).
  assert (H3 : isObject (lookup_prop h (VRef 1) "properties") = true) by reflexivity.
  assert (H4 : own_props h (lookup_prop h (VRef 1) "properties") = []) by reflexivity.
  exact (conj H1 (proj2 (object_keys_absent_or_empty (resolve (VRef 1) no_options 1)
                           (VRef 1) h _ h [] H1 H2) H3 H4)).
Defined.


